(** * An LRU cache with TTL expiration: the two engines of [main.go]

    [main.go] holds two editions of the cache engine.

    - [ListCache] (lines 1-137) keeps the recency order in a
      [container/list] list and checks the age of an entry on [Get].
    - [LinkedCache] (lines 139-319) links the entries by hand ([prev],
      [next], [head], [tail]) and adds a sweep routine that the constructor
      starts in the background.

    Time is a number of nanoseconds ([Z]); [time.Since t] read at clock
    value [now] is [now - t].  Keys and values are Go [int]s on which the
    engine does no arithmetic, they are modelled in [Z].  An operation that
    dereferences [nil] panics: it returns [None]. *)

From stdpp Require Import gmap list fin_maps strings.
From Stdlib Require Import ZArith Lia.

(** Closed goals over concrete states are settled by evaluation. *)
Ltac evaluate :=
  vm_compute;
  solve [ reflexivity
        | discriminate
        | intros ?; discriminate
        | let H := fresh in intros H; apply H; reflexivity ].

(** A conjunction of such goals, from left to right: a conjunct may fix
    what the next ones are about. *)
Ltac evaluate_all :=
  repeat match goal with |- _ ∧ _ => split; [evaluate|] end;
  evaluate.

(** [Forall P l] over a concrete list, element by element. *)
Ltac evaluate_each :=
  repeat first
    [ apply List.Forall_nil
    | apply List.Forall_cons; [first [exact I | evaluate]|] ].

(** [time.Since(t)] when the clock reads [now]. *)
Definition Since (now t : Z) : Z := (now - t)%Z.

(** [time.Second], in nanoseconds. *)
Definition second : Z := 1000000000%Z.

(** [time.Millisecond] and [time.Microsecond]. *)
Definition millisecond : Z := 1000000%Z.
Definition microsecond : Z := 1000%Z.

(** The value [Get] returns for a miss. *)
Definition miss : Z := (-1)%Z.

(** ** The HTTP layer, the same in both editions

    What a handler reads of its [*http.Request]: [r.Method], [r.Body] and
    [r.URL.Query().Get("key")]. *)
Record request := Request {
  Method : string;
  Body : string;
  query_key : string
}.

(** What a handler does to its [http.ResponseWriter], call by call. *)
Inductive response :=
  | Header_Set (name val : string)
  | WriteHeader (status : Z)
  | http_Error (msg : string) (status : Z)
  | Encode (value expiration : Z).

Definition StatusOK : Z := 200%Z.
Definition StatusBadRequest : Z := 400%Z.

(** [t.Unix()]: whole seconds. *)
Definition Unix (t : Z) : Z := (t / second)%Z.

Module ListCache.

(** [type entry struct] (lines 13-17). *)
Record entry := Entry {
  key : Z;
  value : Z;
  timestamp : Z
}.

(** A [*list.Element]. *)
Definition elem := positive.

(** [type LRUCache struct] (lines 19-25).  [elements] holds the list
    elements that were ever made by [PushFront], each with the entry its
    [Value] points to; [eviction] is the list itself, front first.  [mutex]
    is not modelled, every operation runs from its [Lock] to its [Unlock]
    in one step. *)
Record LRUCache := mkLRUCache {
  capacity : Z;
  cache : gmap Z elem;
  elements : gmap elem entry;
  eviction : list elem;
  expiration : Z
}.

(** [func Constructor] (lines 27-34). *)
Definition Constructor (capacity expiration : Z) : LRUCache :=
  mkLRUCache capacity ∅ ∅ [] expiration.

(** [container/list]: [l.Remove(e)], [l.MoveToFront(e)] (which leaves the
    list alone when [e] is not an element of it) and [l.Back()]. *)
Definition Remove (e : elem) (l : list elem) : list elem :=
  filter (λ x, x ≠ e) l.
Definition MoveToFront (e : elem) (l : list elem) : list elem :=
  if decide (e ∈ l) then e :: Remove e l else l.
Definition Back (l : list elem) : option elem := last l.

(** [func (this *LRUCache) evict(key int)] (lines 74-79). *)
Definition evict (this : LRUCache) (k : Z) : LRUCache :=
  match cache this !! k with
  | Some el =>
      mkLRUCache (capacity this) (delete k (cache this)) (elements this)
        (Remove el (eviction this)) (expiration this)
  | None => this
  end.

(** [func (this *LRUCache) Get(key int) int] (lines 36-50); [now] is the
    clock reading inside [time.Since]. *)
Definition Get (this : LRUCache) (k : Z) (now : Z) : option (LRUCache * Z) :=
  match cache this !! k with
  | Some el =>
      e ← elements this !! el;
      if (Since now (timestamp e) >? expiration this)%Z then
        Some (evict this k, miss)
      else
        Some (mkLRUCache (capacity this) (cache this) (elements this)
                (MoveToFront el (eviction this)) (expiration this), value e)
  | None => Some (this, miss)
  end.

(** [func (this *LRUCache) Set(key int, value int)] (lines 52-72); [now] is
    the reading of [time.Now()] on line 59 or 68. *)
Definition Set_ (this : LRUCache) (k v : Z) (now : Z) : option LRUCache :=
  match cache this !! k with
  | Some el =>
      e ← elements this !! el;
      Some (mkLRUCache (capacity this) (cache this)
              (<[el := Entry (key e) v now]> (elements this))
              (MoveToFront el (eviction this)) (expiration this))
  | None =>
      this1 ←
        (if (Z.of_nat (size (cache this)) >=? capacity this)%Z then
           match Back (eviction this) with
           | Some back => eb ← elements this !! back; Some (evict this (key eb))
           | None => Some this
           end
         else Some this);
      let el := fresh (dom (elements this1)) in
      Some (mkLRUCache (capacity this1) (<[k := el]> (cache this1))
              (<[el := Entry k v now]> (elements this1))
              (el :: eviction this1) (expiration this1))
  end.

(** The calls of the handlers. *)
Inductive op :=
  | OpGet (k now : Z)
  | OpSet (k v now : Z).

Definition exec (this : LRUCache) (o : op) : option (LRUCache * option Z) :=
  match o with
  | OpGet k now => '(c, r) ← Get this k now; Some (c, Some r)
  | OpSet k v now => c ← Set_ this k v now; Some (c, None)
  end.

Fixpoint run (this : LRUCache) (ops : list op) : option LRUCache :=
  match ops with
  | [] => Some this
  | o :: ops' => '(c, _) ← exec this o; run c ops'
  end.

(** The key of the entry that the list element [el] holds. *)
Definition key_of (this : LRUCache) (el : elem) : option Z :=
  key <$> elements this !! el.

(** The index and the list hold the same elements, each under the key of
    its entry. *)
Definition consistent (this : LRUCache) : Prop :=
  NoDup (eviction this) ∧
  (∀ el, el ∈ eviction this → is_Some (elements this !! el)) ∧
  ∀ k el, cache this !! k = Some el ↔
          el ∈ eviction this ∧ key_of this el = Some k.

(** What the cache holds under a key: the entry of the list element that
    the index gives for it.  This reads the cache without touching it. *)
Definition stored (this : LRUCache) (k : Z) : option entry :=
  el ← cache this !! k; elements this !! el.

(** The calls that only read. *)
Definition is_Get (o : op) : Prop :=
  match o with
  | OpGet _ _ => True
  | OpSet _ _ _ => False
  end.

(** The value and the time of the latest [Set] of [k] in a sequence of
    calls. *)
Fixpoint last_Set (ops : list op) (k : Z) : option (Z * Z) :=
  match ops with
  | [] => None
  | o :: ops' =>
      match last_Set ops' k with
      | Some vt => Some vt
      | None =>
          match o with
          | OpSet k' v now => if decide (k' = k) then Some (v, now) else None
          | OpGet _ _ => None
          end
      end
  end.

(** The keys of the list, front first. *)
Definition order_keys (this : LRUCache) : list Z :=
  omap (key_of this) (eviction this).

(** ** The handlers

    The two library calls that can fail are left open: [Decode] is
    [json.NewDecoder(r.Body).Decode(&data)], giving [data.Key] and
    [data.Value] or an error, [Atoi] is [strconv.Atoi]. *)
Section Handlers.
Variable Decode : string → option (Z * Z).
Variable Atoi : string → option Z.

(** [func (h *CacheHandler) SetHandler] (lines 86-108), with [h.cache]
    pointing to [this]; [now] is the clock of [Set]. *)
Definition SetHandler (this : LRUCache) (r : request) (now : Z)
  : option (LRUCache * list response) :=
  let cors :=
    [Header_Set "Access-Control-Allow-Origin" "*";
     Header_Set "Access-Control-Allow-Methods" "POST, OPTIONS";
     Header_Set "Access-Control-Allow-Headers" "Content-Type"] in
  if decide (Method r = "OPTIONS") then
    Some (this, cors ++ [WriteHeader StatusOK])
  else
    match Decode (Body r) with
    | None =>
        Some (this, cors ++ [http_Error "Invalid request body" StatusBadRequest])
    | Some (k, v) =>
        c ← Set_ this k v now;
        Some (c, cors ++ [WriteHeader StatusOK])
    end.

(** [func (h *CacheHandler) GetHandler] (lines 110-126); [now] is the clock
    of [Get], [now'] the reading of [time.Now()] on line 124. *)
Definition GetHandler (this : LRUCache) (r : request) (now now' : Z)
  : option (LRUCache * list response) :=
  let cors := [Header_Set "Access-Control-Allow-Origin" "*"] in
  match Atoi (query_key r) with
  | None => Some (this, cors ++ [http_Error "Invalid key" StatusBadRequest])
  | Some k =>
      '(c, v) ← Get this k now;
      Some (c, cors ++ [Encode v (Unix (now' + expiration c))])
  end.

(** A request as [http.HandleFunc] routes it (lines 133-134): to
    [/cache/set] or to [/cache/get]. *)
Inductive event :=
  | ToSet (r : request) (now : Z)
  | ToGet (r : request) (now now' : Z).

Definition handle (this : LRUCache) (ev : event)
  : option (LRUCache * list response) :=
  match ev with
  | ToSet r now => SetHandler this r now
  | ToGet r now now' => GetHandler this r now now'
  end.

(** The server on a sequence of requests: the cache at the end and what
    each request was answered. *)
Fixpoint serve (this : LRUCache) (evs : list event)
  : option (LRUCache * list (list response)) :=
  match evs with
  | [] => Some (this, [])
  | ev :: evs' =>
      '(c, out) ← handle this ev;
      '(c', outs) ← serve c evs';
      Some (c', out :: outs)
  end.

(** The call of the engine that a request leads to, if it leads to one. *)
Definition call (ev : event) : option op :=
  match ev with
  | ToSet r now =>
      if decide (Method r = "OPTIONS") then None
      else '(k, v) ← Decode (Body r); Some (OpSet k v now)
  | ToGet r now _ => k ← Atoi (query_key r); Some (OpGet k now)
  end.

End Handlers.

(** The cache that [func main] (lines 128-137) makes and serves. *)
Definition main : LRUCache := Constructor 1024 (5 * second).

(** A sample cache: capacity 2, [expiration] 5 s, key 1 set at time 0 and
    key 2 one second later, so key 2 is in front and key 1 at the back. *)
Definition two_elements : LRUCache :=
  Eval vm_compute in
    default (Constructor 2 (5 * second))
      (run (Constructor 2 (5 * second)) [OpSet 1 10 0; OpSet 2 20 second]).

End ListCache.

Module LinkedCache.

(** Addresses of heap-allocated [entry] structs; [None] is [nil]. *)
Definition ptr := positive.

(** [type entry struct] (lines 150-156). *)
Record entry := Entry {
  key : Z;
  value : Z;
  timestamp : Z;
  prev : option ptr;
  next : option ptr
}.

Definition set_value (v : Z) (e : entry) : entry :=
  Entry (key e) v (timestamp e) (prev e) (next e).
Definition set_timestamp (t : Z) (e : entry) : entry :=
  Entry (key e) (value e) t (prev e) (next e).
Definition set_prev (q : option ptr) (e : entry) : entry :=
  Entry (key e) (value e) (timestamp e) q (next e).
Definition set_next (q : option ptr) (e : entry) : entry :=
  Entry (key e) (value e) (timestamp e) (prev e) q.

(** The fields of [type LRUCache struct] (lines 158-164) that are stored in
    the struct itself.  The field [cache] is a Go map, that is a reference:
    the map it refers to lives in the [store] below.  [mutex] is not
    modelled, every operation runs from its [Lock] to its [Unlock] in one
    step. *)
Record LRUCache := mkLRUCache {
  capacity : Z;
  head : option ptr;
  tail : option ptr;
  expiration : Z
}.

Definition set_head (q : option ptr) (c : LRUCache) : LRUCache :=
  mkLRUCache (capacity c) q (tail c) (expiration c).
Definition set_tail (q : option ptr) (c : LRUCache) : LRUCache :=
  mkLRUCache (capacity c) (head c) q (expiration c).

(** What lives on the heap: the [entry] structs and the one map made by
    [make(map[int]*entry)] in the constructor. *)
Record store := Store {
  entries : gmap ptr entry;
  cache : gmap Z ptr
}.

Definition set_entries (h : gmap ptr entry) (s : store) : store :=
  Store h (cache s).
Definition set_cache (m : gmap Z ptr) (s : store) : store :=
  Store (entries s) m.

(** [p.f = x] for a field of the entry at [p]. *)
Definition update (f : entry → entry) (p : ptr) (s : store) : option store :=
  e ← entries s !! p; Some (set_entries (<[p := f e]> (entries s)) s).

(** [func (this *LRUCache) remove(entry *entry)] (lines 237-248). *)
Definition remove (this : LRUCache) (s : store) (p : ptr)
  : option (LRUCache * store) :=
  e ← entries s !! p;
  '(this1, s1) ← match prev e with
                 | Some q => s' ← update (set_next (next e)) q s; Some (this, s')
                 | None => Some (set_head (next e) this, s)
                 end;
  e1 ← entries s1 !! p;
  match next e1 with
  | Some q => s' ← update (set_prev (prev e1)) q s1; Some (this1, s')
  | None => Some (set_tail (prev e1) this1, s1)
  end.

(** [func (this *LRUCache) addToFront(entry *entry)] (lines 225-235). *)
Definition addToFront (this : LRUCache) (s : store) (p : ptr)
  : option (LRUCache * store) :=
  s1 ← update (set_prev None) p s;
  s2 ← update (set_next (head this)) p s1;
  s3 ← match head this with
       | Some q => update (set_prev (Some p)) q s2
       | None => Some s2
       end;
  let this1 := set_head (Some p) this in
  Some (match tail this1 with
        | None => set_tail (Some p) this1
        | Some _ => this1
        end, s3).

(** [func (this *LRUCache) moveToFront(entry *entry)] (lines 220-223). *)
Definition moveToFront (this : LRUCache) (s : store) (p : ptr)
  : option (LRUCache * store) :=
  '(this1, s1) ← remove this s p;
  addToFront this1 s1 p.

(** [func (this *LRUCache) evict(key int)] (lines 212-218); the log line is
    not modelled. *)
Definition evict (this : LRUCache) (s : store) (k : Z)
  : option (LRUCache * store) :=
  match cache s !! k with
  | Some p => remove this (set_cache (delete k (cache s)) s) p
  | None => Some (this, s)
  end.

(** [func (this *LRUCache) Get(key int) int] (lines 176-191).  The clock is
    read twice: [now1] by [time.Now()] on line 182, [now2] inside
    [time.Since] on line 183. *)
Definition Get (this : LRUCache) (s : store) (k : Z) (now1 now2 : Z)
  : option (LRUCache * store * Z) :=
  match cache s !! k with
  | Some p =>
      s1 ← update (set_timestamp now1) p s;
      e ← entries s1 !! p;
      if (Since now2 (timestamp e) >? expiration this)%Z then
        '(this', s') ← evict this s1 k;
        Some (this', s', miss)
      else
        '(this', s') ← moveToFront this s1 p;
        e' ← entries s' !! p;
        Some (this', s', value e')
  | None => Some (this, s, miss)
  end.

(** [&entry{...}] allocates at an address that is not in use. *)
Definition alloc (s : store) : ptr := fresh (dom (entries s)).

(** [func (this *LRUCache) Set(key int, value int)] (lines 193-210); [now] is
    the reading of [time.Now()] on line 200 or 206. *)
Definition Set_ (this : LRUCache) (s : store) (k v : Z) (now : Z)
  : option (LRUCache * store) :=
  match cache s !! k with
  | Some p =>
      s1 ← update (set_value v) p s;
      s2 ← update (set_timestamp now) p s1;
      moveToFront this s2 p
  | None =>
      '(this1, s1) ←
        (if (Z.of_nat (size (cache s)) >=? capacity this)%Z then
           t ← tail this;
           et ← entries s !! t;
           evict this s (key et)
         else Some (this, s));
      let p := alloc s1 in
      let s2 := set_entries (<[p := Entry k v now None None]> (entries s1)) s1 in
      let s3 := set_cache (<[k := p]> (cache s2)) s2 in
      addToFront this1 s3 p
  end.

(** One turn of the loop [for key, elem := range this.cache] of
    [startEvictionRoutine] (lines 254-258): the map yields [k], the clock
    reads [now] inside [time.Since].  A key that is no longer in the map is
    not produced by [range]. *)
Definition sweep_visit (this : LRUCache) (s : store) (k now : Z)
  : option (LRUCache * store) :=
  match cache s !! k with
  | Some p =>
      e ← entries s !! p;
      if (Since now (timestamp e) >? expiration this)%Z
      then evict this s k
      else Some (this, s)
  | None => Some (this, s)
  end.

(** One tick of [startEvictionRoutine] (lines 253-259).  A Go map is ranged
    over in an unspecified order: [visits] lists the keys in the order the
    map yields them, each with the clock reading of its age test. *)
Fixpoint sweep_pass (this : LRUCache) (s : store) (visits : list (Z * Z))
  : option (LRUCache * store) :=
  match visits with
  | [] => Some (this, s)
  | (k, now) :: vs =>
      '(this1, s1) ← sweep_visit this s k now;
      sweep_pass this1 s1 vs
  end.

(** [visits] is an iteration of [range] over the map of [s]: every key of
    the map once. *)
Definition ranges_over (visits : list (Z * Z)) (s : store) : Prop :=
  NoDup visits.*1 ∧ list_to_set visits.*1 = dom (cache s).

(** ** The process: two structs over one map

    [Constructor] (lines 166-174) builds the struct in its local variable
    [cache], starts [go cache.startEvictionRoutine()] on it (a method with a
    pointer receiver: the goroutine works on the address of that local
    variable) and then returns the struct by value ([return cache], result
    type [LRUCache]).  [main] (lines 311-313) stores the returned copy in
    its own variable and hands the address of that variable to the
    handlers.  So [Get] and [Set] work on one struct, the [engine], and the
    sweep routine on another, the [sweeper].  The copy shares what is
    behind references, the map and through it the entries, but [head] and
    [tail] are fields of the struct: each struct has its own.

    [mutex] is a field of the struct as well.  The routine locks the mutex
    of the constructor's variable (line 253), [Get] and [Set] lock the one
    of the caller's copy (lines 177 and 194): calls exclude one another,
    but nothing keeps the routine from running while a call runs. *)
Record process := Process {
  heap : store;
  engine : LRUCache;
  sweeper : LRUCache
}.

Definition Constructor (capacity expiration : Z) : process :=
  let c := mkLRUCache capacity None None expiration in
  Process (Store ∅ ∅) c c.

(** The operations that run on the process: the calls of the handlers and
    the turns of the loop of the sweep routine.  [OpSweep visits] is a run
    of consecutive turns, a whole pass or a part of one: a pass during
    which calls are made is several [OpSweep], with the calls in between.

    Each call and each run of turns is one step here, from its start to its
    end.  The program has more schedules than these: where a call and a
    turn work on the map at the same moment there is a data race, which
    the Go runtime may stop with the fatal error [concurrent map iteration
    and map write] and whose outcome the language does not define.  Those
    schedules are outside this model.  So what is proved of every [run] is
    proved of the schedules in which no call overlaps a turn of the sweep,
    and a [run] that goes wrong is a schedule of the program that goes
    wrong. *)
Inductive op :=
  | OpGet (k now1 now2 : Z)
  | OpSet (k v now : Z)
  | OpSweep (visits : list (Z * Z)).

(** One operation; the [option Z] is what [Get] returned. *)
Definition exec (w : process) (o : op) : option (process * option Z) :=
  match o with
  | OpGet k now1 now2 =>
      '(c, s, r) ← Get (engine w) (heap w) k now1 now2;
      Some (Process s c (sweeper w), Some r)
  | OpSet k v now =>
      '(c, s) ← Set_ (engine w) (heap w) k v now;
      Some (Process s c (sweeper w), None)
  | OpSweep visits =>
      '(c, s) ← sweep_pass (sweeper w) (heap w) visits;
      Some (Process s (engine w) c, None)
  end.

Fixpoint run (w : process) (ops : list op) : option process :=
  match ops with
  | [] => Some w
  | o :: ops' => '(w', _) ← exec w o; run w' ops'
  end.

(** ** The ticker

    [time.Tick(1 * time.Second)] (line 251) ticks every second from the
    start of the routine, that is, with the clock at 0 when [Constructor]
    runs, at every whole second.  [ticks_between t t'] are the ticks after
    [t] and no later than [t']. *)
Definition ticks_between (t t' : Z) : list Z :=
  (λ i : nat, ((t / second + 1 + Z.of_nat i) * second)%Z)
    <$> seq 0 (Z.to_nat (t' / second - t / second)).

(** The loop of a pass over the map of [s] (lines 254-258) when every
    turn reads the clock at [now]: every key of the map once, in the order
    of [map_to_list]. *)
Definition pass_at (s : store) (now : Z) : list (Z * Z) :=
  (λ kp : Z * ptr, (kp.1, now)) <$> map_to_list (cache s).

(** The passes of the given ticks, one after the other, with no call in
    between. *)
Fixpoint passes (w : process) (ticks : list Z) : option process :=
  match ticks with
  | [] => Some w
  | now :: ticks' =>
      '(w', _) ← exec w (OpSweep (pass_at (heap w) now));
      passes w' ticks'
  end.

(** Walking the recency list: follow [next] from [p], at most [fuel]
    entries. *)
Fixpoint walk (fuel : nat) (h : gmap ptr entry) (p : option ptr) : list ptr :=
  match fuel, p with
  | S n, Some q =>
      match h !! q with
      | Some e => q :: walk n h (next e)
      | None => []
      end
  | _, _ => []
  end.

(** The recency list of a struct, from [head]. *)
Definition order (this : LRUCache) (s : store) : list ptr :=
  walk (S (size (entries s))) (entries s) (head this).

Definition key_at (s : store) (p : ptr) : option Z := key <$> entries s !! p.

Definition order_keys (this : LRUCache) (s : store) : list Z :=
  omap (key_at s) (order this s).

(** ** The representation invariant

    [dll h pv l nx]: the entries at the addresses [l] are chained in this
    order by their [prev] and [next] fields, the first one coming after
    [pv] and the last one before [nx]. *)
Definition first (l : list ptr) (nx : option ptr) : option ptr :=
  match l with
  | [] => nx
  | q :: _ => Some q
  end.

Definition final (pv : option ptr) (l : list ptr) : option ptr :=
  match last l with
  | Some q => Some q
  | None => pv
  end.

Fixpoint dll (h : gmap ptr entry) (pv : option ptr) (l : list ptr)
    (nx : option ptr) : Prop :=
  match l with
  | [] => True
  | p :: l' =>
      ∃ e, h !! p = Some e ∧ prev e = pv ∧ next e = first l' nx ∧
           dll h (Some p) l' nx
  end.

(** The entries at [l] form one chain, from a first entry without [prev]
    to a last entry without [next]. *)
Definition chained (s : store) (l : list ptr) : Prop :=
  NoDup l ∧ dll (entries s) None l None.

(** [l] is the recency list of [this], from [head] to [tail]. *)
Definition linked (this : LRUCache) (s : store) (l : list ptr) : Prop :=
  chained s l ∧ head this = first l None ∧ tail this = last l.

(** The map and the list hold the same entries, each under its own key. *)
Definition indexed (s : store) (l : list ptr) : Prop :=
  ∀ k p, cache s !! k = Some p ↔ p ∈ l ∧ key_at s p = Some k.

Definition rep (this : LRUCache) (s : store) (l : list ptr) : Prop :=
  linked this s l ∧ indexed s l.

(** What [remove] leaves of the struct when it takes out the entry between
    the entries [l1] before it and [l2] after it. *)
Definition unlinked (this : LRUCache) (l1 l2 : list ptr) : LRUCache :=
  mkLRUCache (capacity this)
    (match last l1 with
     | None => first l2 None
     | Some _ => head this
     end)
    (match first l2 None with
     | None => last l1
     | Some _ => tail this
     end)
    (expiration this).

(** The core invariant of the engine: the index and the recency list are in
    bijection. *)
Definition wf (this : LRUCache) (s : store) : Prop := ∃ l, rep this s l.

(** What the links do not touch: key, value and timestamp of an entry. *)
Definition data (e : entry) : Z * Z * Z := (key e, value e, timestamp e).
Definition data_at (s : store) (p : ptr) : option (Z * Z * Z) :=
  data <$> entries s !! p.
Definition same_data (s s' : store) : Prop :=
  ∀ q, data_at s' q = data_at s q.

Definition same_data_except (p : ptr) (s s' : store) : Prop :=
  ∀ q, q ≠ p → data_at s' q = data_at s q.

(** The operations of the handlers, as opposed to the ticks of the sweep. *)
Definition handler_op (o : op) : Prop :=
  match o with
  | OpSweep _ => False
  | _ => True
  end.

(** ** The recency order the specification asks for

    Follows the words of the specification: the keys in the order of their
    most recent touch, the most recent first, where a touch is any [Set] and
    any [Get] that hits.  A [Get] of [k] has hit when [k] is in the index
    once the call is over. *)
Definition touch (k : Z) (rec : list Z) : list Z :=
  k :: filter (λ x, x ≠ k) rec.

Definition live (s : store) (k : Z) : Prop := is_Some (cache s !! k).

Fixpoint touched (w : process) (ops : list op) (rec : list Z) : list Z :=
  match ops with
  | [] => rec
  | o :: ops' =>
      match exec w o with
      | Some (w', _) =>
          touched w' ops'
            match o with
            | OpSet k _ _ => touch k rec
            | OpGet k _ _ =>
                if decide (live (heap w') k) then touch k rec else rec
            | OpSweep _ => rec
            end
      | None => rec
      end
  end.

(** The recency list of [this] is the part of [rec] that is live. *)
Definition in_recency_order (this : LRUCache) (s : store) (rec : list Z)
  : Prop :=
  order_keys this s = filter (live s) rec.

(** What the cache holds under a key: key, value and timestamp of the entry
    that the map gives for it.  This reads the cache without touching it. *)
Definition stored (s : store) (k : Z) : option (Z * Z * Z) :=
  p ← cache s !! k; data_at s p.

(** The calls that only read. *)
Definition is_Get (o : op) : Prop :=
  match o with
  | OpGet _ _ _ => True
  | _ => False
  end.

(** The value of the latest [Set] of [k] in a sequence of operations. *)
Fixpoint last_Set (ops : list op) (k : Z) : option Z :=
  match ops with
  | [] => None
  | o :: ops' =>
      match last_Set ops' k with
      | Some v => Some v
      | None =>
          match o with
          | OpSet k' v _ => if decide (k' = k) then Some v else None
          | _ => None
          end
      end
  end.

(** The map tells the truth: what it gives for a key is an entry of that
    key, and the entry holds the value [m] has for the key. *)
Definition coherent (s : store) (m : Z → option Z) : Prop :=
  ∀ k p, cache s !! k = Some p →
         ∃ e, entries s !! p = Some e ∧ key e = k ∧ m k = Some (value e).

(** No pointer of the store or of a struct dangles. *)
Definition ptr_ok (s : store) (o : option ptr) : Prop :=
  ∀ q, o = Some q → is_Some (entries s !! q).

Definition closed (s : store) : Prop :=
  (∀ k p, cache s !! k = Some p → is_Some (entries s !! p)) ∧
  (∀ p e, entries s !! p = Some e → ptr_ok s (prev e) ∧ ptr_ok s (next e)).

(** Entries are never freed. *)
Definition grows (s s' : store) : Prop :=
  ∀ q, is_Some (entries s !! q) → is_Some (entries s' !! q).

Definition struct_ok (s : store) (this : LRUCache) : Prop :=
  ptr_ok s (head this) ∧ ptr_ok s (tail this).

(** The struct of the handlers has a tail as soon as the map has a key. *)
Definition tailed (w : process) : Prop :=
  tail (engine w) = None → cache (heap w) = ∅.

(** What every operation keeps, sweeps included. *)
Definition sound (w : process) : Prop :=
  closed (heap w) ∧ struct_ok (heap w) (engine w) ∧
  struct_ok (heap w) (sweeper w) ∧ tailed w.

(** A [Get] whose two clock readings are no more than [ex] apart. *)
Definition calm (ex : Z) (o : op) : Prop :=
  match o with
  | OpGet _ now1 now2 => (Since now2 now1 ≤ ex)%Z
  | _ => True
  end.

(** What the sweep relies on: the entries of the map form one chain.  The
    [head] and [tail] of a struct are not part of it. *)
Definition well_linked (s : store) : Prop :=
  ∃ l, chained s l ∧ indexed s l.

(** ** The handlers

    As in the list edition, [Decode] is
    [json.NewDecoder(r.Body).Decode(&data)] and [Atoi] is [strconv.Atoi]. *)
Section Handlers.
Variable Decode : string → option (Z * Z).
Variable Atoi : string → option Z.

(** [func (h *CacheHandler) SetHandler] (lines 268-290), with [h.cache]
    pointing to the [engine]; [now] is the clock of [Set]. *)
Definition SetHandler (w : process) (r : request) (now : Z)
  : option (process * list response) :=
  let cors :=
    [Header_Set "Access-Control-Allow-Origin" "*";
     Header_Set "Access-Control-Allow-Methods" "POST, OPTIONS";
     Header_Set "Access-Control-Allow-Headers" "Content-Type"] in
  if decide (Method r = "OPTIONS") then
    Some (w, cors ++ [WriteHeader StatusOK])
  else
    match Decode (Body r) with
    | None =>
        Some (w, cors ++ [http_Error "Invalid request body" StatusBadRequest])
    | Some (k, v) =>
        '(c, s) ← Set_ (engine w) (heap w) k v now;
        Some (Process s c (sweeper w), cors ++ [WriteHeader StatusOK])
    end.

(** [func (h *CacheHandler) GetHandler] (lines 292-308); [now1] and [now2]
    are the clocks of [Get], [now3] the reading of [time.Now()] on
    line 306. *)
Definition GetHandler (w : process) (r : request) (now1 now2 now3 : Z)
  : option (process * list response) :=
  let cors := [Header_Set "Access-Control-Allow-Origin" "*"] in
  match Atoi (query_key r) with
  | None => Some (w, cors ++ [http_Error "Invalid key" StatusBadRequest])
  | Some k =>
      '(c, s, v) ← Get (engine w) (heap w) k now1 now2;
      Some (Process s c (sweeper w),
            cors ++ [Encode v (Unix (now3 + expiration c))])
  end.

(** What happens to the process: a request as [http.HandleFunc] routes it
    (lines 315-316), or turns of the loop of the sweep routine.  As with
    [op], each is one step: [Tick visits] runs between two requests, and a
    pass during which requests are served is several [Tick].  A request
    that works on the map at the same moment as a turn of the sweep is a
    data race, which the runtime may stop with a fatal error; such
    schedules are outside this model. *)
Inductive event :=
  | ToSet (r : request) (now : Z)
  | ToGet (r : request) (now1 now2 now3 : Z)
  | Tick (visits : list (Z * Z)).

Definition handle (w : process) (ev : event)
  : option (process * list response) :=
  match ev with
  | ToSet r now => SetHandler w r now
  | ToGet r now1 now2 now3 => GetHandler w r now1 now2 now3
  | Tick visits =>
      '(c, s) ← sweep_pass (sweeper w) (heap w) visits;
      Some (Process s (engine w) c, [])
  end.

(** The server on a sequence of events: the process at the end and what
    each event was answered. *)
Fixpoint serve (w : process) (evs : list event)
  : option (process * list (list response)) :=
  match evs with
  | [] => Some (w, [])
  | ev :: evs' =>
      '(w1, out) ← handle w ev;
      '(w2, outs) ← serve w1 evs';
      Some (w2, out :: outs)
  end.

(** The operation on the process that an event leads to, if it leads to
    one. *)
Definition call (ev : event) : option op :=
  match ev with
  | ToSet r now =>
      if decide (Method r = "OPTIONS") then None
      else '(k, v) ← Decode (Body r); Some (OpSet k v now)
  | ToGet r now1 now2 _ => k ← Atoi (query_key r); Some (OpGet k now1 now2)
  | Tick visits => Some (OpSweep visits)
  end.

End Handlers.

(** The process that [func main] (lines 310-319) makes and serves. *)
Definition main : process := Constructor 1024 (5 * second).

(** The events that are requests. *)
Definition is_request (ev : event) : Prop :=
  match ev with
  | Tick _ => False
  | _ => True
  end.

(** A request to [/cache/get] whose [Get] reads the clock twice within
    [ex]. *)
Definition prompt (ex : Z) (ev : event) : Prop :=
  match ev with
  | ToGet _ now1 now2 _ => (Since now2 now1 ≤ ex)%Z
  | _ => True
  end.

(** A sample process: capacity 2, [expiration] 5 s, key 1 set at time 0
    and key 2 one second later, so key 2 is at the head and key 1 at the
    tail. *)
Definition two_entries : process :=
  Eval vm_compute in
    default (Constructor 2 (5 * second))
      (run (Constructor 2 (5 * second)) [OpSet 1 10 0; OpSet 2 20 second]).

End LinkedCache.

(** * Facts about the list edition *)

(** A map that is in bijection with a duplicate-free list has its length. *)
Lemma size_bijection (m : gmap Z positive) (f : positive → option Z)
    (l : list positive) :
  NoDup l → (∀ p, p ∈ l → is_Some (f p)) →
  (∀ k p, m !! k = Some p ↔ p ∈ l ∧ f p = Some k) →
  size m = length l.
Proof.
  revert m. induction l as [|p l IH]; intros m Hnd Hf Hm.
  - apply map_size_empty_iff, map_empty. intros k.
    destruct (m !! k) as [q|] eqn:Hq; [|done].
    apply Hm in Hq as [Hq _]. by apply elem_of_nil in Hq.
  - apply NoDup_cons in Hnd as [Hp Hnd].
    destruct (Hf p) as [k Hk]; [by left|].
    assert (Hmk : m !! k = Some p) by (apply Hm; split; [by left|done]).
    simpl. rewrite <-(IH (delete k m)); try done.
    + rewrite map_size_delete, Hmk. simpl.
      assert (size m ≠ 0); [|lia].
      intros ->%map_size_empty_iff. by rewrite lookup_empty in Hmk.
    + intros q ?. apply Hf. by right.
    + intros k' q. destruct (decide (k = k')) as [->|Hne].
      * rewrite lookup_delete_eq. split; [done|]. intros [Hq Hfq].
        assert (m !! k' = Some q) by (apply Hm; split; [by right|done]).
        congruence.
      * rewrite lookup_delete_ne by done. rewrite Hm, elem_of_cons.
        split; [|tauto]. intros [[->|?] ?]; [congruence|done].
Qed.

Module ListCacheFacts.
Import ListCache.

Lemma elem_of_Remove (e x : elem) l : x ∈ Remove e l ↔ x ≠ e ∧ x ∈ l.
Proof. unfold Remove. by rewrite list_elem_of_filter. Qed.

Lemma NoDup_Remove (e : elem) l : NoDup l → NoDup (Remove e l).
Proof. apply NoDup_filter. Qed.

Lemma Remove_snoc (e : elem) l : NoDup (l ++ [e]) → Remove e (l ++ [e]) = l.
Proof.
  intros Hnd. unfold Remove. rewrite filter_app.
  apply NoDup_app in Hnd as (_ & Hx & _).
  rewrite (filter_cons_False _ e []) by (by intros []).
  rewrite filter_nil, (right_id_L [] (++)).
  induction l as [|x l IH]; [done|].
  rewrite filter_cons_True.
  - f_equal. apply IH. intros y ?. apply Hx. by right.
  - intros ->. eapply Hx; by left.
Qed.

Lemma elem_of_MoveToFront (e x : elem) l : x ∈ MoveToFront e l ↔ x ∈ l.
Proof.
  unfold MoveToFront. case_decide; [|done].
  rewrite elem_of_cons, elem_of_Remove.
  destruct (decide (x = e)) as [->|]; intuition congruence.
Qed.

Lemma NoDup_MoveToFront (e : elem) l : NoDup l → NoDup (MoveToFront e l).
Proof.
  intros Hnd. unfold MoveToFront. case_decide; [|done].
  apply NoDup_cons. split; [|by apply NoDup_Remove].
  rewrite elem_of_Remove. intuition congruence.
Qed.

Lemma consistent_size this : consistent this → size (cache this) = length (eviction this).
Proof.
  intros (Hnd & Hel & Hc). apply (size_bijection _ (key_of this)); try done.
  intros el [e He]%Hel. unfold key_of. rewrite He. eauto.
Qed.

Lemma consistent_Constructor cap ex : consistent (Constructor cap ex).
Proof.
  split; [apply NoDup_nil_2|]. split.
  - intros el H. by apply elem_of_nil in H.
  - intros k el. simpl. rewrite lookup_empty. split; [done|].
    intros [H _]. by apply elem_of_nil in H.
Qed.

Lemma evict_missing this k : cache this !! k = None → evict this k = this.
Proof. unfold evict. by intros ->. Qed.

Lemma evict_present this k el :
  consistent this → cache this !! k = Some el →
  consistent (evict this k) ∧
  evict this k = mkLRUCache (capacity this) (delete k (cache this))
                   (elements this) (Remove el (eviction this)) (expiration this).
Proof.
  intros (Hnd & Hel & Hc) Hk. unfold evict. rewrite Hk. split; [|done].
  split; [by apply NoDup_Remove|]. split; simpl.
  - intros x [_ ?]%elem_of_Remove. by apply Hel.
  - intros k' x. rewrite elem_of_Remove. unfold key_of; simpl.
    fold (key_of this x).
    destruct (decide (k = k')) as [->|Hne].
    + rewrite lookup_delete_eq. split; [done|]. intros [[Hx ?] ?].
      destruct Hx. assert (cache this !! k' = Some x) by (by apply Hc).
      congruence.
    + rewrite lookup_delete_ne by done. rewrite (Hc k' x). split; [|tauto].
      intros [? Hkx]. repeat split; try done. intros ->.
      apply Hc in Hk as [_ Hk]. congruence.
Qed.

Lemma Get_consistent this k now c r :
  consistent this → Get this k now = Some (c, r) →
  consistent c ∧ capacity c = capacity this ∧ expiration c = expiration this ∧
  size (cache c) ≤ size (cache this).
Proof.
  intros Hcons. unfold Get. destruct (cache this !! k) as [el|] eqn:Hk.
  - destruct (elements this !! el) as [e|] eqn:He; [|done]. simpl.
    destruct (Since now (timestamp e) >? expiration this)%Z; intros [= <- <-].
    + destruct (evict_present _ _ _ Hcons Hk) as [Hc' Hev]. rewrite Hev in *.
      split; [done|].
      simpl. repeat split; try done. rewrite map_size_delete, Hk. simpl. lia.
    + simpl. split; [|done]. destruct Hcons as (Hnd & Hel & Hc).
      split; [by apply NoDup_MoveToFront|]. split; simpl.
      * intros x ?%elem_of_MoveToFront. by apply Hel.
      * intros k' x. rewrite elem_of_MoveToFront. apply Hc.
  - by intros [= <- <-].
Qed.

(** Lines 68-70: a new element is made, put in front and indexed. *)
Lemma push_front_consistent this k v now :
  consistent this → cache this !! k = None →
  let el := fresh (dom (elements this)) in
  consistent (mkLRUCache (capacity this) (<[k := el]> (cache this))
                (<[el := Entry k v now]> (elements this))
                (el :: eviction this) (expiration this)) ∧
  el ∉ eviction this.
Proof.
  intros (Hnd & Hel & Hc) Hk el.
  assert (Hf : elements this !! el = None).
  { apply not_elem_of_dom. apply is_fresh. }
  assert (Hn : el ∉ eviction this).
  { intros [? ?]%Hel. congruence. }
  split; [|done]. split; [by apply NoDup_cons|]. split; simpl.
  - intros x [->|Hx]%elem_of_cons.
    + rewrite lookup_insert_eq. eauto.
    + rewrite lookup_insert_ne by (by intros ->). by apply Hel.
  - intros k' x. rewrite elem_of_cons. unfold key_of; simpl.
    destruct (decide (x = el)) as [->|Hx].
    + rewrite lookup_insert_eq; simpl. destruct (decide (k = k')) as [->|].
      * rewrite lookup_insert_eq. split; [by auto|done].
      * rewrite lookup_insert_ne by done. split.
        -- intros [? _]%Hc. done.
        -- intros [_ ?]. congruence.
    + rewrite (lookup_insert_ne _ el x) by done. fold (key_of this x).
      destruct (decide (k = k')) as [->|].
      * rewrite lookup_insert_eq. split; [congruence|].
        intros [[?|?] ?]; [done|].
        assert (cache this !! k' = Some x) by (by apply Hc). congruence.
      * rewrite lookup_insert_ne by done. rewrite (Hc k' x). split; [tauto|].
        intros [[?|?] ?]; done.
Qed.

Lemma Set_existing this k v now el :
  consistent this → cache this !! k = Some el →
  ∃ e, elements this !! el = Some e ∧
    Set_ this k v now =
      Some (mkLRUCache (capacity this) (cache this)
              (<[el := Entry (key e) v now]> (elements this))
              (MoveToFront el (eviction this)) (expiration this)) ∧
    consistent (mkLRUCache (capacity this) (cache this)
              (<[el := Entry (key e) v now]> (elements this))
              (MoveToFront el (eviction this)) (expiration this)).
Proof.
  intros (Hnd & Hel & Hc) Hk.
  pose proof Hk as [Hin Hkey]%Hc. destruct (Hel _ Hin) as [e He].
  exists e. split; [done|]. unfold Set_. rewrite Hk, He. split; [done|].
  split; [by apply NoDup_MoveToFront|]. split; simpl.
  - intros x Hx%elem_of_MoveToFront. destruct (decide (el = x)) as [->|].
    + rewrite lookup_insert_eq. eauto.
    + rewrite lookup_insert_ne by done. by apply Hel.
  - intros k' x. rewrite elem_of_MoveToFront, (Hc k' x).
    unfold key_of; simpl. destruct (decide (el = x)) as [->|].
    + by rewrite lookup_insert_eq, He.
    + by rewrite lookup_insert_ne.
Qed.

Lemma Set_fresh_room this k v now :
  consistent this → cache this !! k = None →
  (Z.of_nat (size (cache this)) < capacity this)%Z →
  let el := fresh (dom (elements this)) in
  Set_ this k v now =
    Some (mkLRUCache (capacity this) (<[k := el]> (cache this))
            (<[el := Entry k v now]> (elements this))
            (el :: eviction this) (expiration this)).
Proof.
  intros Hcons Hk Hsz. unfold Set_. rewrite Hk.
  by destruct (Z.geb_spec (Z.of_nat (size (cache this))) (capacity this)); [lia|].
Qed.

(** Lines 62-70 when the cache is full and not empty: the element at the
    back goes, the new one comes in front. *)
Lemma Set_fresh_full this l back eb k v now :
  consistent this → eviction this = l ++ [back] →
  elements this !! back = Some eb → cache this !! k = None →
  (capacity this ≤ Z.of_nat (size (cache this)))%Z →
  let el := fresh (dom (elements this)) in
  Set_ this k v now =
    Some (mkLRUCache (capacity this)
            (<[k := el]> (delete (key eb) (cache this)))
            (<[el := Entry k v now]> (elements this))
            (el :: l) (expiration this)) ∧
  cache this !! key eb = Some back.
Proof.
  intros Hcons Hl Heb Hk Hsz el. unfold Set_. rewrite Hk.
  destruct (Z.geb_spec (Z.of_nat (size (cache this))) (capacity this)); [|lia].
  unfold Back. rewrite Hl, last_snoc; simpl. rewrite Heb; simpl.
  assert (Hkb : cache this !! key eb = Some back).
  { destruct Hcons as (_ & _ & Hc). apply Hc. rewrite Hl. split.
    - apply elem_of_app. right. by left.
    - unfold key_of. by rewrite Heb. }
  destruct (evict_present _ _ _ Hcons Hkb) as [_ ->]. simpl.
  rewrite Hl, Remove_snoc; [done|]. rewrite <-Hl. by destruct Hcons.
Qed.

(** Lines 62-67 when the cache is full and empty: [Back()] is [nil], nothing
    is evicted and the new element is admitted all the same. *)
Lemma Set_fresh_empty this k v now :
  eviction this = [] → cache this !! k = None →
  (capacity this ≤ Z.of_nat (size (cache this)))%Z →
  let el := fresh (dom (elements this)) in
  Set_ this k v now =
    Some (mkLRUCache (capacity this) (<[k := el]> (cache this))
            (<[el := Entry k v now]> (elements this)) [el] (expiration this)).
Proof.
  intros Hl Hk Hsz el. unfold Set_. rewrite Hk.
  destruct (Z.geb_spec (Z.of_nat (size (cache this))) (capacity this)); [|lia].
  unfold Back. rewrite Hl; simpl. by rewrite Hl.
Qed.

Lemma Set_consistent this k v now c :
  consistent this → Set_ this k v now = Some c →
  consistent c ∧ capacity c = capacity this ∧ expiration c = expiration this ∧
  (Z.of_nat (size (cache c)) ≤
     Z.max (Z.of_nat (size (cache this))) (Z.max 1 (capacity this)))%Z.
Proof.
  intros Hcons HS. destruct (cache this !! k) as [el|] eqn:Hk.
  - destruct (Set_existing this k v now el Hcons Hk) as (e & He & HS' & Hc').
    rewrite HS' in HS. injection HS as <-. split; [done|]. simpl. lia.
  - destruct (Z.lt_ge_cases (Z.of_nat (size (cache this))) (capacity this)) as [Hlt|Hge].
    + rewrite (Set_fresh_room this k v now Hcons Hk Hlt) in HS. injection HS as <-.
      destruct (push_front_consistent this k v now Hcons Hk) as [Hc' _].
      split; [done|]. simpl. rewrite map_size_insert_None by done. lia.
    + destruct (eviction this) as [|x l _] eqn:Hl using rev_ind.
      * rewrite (Set_fresh_empty this k v now Hl Hk Hge) in HS. injection HS as <-.
        destruct (push_front_consistent this k v now Hcons Hk) as [Hc' _].
        rewrite Hl in Hc'. split; [done|]. simpl.
        rewrite map_size_insert_None by done.
        rewrite (consistent_size this Hcons), Hl. simpl. lia.
      * destruct Hcons as (Hnd & Hel & Hc). destruct (Hel x) as [eb Heb].
        { rewrite Hl. apply elem_of_app. right. by left. }
        destruct (Set_fresh_full this l x eb k v now) as [HS' Hkb]; try done.
        rewrite HS' in HS. injection HS as <-.
        destruct (evict_present this (key eb) x) as [Hc1 He1]; try done.
        assert (Hk1 : cache (evict this (key eb)) !! k = None).
        { rewrite He1; simpl. destruct (decide (key eb = k)) as [->|].
          - apply lookup_delete_eq.
          - by rewrite lookup_delete_ne. }
        destruct (push_front_consistent _ k v now Hc1 Hk1) as [Hc' _].
        rewrite He1 in Hc'. simpl in Hc'. rewrite Hl, Remove_snoc in Hc'
          by (by rewrite <-Hl).
        split; [done|]. simpl. repeat split; try done.
        rewrite map_size_insert_None by (by rewrite He1 in Hk1).
        rewrite map_size_delete, Hkb. simpl.
        assert (size (cache this) ≠ 0); [|lia].
        intros Hz%map_size_empty_iff. rewrite Hz in Hkb.
        by rewrite lookup_empty in Hkb.
Qed.

(** [Get] tests the age against the timestamp that is stored: an entry that
    has outlived [expiration] is evicted and reported as a miss. *)
Lemma Get_stale this k el e now :
  consistent this → cache this !! k = Some el →
  elements this !! el = Some e →
  (Since now (timestamp e) > expiration this)%Z →
  Get this k now = Some (evict this k, miss) ∧
  cache (evict this k) !! k = None ∧ el ∉ eviction (evict this k).
Proof.
  intros Hcons Hk He Hage. unfold Get. rewrite Hk, He. simpl.
  destruct (Z.gtb_spec (Since now (timestamp e)) (expiration this));
    [|unfold Since in *; lia].
  split; [done|]. destruct (evict_present _ _ _ Hcons Hk) as [_ ->]. simpl.
  split; [apply lookup_delete_eq|]. rewrite elem_of_Remove. tauto.
Qed.

(** Any sequence of calls keeps the list and the index consistent; the index
    never grows beyond the capacity, or beyond one entry when the capacity
    is less than that. *)
Lemma run_consistent ops this c :
  consistent this → run this ops = Some c →
  consistent c ∧ capacity c = capacity this ∧
  (Z.of_nat (size (cache c)) ≤
     Z.max (Z.of_nat (size (cache this))) (Z.max 1 (capacity this)))%Z.
Proof.
  revert this. induction ops as [|o ops IH]; intros this Hcons; simpl.
  - intros [= <-]. split; [done|]. split; [done|]. lia.
  - destruct o as [k now|k v now]; simpl.
    + destruct (Get this k now) as [[c1 r]|] eqn:HG; [|done]. simpl.
      destruct (Get_consistent _ _ _ _ _ Hcons HG) as (Hc1 & Hcap & _ & Hsz).
      intros Hrun. destruct (IH c1 Hc1 Hrun) as (? & Hcap' & Hsz').
      split; [done|]. split; [congruence|]. lia.
    + destruct (Set_ this k v now) as [c1|] eqn:HS; [|done]. simpl.
      destruct (Set_consistent _ _ _ _ _ Hcons HS) as (Hc1 & Hcap & _ & Hsz).
      intros Hrun. destruct (IH c1 Hc1 Hrun) as (? & Hcap' & Hsz').
      split; [done|]. split; [congruence|]. lia.
Qed.
End ListCacheFacts.

(** * Facts about the linked edition *)

Module LinkedCacheFacts.
Import LinkedCache.

Lemma first_app l1 l2 nx : first (l1 ++ l2) nx = first l1 (first l2 nx).
Proof. by destruct l1. Qed.

Lemma first_snoc l q l2 nx nx' :
  first ((l ++ [q]) ++ l2) nx = first (l ++ [q]) nx'.
Proof. by destruct l. Qed.

Lemma final_cons pv p l : final pv (p :: l) = final (Some p) l.
Proof. unfold final. rewrite last_cons. by destruct (last l). Qed.

Lemma final_None l : final None l = last l.
Proof. unfold final. by destruct (last l). Qed.

Lemma dll_app h pv l1 l2 nx :
  dll h pv (l1 ++ l2) nx ↔ dll h pv l1 (first l2 nx) ∧ dll h (final pv l1) l2 nx.
Proof.
  revert pv. induction l1 as [|p l1 IH]; intros pv; simpl.
  - unfold final; simpl. tauto.
  - rewrite final_cons, first_app. split.
    + intros (e & ? & ? & ? & Hd). apply IH in Hd as [??]. eauto 10.
    + intros [(e & ? & ? & ? & ?) ?]. exists e. repeat split; try done.
      apply IH. done.
Qed.

Lemma dll_frame h h' pv l nx :
  (∀ q, q ∈ l → h' !! q = h !! q) → dll h pv l nx → dll h' pv l nx.
Proof.
  revert pv. induction l as [|p l IH]; intros pv Hq; simpl; [done|].
  intros (e & ? & ? & ? & ?). exists e. rewrite Hq by left.
  repeat split; try done. apply IH; [|done]. intros q ?. apply Hq. by right.
Qed.

Lemma dll_lookup h pv l nx q : dll h pv l nx → q ∈ l → is_Some (h !! q).
Proof.
  revert pv. induction l as [|p l IH]; intros pv; simpl.
  - intros _ H. by apply elem_of_nil in H.
  - intros (e & ? & ? & ? & ?) [->|?]%elem_of_cons; eauto.
Qed.

(** Redirecting the [next] of the last entry of a segment. *)
Lemma dll_set_next h pv l q eq nx nx' :
  NoDup (l ++ [q]) → h !! q = Some eq → dll h pv (l ++ [q]) nx →
  dll (<[q := set_next nx' eq]> h) pv (l ++ [q]) nx'.
Proof.
  intros Hnd Hq. rewrite !dll_app. simpl. intros [Hl (e & He & ? & ? & _)].
  apply NoDup_app in Hnd as (_ & Hnd & _). split.
  - eapply dll_frame; [|done]. intros r Hr. apply lookup_insert_ne.
    intros ->. eapply Hnd; [done|]. by left.
  - exists (set_next nx' eq). rewrite lookup_insert_eq. simplify_eq. done.
Qed.

(** Redirecting the [prev] of the first entry of a segment. *)
Lemma dll_set_prev h pv pv' l q eq nx :
  NoDup (q :: l) → h !! q = Some eq → dll h pv (q :: l) nx →
  dll (<[q := set_prev pv' eq]> h) pv' (q :: l) nx.
Proof.
  intros Hnd Hq. simpl. intros (e & He & ? & ? & Hl).
  apply NoDup_cons in Hnd as [Hnd _].
  exists (set_prev pv' eq). rewrite lookup_insert_eq. simplify_eq.
  repeat split; try done.
  eapply dll_frame; [|done]. intros r Hr. apply lookup_insert_ne.
  by intros ->.
Qed.

Lemma update_Some f p s e :
  entries s !! p = Some e →
  update f p s = Some (set_entries (<[p := f e]> (entries s)) s).
Proof. unfold update. by intros ->. Qed.

Lemma same_data_refl s : same_data s s.
Proof. done. Qed.

Lemma same_data_trans s1 s2 s3 :
  same_data s1 s2 → same_data s2 s3 → same_data s1 s3.
Proof. intros H1 H2 q. by rewrite H2, H1. Qed.

Lemma same_data_update f p s e :
  entries s !! p = Some e → data (f e) = data e →
  same_data s (set_entries (<[p := f e]> (entries s)) s).
Proof.
  intros He Hf q. unfold data_at; simpl.
  destruct (decide (p = q)) as [->|].
  - by rewrite lookup_insert_eq, He; simpl; rewrite Hf.
  - by rewrite lookup_insert_ne.
Qed.

Lemma remove_chained this s l1 p l2 :
  chained s (l1 ++ p :: l2) →
  ∃ s', remove this s p = Some (unlinked this l1 l2, s') ∧
        chained s' (l1 ++ l2) ∧ cache s' = cache s ∧ same_data s s'.
Proof.
  intros (Hnd & Hd). destruct this as [cap hd tl ex].
  assert (Hnd' : NoDup (l1 ++ l2)).
  { apply NoDup_app in Hnd as (? & Hx & [_ ?]%NoDup_cons).
    apply NoDup_app. repeat split; try done.
    intros x ? ?. eapply Hx; [done|]. by right. }
  apply dll_app in Hd as [Hd1 Hd2]. simpl in Hd1.
  destruct Hd2 as (e & He & Hpv & Hnx & Hd2). rewrite final_None in Hpv.
  unfold remove, unlinked, set_head, set_tail. rewrite He; simpl.
  destruct l1 as [|q l1 _] using rev_ind.
  - (* the entry is the first one *)
    simpl in *. rewrite Hpv; simpl. rewrite He; simpl.
    destruct l2 as [|q2 l2]; simpl in *; rewrite Hnx, ?Hpv.
    + eexists. split; [done|]. by repeat split.
    + destruct Hd2 as (e2 & He2 & ? & ? & Hd2).
      erewrite update_Some by done. simpl. eexists. split; [done|].
      split; [|split; [done|]].
      * split; [done|]. simpl.
        apply (dll_set_prev _ (Some p)); try done. simpl. eauto 10.
      * apply same_data_update; done.
  - (* the entry has a predecessor [q] *)
    rewrite last_snoc in Hpv. rewrite Hpv, last_snoc; simpl.
    assert (q ≠ p) as Hqp.
    { intros ->. rewrite <-(assoc_L (++)) in Hnd.
      apply NoDup_app in Hnd as (_ & _ & Hnd). simpl in Hnd.
      apply NoDup_cons in Hnd as [Hnd _]. apply Hnd. by left. }
    destruct (dll_lookup _ _ _ _ q Hd1) as [eq Heq].
    { apply elem_of_app. right. by left. }
    erewrite update_Some by done. simpl.
    rewrite lookup_insert_ne by done. rewrite He; simpl.
    assert (Hnd1 : NoDup (l1 ++ [q])) by (by apply NoDup_app in Hnd as (? & _)).
    pose proof (dll_set_next _ _ _ _ _ _ (first l2 None) Hnd1 Heq Hd1) as Hd1'.
    assert (Hfr : ∀ r, r ∈ l2 → <[q := set_next (next e) eq]> (entries s) !! r
                                 = entries s !! r).
    { intros r Hr. apply lookup_insert_ne. intros ->.
      apply NoDup_app in Hnd as (_ & Hx & _). eapply (Hx r).
      - apply elem_of_app. right. by left.
      - by right. }
    destruct l2 as [|q2 l2]; simpl in *; rewrite Hnx.
    + rewrite Hpv, (right_id_L [] (++)).
      eexists. split; [done|].
      split; [|split; [done|]].
      * by split.
      * apply same_data_update; done.
    + destruct Hd2 as (e2 & He2 & ? & ? & Hd2).
      assert (q ≠ q2) as Hq2.
      { intros ->. apply NoDup_app in Hnd' as (_ & Hx & _). eapply (Hx q2).
        - apply elem_of_app. right. by left.
        - by left. }
      assert (Hnd2 : NoDup (q2 :: l2)) by (by apply NoDup_app in Hnd' as (? & ? & ?)).
      erewrite update_Some by (simpl; by rewrite lookup_insert_ne). simpl.
      rewrite Hpv.
      eexists. split; [done|].
      split; [|split; [done|]].
      * split; [done|].
        simpl. apply dll_app. split.
        -- eapply dll_frame; [|done].
           intros r Hr. apply lookup_insert_ne. intros <-.
           apply NoDup_app in Hnd' as (_ & Hx & _). eapply Hx; [done|].
           by left.
        -- unfold final. rewrite last_snoc.
           apply (dll_set_prev _ (Some p)); try done.
           { by rewrite lookup_insert_ne. }
           eapply dll_frame; [|simpl; eauto 10].
           intros r Hr. rewrite <-Hnx. by apply Hfr.
      * eapply same_data_trans;
          [apply (same_data_update (set_next (Some q2)) q s eq); done|].
        refine (same_data_update (set_prev (Some q)) q2
                  (set_entries (<[q:=set_next (Some q2) eq]> (entries s)) s) e2 _ _);
          [|done].
        simpl. by rewrite lookup_insert_ne.
Qed.

Lemma unlinked_linked this s l1 p l2 :
  linked this s (l1 ++ p :: l2) →
  unlinked this l1 l2 =
    mkLRUCache (capacity this) (first (l1 ++ l2) None) (last (l1 ++ l2))
      (expiration this).
Proof.
  intros (_ & Hh & Ht). unfold unlinked. rewrite Hh, Ht. f_equal.
  - destruct l1 as [|q l1 _] using rev_ind; [done|].
    rewrite last_snoc. by rewrite !(first_snoc _ _ _ _ None).
  - destruct l2 as [|q2 l2]; simpl.
    + by rewrite (right_id_L [] (++)).
    + by rewrite !last_app_cons.
Qed.

Lemma remove_linked this s l1 p l2 :
  linked this s (l1 ++ p :: l2) →
  ∃ s', remove this s p =
          Some (mkLRUCache (capacity this) (first (l1 ++ l2) None)
                  (last (l1 ++ l2)) (expiration this), s') ∧
        linked (mkLRUCache (capacity this) (first (l1 ++ l2) None)
                  (last (l1 ++ l2)) (expiration this)) s' (l1 ++ l2) ∧
        cache s' = cache s ∧ same_data s s'.
Proof.
  intros Hl. pose proof Hl as (Hc & _).
  destruct (remove_chained this s l1 p l2 Hc) as (s' & Hr & Hc' & ? & ?).
  rewrite (unlinked_linked _ _ _ _ _ Hl) in Hr. exists s'.
  split; [done|]. split; [|done]. by split.
Qed.

Lemma addToFront_linked this s l p :
  linked this s l → p ∉ l → is_Some (entries s !! p) →
  ∃ s', addToFront this s p =
          Some (mkLRUCache (capacity this) (Some p) (last (p :: l))
                  (expiration this), s') ∧
        linked (mkLRUCache (capacity this) (Some p) (last (p :: l))
                  (expiration this)) s' (p :: l) ∧
        cache s' = cache s ∧ same_data s s'.
Proof.
  intros ((Hnd & Hd) & Hh & Ht) Hp [e He].
  destruct this as [cap hd tl ex]; simpl in *; subst hd tl.
  unfold addToFront, set_head, set_tail; simpl.
  erewrite update_Some by done; simpl.
  erewrite update_Some by (simpl; apply lookup_insert_eq); simpl.
  rewrite insert_insert_eq.
  set (e' := set_next (first l None) (set_prev None e)).
  assert (Hs : same_data s (set_entries (<[p:=e']> (entries s)) s)).
  { by apply (same_data_update (λ _, e') p s e). }
  assert (Hfr : ∀ r, r ∈ l → <[p:=e']> (entries s) !! r = entries s !! r).
  { intros r Hr. apply lookup_insert_ne. by intros ->. }
  assert (Hnd' : NoDup (p :: l)) by (by apply NoDup_cons).
  destruct l as [|q l]; simpl.
  - eexists. split; [done|]. split; [|done].
    repeat split; try done. simpl. exists e'. by rewrite lookup_insert_eq.
  - destruct Hd as (eq & Heq & ? & ? & Hd).
    assert (p ≠ q) as Hpq by (intros ->; apply Hp; by left).
    erewrite update_Some by (simpl; by rewrite lookup_insert_ne); simpl.
    assert (is_Some (last (q :: l))) as [t Htl] by (by apply last_is_Some).
    rewrite Htl. eexists. split; [done|].
    split; [|split; [done|]].
    + repeat split; try done. simpl.
      exists e'. rewrite lookup_insert_ne, lookup_insert_eq by done.
      repeat split; try done.
      apply (dll_set_prev _ None).
      * by apply NoDup_cons in Hnd' as [_ ?].
      * by rewrite lookup_insert_ne.
      * eapply dll_frame; [apply Hfr|]. simpl. eauto 10.
    + eapply same_data_trans; [apply Hs|].
      refine (same_data_update (set_prev (Some p)) q
                (set_entries (<[p:=e']> (entries s)) s) eq _ _); [|done].
      simpl. by rewrite lookup_insert_ne.
Qed.

Lemma same_data_is_Some s s' p :
  same_data s s' → is_Some (entries s !! p) → is_Some (entries s' !! p).
Proof.
  intros H [e He]. specialize (H p). unfold data_at in H.
  rewrite He in H. destruct (entries s' !! p); [eauto|done].
Qed.

Lemma moveToFront_linked this s l1 p l2 :
  linked this s (l1 ++ p :: l2) →
  ∃ s', moveToFront this s p =
          Some (mkLRUCache (capacity this) (Some p) (last (p :: l1 ++ l2))
                  (expiration this), s') ∧
        linked (mkLRUCache (capacity this) (Some p) (last (p :: l1 ++ l2))
                  (expiration this)) s' (p :: l1 ++ l2) ∧
        cache s' = cache s ∧ same_data s s'.
Proof.
  intros Hl. pose proof Hl as ((Hnd & Hd) & _).
  destruct (remove_linked _ _ _ _ _ Hl) as (s1 & Hr & Hl1 & Hc1 & Hs1).
  unfold moveToFront. rewrite Hr; simpl.
  destruct (addToFront_linked _ s1 (l1 ++ l2) p Hl1) as (s2 & Ha & Hl2 & Hc2 & Hs2).
  - apply NoDup_app in Hnd as (_ & Hx & [Hy _]%NoDup_cons).
    intros [?|?]%elem_of_app; [|done]. eapply Hx; [done|]. by left.
  - eapply same_data_is_Some; [done|]. eapply dll_lookup; [done|].
    apply elem_of_app. right. by left.
  - simpl in *. exists s2. rewrite Ha. split; [done|]. split; [done|].
    split; [congruence|]. by eapply same_data_trans.
Qed.

Lemma same_data_same_data_except p s s' :
  same_data s s' → same_data_except p s s'.
Proof. intros H q _. apply H. Qed.

Lemma same_data_except_trans p s1 s2 s3 :
  same_data_except p s1 s2 → same_data_except p s2 s3 →
  same_data_except p s1 s3.
Proof. intros H1 H2 q Hq. by rewrite H2, H1. Qed.

Lemma same_data_except_update f p s e :
  entries s !! p = Some e →
  same_data_except p s (set_entries (<[p := f e]> (entries s)) s).
Proof.
  intros He q Hq. unfold data_at; simpl. by rewrite lookup_insert_ne.
Qed.

Lemma key_at_same_data s s' q : same_data s s' → key_at s' q = key_at s q.
Proof.
  intros H. specialize (H q). unfold key_at, data_at, data in *.
  destruct (entries s' !! q), (entries s !! q); simpl in *; congruence.
Qed.

Lemma indexed_transfer s s' l l' :
  (∀ q, key_at s' q = key_at s q) → cache s' = cache s →
  (∀ q, q ∈ l' ↔ q ∈ l) → indexed s l → indexed s' l'.
Proof.
  intros Hk Hc Hl Hi k p. by rewrite Hc, Hk, Hl.
Qed.

Lemma linked_set_cache this s m l : linked this (set_cache m s) l ↔ linked this s l.
Proof. done. Qed.

Lemma rep_cache this s l k p :
  rep this s l → cache s !! k = Some p →
  ∃ l1 l2 e, l = l1 ++ p :: l2 ∧ entries s !! p = Some e ∧ key e = k.
Proof.
  intros [_ Hi] [Hp Hk]%Hi. apply list_elem_of_split in Hp as (l1 & l2 & ->).
  unfold key_at in Hk. destruct (entries s !! p) as [e|] eqn:He; [|done].
  exists l1, l2, e. simpl in Hk. by simplify_eq.
Qed.

Lemma rep_key this s l p :
  rep this s l → p ∈ l →
  ∃ e, entries s !! p = Some e ∧ cache s !! key e = Some p.
Proof.
  intros [((_ & Hd) & _) Hi] Hp.
  destruct (dll_lookup _ _ _ _ _ Hd Hp) as [e He]. exists e. split; [done|].
  apply Hi. split; [done|]. unfold key_at. by rewrite He.
Qed.

Lemma NoDup_app_cons_drop (l1 l2 : list ptr) p q :
  NoDup (l1 ++ p :: l2) → q ∈ l1 ++ l2 ↔ q ∈ l1 ++ p :: l2 ∧ q ≠ p.
Proof.
  intros Hnd. rewrite !elem_of_app, elem_of_cons.
  apply NoDup_app in Hnd as (_ & Hx & [Hy _]%NoDup_cons).
  split.
  - intros [?|?]; (split; [tauto|]); intros ->; [|done].
    eapply Hx; [done|]. by left.
  - intros [[?|[?|?]] ?]; tauto.
Qed.

Lemma evict_absent this s k :
  cache s !! k = None → evict this s k = Some (this, s).
Proof. unfold evict. by intros ->. Qed.

Lemma evict_live this s l1 p l2 k :
  chained s (l1 ++ p :: l2) → indexed s (l1 ++ p :: l2) →
  cache s !! k = Some p →
  ∃ s', evict this s k = Some (unlinked this l1 l2, s') ∧
        chained s' (l1 ++ l2) ∧ indexed s' (l1 ++ l2) ∧
        cache s' = delete k (cache s) ∧ same_data s s'.
Proof.
  intros Hl Hi Hk. unfold evict. rewrite Hk.
  pose proof Hl as (Hnd & _).
  destruct (remove_chained this (set_cache (delete k (cache s)) s) l1 p l2)
    as (s' & Hr & Hl' & Hc & Hs); [done|].
  exists s'. split; [done|]. split; [done|]. split; [|done].
  intros k' q. rewrite Hc; simpl. rewrite (key_at_same_data _ _ _ Hs).
  change (key_at (set_cache (delete k (cache s)) s) q) with (key_at s q).
  rewrite (NoDup_app_cons_drop _ _ _ _ Hnd).
  destruct (decide (k = k')) as [->|Hne].
  - rewrite lookup_delete_eq. split; [done|]. intros [[Hq Hqp] Hkq].
    destruct Hqp. assert (cache s !! k' = Some q) by (by apply Hi). congruence.
  - rewrite lookup_delete_ne by done. rewrite (Hi k' q). split; [|tauto].
    intros [Hq Hkq]. repeat split; try done. intros ->.
    apply Hne. assert (Hp : cache s !! k' = Some p) by (by apply Hi).
    apply Hi in Hk as [_ Hk]. congruence.
Qed.

Lemma evict_rep this s l1 p l2 k :
  rep this s (l1 ++ p :: l2) → cache s !! k = Some p →
  ∃ s', evict this s k =
          Some (mkLRUCache (capacity this) (first (l1 ++ l2) None)
                  (last (l1 ++ l2)) (expiration this), s') ∧
        rep (mkLRUCache (capacity this) (first (l1 ++ l2) None)
               (last (l1 ++ l2)) (expiration this)) s' (l1 ++ l2) ∧
        cache s' = delete k (cache s) ∧ same_data s s'.
Proof.
  intros [Hl Hi] Hk. pose proof Hl as (Hc & _).
  destruct (evict_live this s l1 p l2 k Hc Hi Hk) as (s' & He & ? & ? & ? & ?).
  rewrite (unlinked_linked _ _ _ _ _ Hl) in He. exists s'.
  split; [done|]. split; [|done]. split; [|done]. by split.
Qed.

Lemma dll_links h h' pv l nx :
  (∀ q e, q ∈ l → h !! q = Some e →
          ∃ e', h' !! q = Some e' ∧ prev e' = prev e ∧ next e' = next e) →
  dll h pv l nx → dll h' pv l nx.
Proof.
  revert pv. induction l as [|p l IH]; intros pv Hq; simpl; [done|].
  intros (e & He & ? & ? & ?).
  destruct (Hq p e) as (e' & ? & ? & ?); [by left|done|].
  exists e'. repeat split; try congruence.
  apply IH; [|done]. intros q eq ?. apply Hq. by right.
Qed.

(** Writing a field that is not a link keeps the structure. *)
Lemma update_rep f p s e this l :
  entries s !! p = Some e →
  key (f e) = key e → prev (f e) = prev e → next (f e) = next e →
  rep this s l → rep this (set_entries (<[p := f e]> (entries s)) s) l.
Proof.
  intros He Hk Hp Hn [((Hnd & Hd) & Hh & Ht) Hi]. split.
  - repeat split; try done. simpl. eapply dll_links; [|done].
    intros q eq _ Hq. destruct (decide (p = q)) as [->|].
    + rewrite lookup_insert_eq. simplify_eq. eauto.
    + rewrite lookup_insert_ne by done. eauto.
  - apply (indexed_transfer s _ l l); [|done|done|done].
    intros q. unfold key_at; simpl. destruct (decide (p = q)) as [->|].
    + rewrite lookup_insert_eq, He. simpl. by rewrite Hk.
    + by rewrite lookup_insert_ne.
Qed.

Lemma walk_dll h pv l fuel :
  dll h pv l None → length l ≤ fuel → walk fuel h (first l None) = l.
Proof.
  revert pv fuel. induction l as [|p l IH]; intros pv fuel; simpl.
  - intros _ _. by destruct fuel.
  - intros (e & He & _ & Hn & Hd) Hf. destruct fuel as [|n]; [lia|].
    simpl. rewrite He, Hn. f_equal. eapply IH; [done|lia].
Qed.

Lemma length_le_size (h : gmap ptr entry) (l : list ptr) :
  NoDup l → (∀ p, p ∈ l → is_Some (h !! p)) → length l ≤ size h.
Proof.
  intros Hnd Hl. rewrite <-(size_list_to_set (C := gset ptr) l) by done.
  rewrite <-size_dom. apply subseteq_size. intros p Hp.
  apply elem_of_dom, Hl. by apply elem_of_list_to_set in Hp.
Qed.

Lemma order_linked this s l : linked this s l → order this s = l.
Proof.
  intros ((Hnd & Hd) & Hh & Ht). unfold order. rewrite Hh.
  eapply walk_dll; [done|]. apply Nat.le_le_succ_r, length_le_size; [done|].
  intros p. by eapply dll_lookup.
Qed.


Lemma rep_size this s l : rep this s l → size (cache s) = length l.
Proof.
  intros [((Hnd & Hd) & _) Hi]. apply (size_bijection _ (key_at s)); try done.
  intros p Hp. destruct (dll_lookup _ _ _ _ _ Hd Hp) as [e He].
  unfold key_at. rewrite He. eauto.
Qed.

Lemma alloc_fresh s : entries s !! alloc s = None.
Proof. apply not_elem_of_dom. unfold alloc. apply is_fresh. Qed.

Lemma rep_lookup this s l p : rep this s l → p ∈ l → is_Some (entries s !! p).
Proof. intros [((_ & Hd) & _) _]. by eapply dll_lookup. Qed.

(** Lines 206-208: a new entry is made, indexed and put in front. *)
Lemma push_front_rep this s l k v now :
  rep this s l → cache s !! k = None →
  let p := alloc s in
  let s2 := set_entries (<[p := Entry k v now None None]> (entries s)) s in
  let s3 := set_cache (<[k := p]> (cache s2)) s2 in
  ∃ s', addToFront this s3 p =
          Some (mkLRUCache (capacity this) (Some p) (last (p :: l))
                  (expiration this), s') ∧
        rep (mkLRUCache (capacity this) (Some p) (last (p :: l))
               (expiration this)) s' (p :: l) ∧
        cache s' = <[k := p]> (cache s) ∧
        data_at s' p = Some (k, v, now) ∧ (p ∉ l) ∧ same_data_except p s s'.
Proof.
  intros Hrep Hk p s2 s3. pose proof (alloc_fresh s) as Hp. fold p in Hp.
  assert (Hpl : p ∉ l).
  { intros Hin. destruct (rep_lookup _ _ _ _ Hrep Hin). congruence. }
  destruct Hrep as [((Hnd & Hd) & Hh & Ht) Hi].
  destruct (addToFront_linked this s3 l p) as (s' & Ha & Hl' & Hc & Hs);
    [| done | by (simpl; rewrite lookup_insert_eq) |].
  { repeat split; try done. simpl. eapply dll_frame; [|done].
    intros q Hq. apply lookup_insert_ne. by intros ->. }
  exists s'. split; [done|]. split; [split; [done|]|].
  - intros k' q. rewrite Hc, (key_at_same_data _ _ _ Hs); simpl.
    rewrite elem_of_cons. unfold key_at; simpl.
    destruct (decide (q = p)) as [->|Hqp].
    + rewrite lookup_insert_eq; simpl. destruct (decide (k = k')) as [->|].
      * rewrite lookup_insert_eq. intuition congruence.
      * rewrite lookup_insert_ne by done. split; [|intuition congruence].
        intros [??]%Hi. done.
    + rewrite (lookup_insert_ne _ p q) by done.
      destruct (decide (k = k')) as [->|].
      * rewrite lookup_insert_eq. split; [intuition congruence|].
        intros [[?|Hq] Hkq]; [done|].
        assert (cache s !! k' = Some q) by (by apply Hi). congruence.
      * rewrite lookup_insert_ne by done. rewrite (Hi k' q).
        unfold key_at. intuition congruence.
  - split; [done|]. split; [|split; [done|]].
    + rewrite (Hs p). unfold data_at; simpl. by rewrite lookup_insert_eq.
    + intros q Hq. rewrite (Hs q). unfold data_at; simpl.
      by rewrite lookup_insert_ne.
Qed.

Lemma Get_absent this s k now1 now2 :
  cache s !! k = None → Get this s k now1 now2 = Some (this, s, miss).
Proof. unfold Get. by intros ->. Qed.

(** [Get] on a key of the index: the age test of line 183 sees the
    timestamp that line 182 has just written. *)
Lemma Get_present this s l k p now1 now2 :
  rep this s l → cache s !! k = Some p →
  ∃ l1 l2 e, l = l1 ++ p :: l2 ∧ entries s !! p = Some e ∧ key e = k ∧
    if (Since now2 now1 >? expiration this)%Z then
      ∃ s', Get this s k now1 now2 =
              Some (mkLRUCache (capacity this) (first (l1 ++ l2) None)
                      (last (l1 ++ l2)) (expiration this), s', miss) ∧
            rep (mkLRUCache (capacity this) (first (l1 ++ l2) None)
                   (last (l1 ++ l2)) (expiration this)) s' (l1 ++ l2) ∧
            cache s' = delete k (cache s) ∧ same_data_except p s s'
    else
      ∃ s', Get this s k now1 now2 =
              Some (mkLRUCache (capacity this) (Some p)
                      (last (p :: l1 ++ l2)) (expiration this), s', value e) ∧
            rep (mkLRUCache (capacity this) (Some p)
                   (last (p :: l1 ++ l2)) (expiration this)) s' (p :: l1 ++ l2) ∧
            cache s' = cache s ∧
            data_at s' p = Some (k, value e, now1) ∧ same_data_except p s s'.
Proof.
  intros Hrep Hk. destruct (rep_cache _ _ _ _ _ Hrep Hk) as (l1 & l2 & e & -> & He & Hke).
  exists l1, l2, e. repeat split; try done.
  unfold Get. rewrite Hk. erewrite update_Some by done. simpl.
  rewrite lookup_insert_eq. simpl.
  pose proof (update_rep (set_timestamp now1) p s e this _ He eq_refl eq_refl
                eq_refl Hrep) as Hrep1.
  set (s1 := set_entries (<[p:=set_timestamp now1 e]> (entries s)) s) in *.
  destruct (Since now2 now1 >? expiration this)%Z.
  - destruct (evict_rep this s1 l1 p l2 k Hrep1 Hk) as (s' & -> & Hrep' & Hc & Hs).
    simpl. exists s'. split; [done|]. split; [done|]. split; [done|].
    eapply same_data_except_trans; [|by apply same_data_same_data_except].
    by apply same_data_except_update.
  - destruct Hrep1 as [Hl1 Hi1].
    destruct (moveToFront_linked this s1 l1 p l2 Hl1) as (s' & -> & Hl' & Hc & Hs).
    simpl. pose proof (Hs p) as Hsp. unfold data_at in Hsp. subst s1.
    simpl in Hsp. rewrite lookup_insert_eq in Hsp.
    destruct (entries s' !! p) as [e'|] eqn:He'; [|done]. simpl in *.
    exists s'. assert (value e' = value e) as -> by (by simplify_eq).
    split; [done|]. split; [split; [done|]|].
    + apply (indexed_transfer _ _ (l1 ++ p :: l2) _ (λ q, key_at_same_data _ _ q Hs) Hc);
        [|done].
      intros q. rewrite elem_of_cons, !elem_of_app, elem_of_cons. tauto.
    + split; [done|]. split.
      * unfold data_at. rewrite He'. simpl.
        rewrite Hsp. unfold data. simpl. by rewrite Hke.
      * eapply same_data_except_trans; [|by apply same_data_same_data_except].
        by apply same_data_except_update.
Qed.

(** So a [Get] that finds the key is a hit whenever the two clock readings
    of the call are no more than [expiration] apart, however old the entry
    was. *)
Lemma Get_hit_whatever_age this s l k p now1 now2 :
  rep this s l → cache s !! k = Some p →
  (Since now2 now1 ≤ expiration this)%Z →
  ∃ e c s', entries s !! p = Some e ∧
            Get this s k now1 now2 = Some (c, s', value e) ∧
            cache s' !! k = Some p ∧
            data_at s' p = Some (k, value e, now1).
Proof.
  intros Hrep Hk Hage.
  destruct (Get_present this s l k p now1 now2 Hrep Hk)
    as (l1 & l2 & e & -> & He & Hke & HG).
  destruct (Z.gtb_spec (Since now2 now1) (expiration this)); [lia|].
  destruct HG as (s' & HG & _ & Hc & Hd & _).
  exists e. eexists _, s'. split; [done|]. split; [done|].
  rewrite Hc. by split.
Qed.

Lemma Set_present this s l k v now p :
  rep this s l → cache s !! k = Some p →
  ∃ l1 l2 s', l = l1 ++ p :: l2 ∧
    Set_ this s k v now =
      Some (mkLRUCache (capacity this) (Some p) (last (p :: l1 ++ l2))
              (expiration this), s') ∧
    rep (mkLRUCache (capacity this) (Some p) (last (p :: l1 ++ l2))
           (expiration this)) s' (p :: l1 ++ l2) ∧
    cache s' = cache s ∧ data_at s' p = Some (k, v, now) ∧
    same_data_except p s s'.
Proof.
  intros Hrep Hk. destruct (rep_cache _ _ _ _ _ Hrep Hk) as (l1 & l2 & e & -> & He & Hke).
  exists l1, l2. unfold Set_. rewrite Hk. erewrite update_Some by done. simpl.
  erewrite update_Some by (simpl; apply lookup_insert_eq). simpl.
  rewrite insert_insert_eq.
  pose proof (update_rep (λ e, set_timestamp now (set_value v e)) p s e this _
                He eq_refl eq_refl eq_refl Hrep) as [Hl1 Hi1].
  match goal with |- context [moveToFront this ?s1 p] =>
    destruct (moveToFront_linked this s1 l1 p l2 Hl1) as (s' & -> & Hl' & Hc & Hs)
  end.
  exists s'. split; [done|]. split; [done|]. split; [split; [done|]|].
  - apply (indexed_transfer _ _ (l1 ++ p :: l2) _ (λ q, key_at_same_data _ _ q Hs) Hc);
      [|done].
    intros q. rewrite elem_of_cons, !elem_of_app, elem_of_cons. tauto.
  - split; [done|]. split.
    + rewrite (Hs p). unfold data_at. simpl.
      rewrite lookup_insert_eq. simpl. unfold data. simpl. by rewrite Hke.
    + intros q Hq. rewrite (Hs q). unfold data_at; simpl.
      by rewrite lookup_insert_ne.
Qed.

Lemma Set_new_room this s l k v now :
  rep this s l → cache s !! k = None →
  (Z.of_nat (size (cache s)) < capacity this)%Z →
  ∃ p s', Set_ this s k v now =
          Some (mkLRUCache (capacity this) (Some p) (last (p :: l))
                  (expiration this), s') ∧
        rep (mkLRUCache (capacity this) (Some p) (last (p :: l))
               (expiration this)) s' (p :: l) ∧
        cache s' = <[k := p]> (cache s) ∧
        data_at s' p = Some (k, v, now) ∧ (p ∉ l) ∧ same_data_except p s s'.
Proof.
  intros Hrep Hk Hsz. unfold Set_. rewrite Hk.
  destruct (Z.geb_spec (Z.of_nat (size (cache s))) (capacity this)); [lia|].
  simpl. exists (alloc s). by apply push_front_rep.
Qed.

(** Lines 203-208 when the cache is full: the entry at the tail goes, the
    new one comes in front. *)
Lemma Set_new_full this s l t et k v now :
  rep this s (l ++ [t]) → cache s !! k = None →
  (capacity this ≤ Z.of_nat (size (cache s)))%Z →
  entries s !! t = Some et →
  ∃ p s', Set_ this s k v now =
          Some (mkLRUCache (capacity this) (Some p) (last (p :: l))
                  (expiration this), s') ∧
        rep (mkLRUCache (capacity this) (Some p) (last (p :: l))
               (expiration this)) s' (p :: l) ∧
        cache s' = <[k := p]> (delete (key et) (cache s)) ∧
        data_at s' p = Some (k, v, now) ∧ (p ∉ l ++ [t]) ∧
        same_data_except p s s'.
Proof.
  intros Hrep Hk Hsz Het. unfold Set_. rewrite Hk.
  destruct (Z.geb_spec (Z.of_nat (size (cache s))) (capacity this)); [|lia].
  pose proof Hrep as [(_ & _ & Ht) _]. rewrite last_snoc in Ht.
  rewrite Ht; simpl. rewrite Het; simpl.
  destruct (rep_key _ _ _ t Hrep) as (et' & Het' & Hkt).
  { apply elem_of_app. right. by left. }
  assert (et' = et) as -> by congruence.
  destruct (evict_rep this s l t [] (key et) Hrep Hkt) as (s1 & -> & Hrep1 & Hc1 & Hs1).
  simpl. rewrite (right_id_L [] (++)) in *.
  assert (Hk1 : cache s1 !! k = None).
  { rewrite Hc1. destruct (decide (key et = k)) as [->|].
    - apply lookup_delete_eq.
    - by rewrite lookup_delete_ne. }
  destruct (push_front_rep _ s1 l k v now Hrep1 Hk1)
    as (s' & Ha & Hrep' & Hc' & Hd' & Hp' & Hs').
  simpl in *. exists (alloc s1), s'. rewrite Ha. split; [done|]. split; [done|].
  split; [by rewrite Hc', Hc1|]. split; [done|]. split.
  - intros [?|Hq%list_elem_of_singleton]%elem_of_app; [done|].
    pose proof (alloc_fresh s1) as Hf. rewrite Hq in Hf.
    destruct (same_data_is_Some s s1 t Hs1); [eauto|congruence].
  - eapply same_data_except_trans; [by apply same_data_same_data_except|done].
Qed.

Lemma Set_new_full_empty this s k v now :
  tail this = None → cache s !! k = None →
  (capacity this ≤ Z.of_nat (size (cache s)))%Z →
  Set_ this s k v now = None.
Proof.
  intros Ht Hk Hsz. unfold Set_. rewrite Hk.
  destruct (Z.geb_spec (Z.of_nat (size (cache s))) (capacity this)); [|lia].
  by rewrite Ht.
Qed.

Lemma wf_Constructor cap ex :
  wf (engine (Constructor cap ex)) (heap (Constructor cap ex)).
Proof.
  exists []. split.
  - split; [|done]. split; [apply NoDup_nil_2|done].
  - intros k p. simpl. rewrite lookup_empty. split; [done|].
    intros [H _]. by apply elem_of_nil in H.
Qed.

Lemma Get_wf this s k now1 now2 c s' r :
  wf this s → Get this s k now1 now2 = Some (c, s', r) →
  wf c s' ∧ capacity c = capacity this ∧ expiration c = expiration this ∧
  size (cache s') ≤ size (cache s).
Proof.
  intros [l Hrep] HG. destruct (cache s !! k) as [p|] eqn:Hk.
  - destruct (Get_present this s l k p now1 now2 Hrep Hk)
      as (l1 & l2 & e & -> & He & Hke & HG').
    destruct (Since now2 now1 >? expiration this)%Z.
    + destruct HG' as (s1 & HG' & Hrep' & Hc & _).
      rewrite HG' in HG. injection HG as <- <- <-.
      split; [by eexists|]. repeat split; try done.
      rewrite Hc, map_size_delete, Hk. simpl. lia.
    + destruct HG' as (s1 & HG' & Hrep' & Hc & _).
      rewrite HG' in HG. injection HG as <- <- <-.
      split; [by eexists|]. repeat split; try done. by rewrite Hc.
  - rewrite (Get_absent _ _ _ _ _ Hk) in HG. injection HG as <- <- <-.
    split; [by eexists|]. done.
Qed.

Lemma Get_total this s k now1 now2 :
  wf this s → is_Some (Get this s k now1 now2).
Proof.
  intros [l Hrep]. destruct (cache s !! k) as [p|] eqn:Hk.
  - destruct (Get_present this s l k p now1 now2 Hrep Hk)
      as (l1 & l2 & e & -> & He & Hke & HG').
    destruct (Since now2 now1 >? expiration this)%Z;
      destruct HG' as (s1 & -> & _); eauto.
  - rewrite (Get_absent _ _ _ _ _ Hk). eauto.
Qed.

(** With room for at least one entry, a full cache has a last entry. *)
Lemma full_tail this s l :
  rep this s l → (1 ≤ capacity this)%Z →
  (capacity this ≤ Z.of_nat (size (cache s)))%Z →
  ∃ l' t et, l = l' ++ [t] ∧ tail this = Some t ∧ entries s !! t = Some et.
Proof.
  intros Hrep Hcap Hsz. rewrite (rep_size _ _ _ Hrep) in Hsz.
  destruct l as [|t l' _] using rev_ind; [simpl in Hsz; lia|].
  destruct (rep_lookup _ _ _ t Hrep) as [et Het].
  { apply elem_of_app. right. by left. }
  exists l', t, et. repeat split; try done.
  destruct Hrep as [(_ & _ & Ht) _]. by rewrite Ht, last_snoc.
Qed.

Lemma Set_wf this s k v now c s' :
  wf this s → Set_ this s k v now = Some (c, s') →
  wf c s' ∧ capacity c = capacity this ∧ expiration c = expiration this ∧
  (Z.of_nat (size (cache s')) ≤
     Z.max (Z.of_nat (size (cache s))) (capacity this))%Z.
Proof.
  intros [l Hrep] HS. destruct (cache s !! k) as [p|] eqn:Hk.
  - destruct (Set_present this s l k v now p Hrep Hk)
      as (l1 & l2 & s1 & -> & HS' & Hrep' & Hc & _).
    rewrite HS' in HS. injection HS as <- <-.
    split; [by eexists|]. repeat split; try done. rewrite Hc. lia.
  - destruct (Z.lt_ge_cases (Z.of_nat (size (cache s))) (capacity this))
      as [Hlt|Hge].
    + destruct (Set_new_room this s l k v now Hrep Hk Hlt)
        as (p & s1 & HS' & Hrep' & Hc & _).
      rewrite HS' in HS. injection HS as <- <-.
      split; [by eexists|]. repeat split; try done.
      rewrite Hc, map_size_insert_None by done. lia.
    + destruct l as [|t l' _] using rev_ind.
      * destruct Hrep as [(_ & _ & Ht) _].
        rewrite (Set_new_full_empty this s k v now Ht Hk Hge) in HS. done.
      * destruct (rep_lookup _ _ _ t Hrep) as [et Het].
        { apply elem_of_app. right. by left. }
        destruct (Set_new_full this s l' t et k v now Hrep Hk Hge Het)
          as (p & s1 & HS' & Hrep' & _).
        rewrite HS' in HS. injection HS as <- <-.
        split; [by eexists|]. repeat split; try done.
        rewrite (rep_size _ _ _ Hrep), (rep_size _ _ _ Hrep').
        rewrite length_app. simpl. lia.
Qed.

Lemma Set_total this s k v now :
  wf this s → (1 ≤ capacity this)%Z → is_Some (Set_ this s k v now).
Proof.
  intros [l Hrep] Hcap. destruct (cache s !! k) as [p|] eqn:Hk.
  - destruct (Set_present this s l k v now p Hrep Hk)
      as (l1 & l2 & s1 & -> & -> & _). eauto.
  - destruct (Z.lt_ge_cases (Z.of_nat (size (cache s))) (capacity this))
      as [Hlt|Hge].
    + destruct (Set_new_room this s l k v now Hrep Hk Hlt)
        as (p & s1 & -> & _). eauto.
    + destruct (full_tail this s l Hrep Hcap Hge) as (l' & t & et & -> & _ & Het).
      destruct (Set_new_full this s l' t et k v now Hrep Hk Hge Het)
        as (p & s1 & -> & _). eauto.
Qed.

(** A sequence of calls of the handlers keeps the invariant and the bound. *)
Lemma run_handlers ops w w' :
  Forall handler_op ops → wf (engine w) (heap w) → run w ops = Some w' →
  wf (engine w') (heap w') ∧
  capacity (engine w') = capacity (engine w) ∧
  expiration (engine w') = expiration (engine w) ∧
  sweeper w' = sweeper w ∧
  (Z.of_nat (size (cache (heap w'))) ≤
     Z.max (Z.of_nat (size (cache (heap w)))) (capacity (engine w)))%Z.
Proof.
  intros Hops. revert w. induction Hops as [|o ops Ho Hops IH]; intros w Hwf; simpl.
  - intros [= <-]. repeat split; try done. lia.
  - destruct o as [k now1 now2|k v now|]; [| |done]; simpl.
    + destruct (Get (engine w) (heap w) k now1 now2) as [[[c s] r]|] eqn:HG;
        [|done]. simpl.
      destruct (Get_wf _ _ _ _ _ _ _ _ Hwf HG) as (Hwf' & Hc & He & Hsz).
      intros Hrun.
      destruct (IH (Process s c (sweeper w)) Hwf' Hrun) as (? & Hc' & He' & ? & Hsz').
      simpl in *. repeat split; try congruence. lia.
    + destruct (Set_ (engine w) (heap w) k v now) as [[c s]|] eqn:HS;
        [|done]. simpl.
      destruct (Set_wf _ _ _ _ _ _ _ Hwf HS) as (Hwf' & Hc & He & Hsz).
      intros Hrun.
      destruct (IH (Process s c (sweeper w)) Hwf' Hrun) as (? & Hc' & He' & ? & Hsz').
      simpl in *. repeat split; try congruence. lia.
Qed.

Lemma update_cache f p s s' : update f p s = Some s' → cache s' = cache s.
Proof.
  unfold update. destruct (entries s !! p); simpl; [|done]. by intros [= <-].
Qed.

(** The bijection gives the index and the recency list the same size. *)
Lemma wf_order_size this s :
  wf this s → size (cache s) = length (order this s).
Proof.
  intros [l Hrep]. rewrite (rep_size _ _ _ Hrep).
  destruct Hrep as [Hl _]. by rewrite (order_linked _ _ _ Hl).
Qed.

Lemma remove_cache this s p c s' :
  remove this s p = Some (c, s') → cache s' = cache s.
Proof.
  unfold remove. intros H.
  destruct (entries s !! p) as [e|]; simpl in H; [|done].
  destruct (prev e) as [q|]; simpl in H.
  - destruct (update (set_next (next e)) q s) as [s1|] eqn:Hu; simpl in H; [|done].
    apply update_cache in Hu.
    destruct (entries s1 !! p) as [e1|]; simpl in H; [|done].
    destruct (next e1) as [q2|]; simpl in H.
    + destruct (update (set_prev (prev e1)) q2 s1) as [s2|] eqn:Hu2;
        simpl in H; [|done].
      apply update_cache in Hu2. injection H as <- <-. congruence.
    + by injection H as <- <-.
  - destruct (entries s !! p) as [e1|]; simpl in H; [|done].
    destruct (next e1) as [q2|]; simpl in H.
    + destruct (update (set_prev (prev e1)) q2 s) as [s2|] eqn:Hu2;
        simpl in H; [|done].
      apply update_cache in Hu2. by injection H as <- <-.
    + by injection H as <- <-.
Qed.

(** ** The recency order of the calls of the handlers *)

Lemma order_keys_rep this s l :
  rep this s l → order_keys this s = omap (key_at s) l.
Proof. intros [Hl _]. unfold order_keys. by rewrite (order_linked _ _ _ Hl). Qed.

Lemma omap_key_at_ext s s' (l : list ptr) :
  (∀ q, q ∈ l → key_at s' q = key_at s q) →
  omap (key_at s') l = omap (key_at s) l.
Proof.
  intros H. apply list_omap_ext. induction l as [|q l IH]; constructor.
  - apply H. by left.
  - apply IH. intros r ?. apply H. by right.
Qed.

Lemma key_at_data_at s p k v t :
  data_at s p = Some (k, v, t) → key_at s p = Some k.
Proof.
  unfold data_at, key_at, data. destruct (entries s !! p); simpl; [|done].
  by intros [= -> _ _].
Qed.

Lemma key_at_same_data_except p s s' q :
  same_data_except p s s' → q ≠ p → key_at s' q = key_at s q.
Proof.
  intros H Hq. specialize (H q Hq). unfold key_at, data_at, data in *.
  destruct (entries s' !! q), (entries s !! q); simpl in *; congruence.
Qed.

Lemma filter_other_keys s (l : list ptr) k :
  (∀ q, q ∈ l → key_at s q ≠ Some k) →
  filter (λ x, x ≠ k) (omap (key_at s) l) = omap (key_at s) l.
Proof.
  induction l as [|q l IH]; intros H; [done|]. csimpl.
  destruct (key_at s q) as [kq|] eqn:Hq.
  - rewrite filter_cons_True.
    + f_equal. apply IH. intros r ?. apply H. by right.
    + intros ->. by apply (H q); [left|].
  - apply IH. intros r ?. apply H. by right.
Qed.

(** Taking an entry out of the list takes its key, and no other key, out of
    the keys of the list. *)
Lemma keys_drop this s l1 p l2 k :
  rep this s (l1 ++ p :: l2) → key_at s p = Some k →
  omap (key_at s) (l1 ++ l2)
  = filter (λ x, x ≠ k) (omap (key_at s) (l1 ++ p :: l2)).
Proof.
  intros [((Hnd & _) & _) Hi] Hk.
  assert (Hother : ∀ q, q ∈ l1 ++ l2 → key_at s q ≠ Some k).
  { intros q [Hq Hqp]%(NoDup_app_cons_drop _ _ _ _ Hnd) Hkq. apply Hqp.
    assert (cache s !! k = Some q) by (by apply Hi).
    assert (cache s !! k = Some p); [|congruence].
    apply Hi. split; [|done]. apply elem_of_app. right. by left. }
  rewrite !omap_app, !filter_app. csimpl. rewrite Hk.
  rewrite filter_cons_False by (by intros []).
  rewrite !filter_other_keys; [done| |].
  - intros q ?. apply Hother, elem_of_app. by right.
  - intros q ?. apply Hother, elem_of_app. by left.
Qed.

(** Moving the entry of [k] to the front, in a list whose keys are the live
    part of [rec]. *)
Lemma recency_touch this s l1 p l2 k c s' rec :
  rep this s (l1 ++ p :: l2) → in_recency_order this s rec →
  cache s !! k = Some p →
  rep c s' (p :: l1 ++ l2) → cache s' = cache s →
  key_at s' p = Some k → same_data_except p s s' →
  in_recency_order c s' (touch k rec).
Proof.
  intros Hrep Hin Hk Hrep' Hc Hkp Hs. unfold in_recency_order in *.
  rewrite (order_keys_rep _ _ _ Hrep'). rewrite (order_keys_rep _ _ _ Hrep) in Hin.
  pose proof Hrep as [((Hnd & _) & _) Hi].
  assert (Hkp0 : key_at s p = Some k) by (by apply Hi in Hk as [_ ?]).
  csimpl. rewrite Hkp. unfold touch.
  rewrite filter_cons_True by (unfold live; rewrite Hc, Hk; eauto).
  f_equal. rewrite (omap_key_at_ext s s').
  - rewrite (keys_drop _ _ _ _ _ _ Hrep Hkp0), Hin.
    rewrite !list_filter_filter. apply list_filter_iff.
    intros x. unfold live. rewrite Hc. tauto.
  - intros q [_ Hq]%(NoDup_app_cons_drop _ _ _ _ Hnd).
    by apply (key_at_same_data_except p).
Qed.

Lemma Get_recency this s k now1 now2 c s' r rec :
  wf this s → in_recency_order this s rec →
  Get this s k now1 now2 = Some (c, s', r) →
  in_recency_order c s' (if decide (live s' k) then touch k rec else rec).
Proof.
  intros [l Hrep] Hin HG. destruct (cache s !! k) as [p|] eqn:Hk.
  - destruct (Get_present this s l k p now1 now2 Hrep Hk)
      as (l1 & l2 & e & -> & He & Hke & HG').
    destruct (Since now2 now1 >? expiration this)%Z.
    + destruct HG' as (s1 & HG' & Hrep' & Hc & Hs).
      rewrite HG' in HG. injection HG as <- <- <-.
      rewrite decide_False by (unfold live; rewrite Hc, lookup_delete_eq; by intros []).
      unfold in_recency_order in *.
      rewrite (order_keys_rep _ _ _ Hrep'). rewrite (order_keys_rep _ _ _ Hrep) in Hin.
      pose proof Hrep as [((Hnd & _) & _) Hi].
      assert (Hkp0 : key_at s p = Some k) by (by apply Hi in Hk as [_ ?]).
      rewrite (omap_key_at_ext s s1).
      * rewrite (keys_drop _ _ _ _ _ _ Hrep Hkp0), Hin.
        rewrite list_filter_filter. apply list_filter_iff.
        intros x. unfold live. rewrite Hc. destruct (decide (k = x)) as [->|].
        -- rewrite lookup_delete_eq. split; [tauto|]. by intros [].
        -- rewrite lookup_delete_ne by done. split; [tauto|]. intros ?. by split; [intros ->|].
      * intros q [_ Hq]%(NoDup_app_cons_drop _ _ _ _ Hnd).
        by apply (key_at_same_data_except p).
    + destruct HG' as (s1 & HG' & Hrep' & Hc & Hd & Hs).
      rewrite HG' in HG. injection HG as <- <- <-.
      rewrite decide_True by (unfold live; rewrite Hc, Hk; eauto).
      eapply recency_touch; try done. by eapply key_at_data_at.
  - rewrite (Get_absent _ _ _ _ _ Hk) in HG. injection HG as <- <- <-.
    rewrite decide_False; [done|]. unfold live. rewrite Hk. by intros [].
Qed.

Lemma recency_push this s l k p c s' rec m :
  rep this s l → cache s !! k = None →
  order_keys this s = filter (λ x, is_Some (m !! x)) rec →
  rep c s' (p :: l) → cache s' = <[k := p]> m → m !! k = None →
  key_at s' p = Some k → same_data_except p s s' → p ∉ l →
  in_recency_order c s' (touch k rec).
Proof.
  intros Hrep Hk Hin Hrep' Hc Hmk Hkp Hs Hp. unfold in_recency_order.
  rewrite (order_keys_rep _ _ _ Hrep'). rewrite (order_keys_rep _ _ _ Hrep) in Hin.
  csimpl. rewrite Hkp. unfold touch.
  rewrite filter_cons_True by (unfold live; rewrite Hc, lookup_insert_eq; eauto).
  f_equal. rewrite (omap_key_at_ext s s').
  - rewrite Hin, list_filter_filter. apply list_filter_iff.
    intros x. unfold live. rewrite Hc. destruct (decide (k = x)) as [->|].
    + rewrite Hmk. split; [by intros []|]. by intros [_ []].
    + rewrite lookup_insert_ne by done. split; [|tauto]. intros ?.
      by split; [|intros ->].
  - intros q Hq. apply (key_at_same_data_except p); [done|]. by intros ->.
Qed.

Lemma Set_recency this s k v now c s' rec :
  wf this s → in_recency_order this s rec →
  Set_ this s k v now = Some (c, s') →
  in_recency_order c s' (touch k rec).
Proof.
  intros [l Hrep] Hin HS. destruct (cache s !! k) as [p|] eqn:Hk.
  - destruct (Set_present this s l k v now p Hrep Hk)
      as (l1 & l2 & s1 & -> & HS' & Hrep' & Hc & Hd & Hs).
    rewrite HS' in HS. injection HS as <- <-.
    eapply recency_touch; try done. by eapply key_at_data_at.
  - destruct (Z.lt_ge_cases (Z.of_nat (size (cache s))) (capacity this))
      as [Hlt|Hge].
    + destruct (Set_new_room this s l k v now Hrep Hk Hlt)
        as (p & s1 & HS' & Hrep' & Hc & Hd & Hp & Hs).
      rewrite HS' in HS. injection HS as <- <-.
      eapply (recency_push this s l k p _ _ rec (cache s)); try done.
      by eapply key_at_data_at.
    + destruct l as [|t l' _] using rev_ind.
      * destruct Hrep as [(_ & _ & Ht) _].
        rewrite (Set_new_full_empty this s k v now Ht Hk Hge) in HS. done.
      * destruct (rep_key _ _ _ t Hrep) as (et & Het & Hkt).
        { apply elem_of_app. right. by left. }
        destruct (Set_new_full this s l' t et k v now Hrep Hk Hge Het)
          as (p & s1 & HS' & Hrep' & Hc & Hd & Hp & Hs).
        rewrite HS' in HS. injection HS as <- <-.
        destruct (evict_rep this s l' t [] (key et) Hrep Hkt)
          as (s0 & _ & Hrep0 & Hc0 & Hs0).
        rewrite (right_id_L [] (++)) in Hrep0.
        unfold in_recency_order in *.
        rewrite (order_keys_rep _ _ _ Hrep'). rewrite (order_keys_rep _ _ _ Hrep) in Hin.
        csimpl. rewrite (key_at_data_at _ _ _ _ _ Hd). unfold touch.
        rewrite filter_cons_True by (unfold live; rewrite Hc, lookup_insert_eq; eauto).
        f_equal. rewrite (omap_key_at_ext s s1).
        -- assert (Hkt0 : key_at s t = Some (key et)).
           { unfold key_at. by rewrite Het. }
           pose proof (keys_drop _ _ _ _ _ _ Hrep Hkt0) as Hdrop.
           rewrite (right_id_L [] (++)) in Hdrop. rewrite Hdrop, Hin.
           rewrite !list_filter_filter. apply list_filter_iff.
           intros x. unfold live. rewrite Hc.
           destruct (decide (k = x)) as [->|].
           ++ rewrite Hk. split; [by intros [_ []]|]. by intros [_ []].
           ++ rewrite lookup_insert_ne by done.
              destruct (decide (key et = x)) as [->|].
              ** rewrite lookup_delete_eq. split; [by intros [[] _]|].
                 by intros [[] _].
              ** rewrite lookup_delete_ne by done. split.
                 --- intros [_ ?]. by split; [|intros ->].
                 --- intros [? _]. by split; [intros ->|].
        -- intros q Hq. apply (key_at_same_data_except p); [done|].
           intros ->. apply Hp. apply elem_of_app. by left.
Qed.

Lemma in_recency_order_Constructor cap ex :
  in_recency_order (engine (Constructor cap ex)) (heap (Constructor cap ex)) [].
Proof. done. Qed.

(** For calls of the handlers alone, the recency list is what the
    specification asks for: the live keys in the order of their most recent
    touch. *)
Lemma handlers_keep_recency_order ops w w' rec :
  Forall handler_op ops → wf (engine w) (heap w) →
  in_recency_order (engine w) (heap w) rec →
  run w ops = Some w' →
  in_recency_order (engine w') (heap w') (touched w ops rec).
Proof.
  intros Hops. revert w rec.
  induction Hops as [|o ops Ho Hops IH]; intros w rec Hwf Hin; simpl.
  - by intros [= <-].
  - destruct o as [k now1 now2|k v now|]; [| |done]; simpl.
    + destruct (Get (engine w) (heap w) k now1 now2) as [[[c s] r]|] eqn:HG;
        [|done]. simpl. intros Hrun.
      destruct (Get_wf _ _ _ _ _ _ _ _ Hwf HG) as (Hwf' & _).
      apply (IH (Process s c (sweeper w))); try done.
      exact (Get_recency _ _ _ _ _ _ _ _ rec Hwf Hin HG).
    + destruct (Set_ (engine w) (heap w) k v now) as [[c s]|] eqn:HS;
        [|done]. simpl. intros Hrun.
      destruct (Set_wf _ _ _ _ _ _ _ Hwf HS) as (Hwf' & _).
      apply (IH (Process s c (sweeper w))); try done.
      exact (Set_recency _ _ _ _ _ _ _ rec Hwf Hin HS).
Qed.

Lemma recency_of_handler_calls cap ex ops w :
  Forall handler_op ops → run (Constructor cap ex) ops = Some w →
  order_keys (engine w) (heap w)
  = filter (live (heap w)) (touched (Constructor cap ex) ops []).
Proof.
  intros Hops Hrun.
  apply (handlers_keep_recency_order ops (Constructor cap ex) w [] Hops);
    [apply wf_Constructor|done|done].
Qed.

(** ** The sweep, on whatever struct it runs

    The sweep works on the entries through the map, so it needs the chain
    and the index only, not the [head] and [tail] of the struct it is given:
    those it updates, the ones of other structs it cannot. *)
Lemma sweep_pass_live this s l visits :
  chained s l → indexed s l →
  ∃ this' s' l',
    sweep_pass this s visits = Some (this', s') ∧
    chained s' l' ∧ indexed s' l' ∧ same_data s s' ∧
    expiration this' = expiration this ∧
    (∀ k p, cache s' !! k = Some p → cache s !! k = Some p) ∧
    (∀ k now p e, (k, now) ∈ visits → cache s' !! k = Some p →
       entries s' !! p = Some e →
       (Since now (timestamp e) ≤ expiration this)%Z) ∧
    (∀ k p, cache s !! k = Some p →
       (∀ now e, (k, now) ∈ visits → entries s !! p = Some e →
          (Since now (timestamp e) ≤ expiration this)%Z) →
       cache s' !! k = Some p).
Proof.
  revert this s l. induction visits as [|[k now] vs IH]; intros this s l Hc Hi.
  - exists this, s, l. simpl. split_and!; try done.
    intros k now p e H. by apply elem_of_nil in H.
  - simpl. unfold sweep_visit.
    assert (Hts : ∀ s1 p e e1, same_data s s1 → entries s !! p = Some e →
                    entries s1 !! p = Some e1 → timestamp e1 = timestamp e).
    { intros s1 p e e1 Hs He He1. specialize (Hs p). unfold data_at in Hs.
      rewrite He, He1 in Hs. simpl in Hs. by injection Hs. }
    destruct (cache s !! k) as [p|] eqn:Hk; simpl.
    + pose proof Hk as [Hp _]%Hi. pose proof Hc as [_ Hd].
      destruct (dll_lookup _ _ _ _ _ Hd Hp) as [e He]. rewrite He; simpl.
      destruct (Z.gtb_spec (Since now (timestamp e)) (expiration this)) as [Hex|Hex].
      * apply list_elem_of_split in Hp as (l1 & l2 & ->).
        destruct (evict_live this s l1 p l2 k Hc Hi Hk)
          as (s1 & -> & Hc1 & Hi1 & Hcache & Hs1). simpl.
        destruct (IH (unlinked this l1 l2) s1 _ Hc1 Hi1)
          as (this' & s' & l' & -> & Hc' & Hi' & Hs' & Hexp & Hsub & Hsurv & Hkeep).
        simpl in *. exists this', s', l'. split; [done|]. split; [done|].
        split; [done|]. split; [by eapply same_data_trans|]. split; [done|].
        assert (Hsub1 : ∀ k' q, cache s1 !! k' = Some q → cache s !! k' = Some q).
        { intros k' q. rewrite Hcache. destruct (decide (k = k')) as [->|].
          - by rewrite lookup_delete_eq.
          - by rewrite lookup_delete_ne. }
        split; [by auto|]. split.
        -- intros k' now' q e' [[= -> ->]|Hin]%elem_of_cons Hq He'.
           ++ apply Hsub in Hq. by rewrite Hcache, lookup_delete_eq in Hq.
           ++ by eapply Hsurv.
        -- intros k' q Hq Hok. apply Hkeep.
           ++ rewrite Hcache. destruct (decide (k = k')) as [->|].
              ** assert (q = p) as -> by congruence.
                 specialize (Hok now e (list_elem_of_here _ _) He). lia.
              ** by rewrite lookup_delete_ne.
           ++ intros now' e1 Hin He1.
              destruct (same_data_is_Some s1 s q) as [e0 He0].
              { intros r. by rewrite (Hs1 r). }
              { eauto. }
              rewrite (Hts s1 q e0 e1 Hs1 He0 He1).
              apply (Hok now'); [by right|done].
      * simpl. destruct (IH this s l Hc Hi)
          as (this' & s' & l' & -> & Hc' & Hi' & Hs' & Hexp & Hsub & Hsurv & Hkeep).
        exists this', s', l'. split_and!; try done.
        -- intros k' now' q e' [[= -> ->]|Hin]%elem_of_cons Hq He'.
           ++ pose proof (Hsub _ _ Hq) as Hq0.
              assert (q = p) as -> by congruence.
              rewrite (Hts s' p e e' Hs' He He'). lia.
           ++ by eapply Hsurv.
        -- intros k' q Hq Hok. apply Hkeep; [done|].
           intros now' e1 Hin He1. apply (Hok now'); [by right|done].
    + destruct (IH this s l Hc Hi)
        as (this' & s' & l' & -> & Hc' & Hi' & Hs' & Hexp & Hsub & Hsurv & Hkeep).
      exists this', s', l'. split_and!; try done.
      * intros k' now' q e' [[= -> ->]|Hin]%elem_of_cons Hq He'.
        -- apply Hsub in Hq. congruence.
        -- by eapply Hsurv.
      * intros k' q Hq Hok. apply Hkeep; [done|].
        intros now' e1 Hin He1. apply (Hok now'); [by right|done].
Qed.
(** [pass_at] is an iteration of [range] over the map. *)
Lemma pass_at_ranges_over s now : ranges_over (pass_at s now) s.
Proof.
  unfold ranges_over, pass_at. rewrite <-list_fmap_compose.
  assert (H : (fst ∘ (λ kp : Z * ptr, (kp.1, now))) <$> map_to_list (cache s)
              = (map_to_list (cache s)).*1).
  { apply list_fmap_ext. by intros i [k p]. }
  rewrite H. split; [apply NoDup_fst_map_to_list|].
  apply set_eq. intros k. rewrite elem_of_list_to_set, elem_of_dom.
  rewrite list_elem_of_fmap. split.
  - intros ([k' p] & -> & Hin%elem_of_map_to_list). eauto.
  - intros [p Hp]. exists (k, p). split; [done|]. by apply elem_of_map_to_list.
Qed.
End LinkedCacheFacts.

(** * The claims of the specification

    In the examples the clock starts at 0 and is read in nanoseconds; the
    two readings of one [Get] are 50 ns apart. *)

Import LinkedCache.

Lemma two_entries_wf : wf (engine two_entries) (heap two_entries).
Proof.
  refine (proj1 (LinkedCacheFacts.run_handlers
                   [OpSet 1 10 0; OpSet 2 20 second]
                   (Constructor 2 (5 * second)) two_entries _
                   (LinkedCacheFacts.wf_Constructor 2 (5 * second)) _)).
  - repeat constructor.
  - evaluate.
Defined.

(** C1, on the linked edition: [Get] does not judge staleness against the
    timestamp as it was before the call.  [Constructor(2, 5 s)] runs at
    time 0 and key 1 is set at 0.5 s.  The passes of the ticks at 1 s, ...,
    5 s find the entry no older than 4.5 s and leave it.  At 5.9 s, before
    the tick of 6 s, the entry has age 5.4 s > 5 s, and yet [Get] returns
    its value 10 and keeps the entry in the index and in the recency list:
    line 182 overwrites the timestamp before line 183 tests the age.
    ([ListCacheFacts.Get_stale]: the list edition does evict and miss.) *)
Theorem Get_serves_stale_entry :
  ∃ w w1 p e w',
    run (Constructor 2 (5 * second)) [OpSet 1 10 (500 * millisecond)]
      = Some w ∧
    ticks_between (500 * millisecond) (5900 * millisecond)
      = [1 * second; 2 * second; 3 * second; 4 * second; 5 * second]%Z ∧
    passes w (ticks_between (500 * millisecond) (5900 * millisecond))
      = Some w1 ∧
    cache (heap w1) !! 1%Z = Some p ∧
    entries (heap w1) !! p = Some e ∧
    timestamp e = (500 * millisecond)%Z ∧
    (Since (5900 * millisecond) (timestamp e) > expiration (engine w1))%Z ∧
    exec w1 (OpGet 1 (5900 * millisecond) (5900 * millisecond + 50))
      = Some (w', Some 10%Z) ∧
    cache (heap w') !! 1%Z = Some p ∧
    order (engine w') (heap w') = [p].
Proof.
  eexists _, _, _, _, _. evaluate_all.
Qed.

(** C2 as stated fails for capacity 0 on the list edition: the first [Set]
    finds [Back()] nil, evicts nothing and admits the entry, so the index
    holds one entry. *)
Lemma ListCache_capacity_zero_admits_entry :
  ∃ c,
    ListCache.run (ListCache.Constructor 0 (5 * second))
      [ListCache.OpSet 1 10 0] = Some c ∧
    ¬ (Z.of_nat (size (ListCache.cache c)) ≤ ListCache.capacity c)%Z.
Proof.
  eexists. split; evaluate.
Qed.

(** C2, amended: for a capacity of at least 1, after every sequence of
    [Get] and [Set] calls that completes on the constructed cache, the index
    holds at most [capacity] entries: on the list edition, which has no
    sweep, and on the linked edition as long as no pass of the sweep runs
    between the calls ([Forall handler_op]). *)
Theorem capacity_bound cap ex opsA opsB c w :
  (1 ≤ cap)%Z →
  ListCache.run (ListCache.Constructor cap ex) opsA = Some c →
  Forall handler_op opsB →
  run (Constructor cap ex) opsB = Some w →
  (Z.of_nat (size (ListCache.cache c)) ≤ cap)%Z ∧
  (Z.of_nat (size (cache (heap w))) ≤ cap)%Z.
Proof.
  intros Hcap HA Hops HB. split.
  - destruct (ListCacheFacts.run_consistent opsA _ c
                (ListCacheFacts.consistent_Constructor cap ex) HA)
      as (_ & _ & H).
    simpl in H. rewrite map_size_empty in H. lia.
  - destruct (LinkedCacheFacts.run_handlers opsB _ w Hops
                (LinkedCacheFacts.wf_Constructor cap ex) HB)
      as (_ & _ & _ & _ & H).
    simpl in H. rewrite map_size_empty in H. lia.
Qed.

Lemma capacity_bound_witness :
  (1 ≤ 2)%Z ∧
  ∃ c w,
    ListCache.run (ListCache.Constructor 2 (5 * second))
      [ListCache.OpSet 1 10 0; ListCache.OpSet 2 20 1; ListCache.OpSet 3 30 2]
      = Some c ∧
    run (Constructor 2 (5 * second))
      [OpSet 1 10 0; OpSet 2 20 1; OpSet 3 30 2] = Some w ∧
    (Z.of_nat (size (ListCache.cache c)) ≤ 2)%Z ∧
    (Z.of_nat (size (cache (heap w))) ≤ 2)%Z.
Proof.
  split; [lia|]. eexists _, _.
  split; [evaluate|]. split; [evaluate|].
  apply (capacity_bound 2 (5 * second)
           [ListCache.OpSet 1 10 0; ListCache.OpSet 2 20 1;
            ListCache.OpSet 3 30 2]
           [OpSet 1 10 0; OpSet 2 20 1; OpSet 3 30 2]);
    [lia|evaluate| |evaluate].
  repeat constructor.
Defined.

(** What C2 says of the sweep does not hold either.  Key 1 is set at
    0.5 s and the pass of the tick at 6 s takes it; the [tail] of the engine
    still names its entry, the capacity eviction of [Set] then evicts a key
    that is gone, and the index outgrows the capacity. *)
Lemma sweep_then_Set_exceeds_capacity :
  ∃ w w1 w2,
    run (Constructor 1 (5 * second)) [OpSet 1 10 (500 * millisecond)]
      = Some w ∧
    passes w (ticks_between (500 * millisecond) (6500 * millisecond))
      = Some w1 ∧
    run w1 [OpSet 2 20 (6500 * millisecond); OpSet 3 30 (6600 * millisecond)]
      = Some w2 ∧
    size (cache (heap w2)) = 2 ∧ capacity (engine w2) = 1%Z.
Proof. eexists _, _, _. evaluate_all. Qed.

(** C3: a sweep pass does not preserve the bijection between the index and
    the recency list of the engine.  After [Set(1, 10)] at time 0, the pass
    at time 10 s deletes key 1 from the map and unlinks its entry from the
    [head] and [tail] of the struct the routine runs on; the [head] of the
    struct that [Get] and [Set] use still names the entry.  The index is
    empty, the recency list has one entry. *)
Theorem sweep_breaks_bijection :
  ∃ w w' p,
    run (Constructor 2 (5 * second)) [OpSet 1 10 0] = Some w ∧
    ranges_over [(1, 10 * second)%Z] (heap w) ∧
    exec w (OpSweep [(1, 10 * second)%Z]) = Some (w', None) ∧
    cache (heap w') = ∅ ∧
    order (engine w') (heap w') = [p] ∧
    size (cache (heap w')) ≠ length (order (engine w') (heap w')) ∧
    head (sweeper w') = None ∧ head (engine w') = Some p.
Proof.
  eexists _, _, _. split; [evaluate|]. split.
  { split; [by apply NoDup_singleton|]. evaluate. }
  evaluate_all.
Qed.

(** In a well-formed engine whose recency list ends with the entry [t],
    [Set] of a key that is not in the index, when the index has reached the
    capacity, removes the key of [t] and only that key from the index,
    drops [t] from the recency list and puts the new entry in front.  Nothing
    is assumed of the timestamp of [t] or of [now]: the eviction does not
    look at the age. *)
Theorem Set_full_evicts_tail this s l t et k v now :
  wf this s → order this s = l ++ [t] → entries s !! t = Some et →
  cache s !! k = None →
  (capacity this ≤ Z.of_nat (size (cache s)))%Z →
  ∃ p this' s',
    Set_ this s k v now = Some (this', s') ∧
    cache s' = <[k := p]> (delete (key et) (cache s)) ∧
    cache s !! key et = Some t ∧
    order this' s' = p :: l ∧
    data_at s' p = Some (k, v, now) ∧
    same_data_except p s s' ∧
    wf this' s'.
Proof.
  intros [l0 Hrep] Ho Het Hk Hsz.
  pose proof Hrep as [Hl _].
  rewrite (LinkedCacheFacts.order_linked _ _ _ Hl) in Ho. subst l0.
  destruct (LinkedCacheFacts.Set_new_full this s l t et k v now Hrep Hk Hsz Het)
    as (p & s' & HS & Hrep' & Hc & Hd & _ & Hs).
  eexists p, _, s'. split; [done|]. split; [done|]. split.
  { destruct (LinkedCacheFacts.rep_key _ _ _ t Hrep) as (et' & Het' & Hkt).
    - apply elem_of_app. right. by left.
    - congruence. }
  split.
  { destruct Hrep' as [Hl' _]. apply (LinkedCacheFacts.order_linked _ _ _ Hl'). }
  split; [done|]. split; [done|]. by exists (p :: l).
Qed.

Lemma Set_full_evicts_tail_witness :
  ∃ p this' s',
    Set_ (engine two_entries) (heap two_entries) 3 30 (2 * second)
      = Some (this', s') ∧
    cache s' = <[3%Z := p]> (delete 1%Z (cache (heap two_entries))) ∧
    cache (heap two_entries) !! 1%Z = Some 1%positive ∧
    order this' s' = [p; 2%positive] ∧
    data_at s' p = Some (3, 30, 2 * second)%Z ∧
    same_data_except p (heap two_entries) s' ∧
    wf this' s'.
Proof.
  apply (Set_full_evicts_tail (engine two_entries) (heap two_entries)
           [2%positive] 1%positive (Entry 1 10 0 (Some 2%positive) None)
           3 30 (2 * second)).
  - apply two_entries_wf.
  - evaluate.
  - evaluate.
  - evaluate.
  - evaluate.
Defined.

(** C4, on the linked edition: at capacity, [Set] of a new key does not
    always evict the least recently used key.  [Constructor(1, 5 s)] runs
    at time 0 and key 1 is set at 0.5 s; the pass of the tick at 6 s takes
    key 1 out of the map, on the struct of the routine.  [Set(2, 20)] at
    6.5 s finds the map empty and admits key 2: the index holds one key,
    its capacity, and the [tail] of the engine still names the entry of
    key 1.  [Set(3, 30)] at 6.6 s evicts the key of that entry, which is
    not in the index, and admits key 3: key 2, the least recently used key
    of the index, stays, and the index holds two keys.  Same defect as C3.
    (In a well-formed engine [Set] does evict the tail:
    [Set_full_evicts_tail].) *)
Theorem Set_at_capacity_evicts_no_key :
  ∃ w w1 w2 w3 p1 e1 p2 p3,
    run (Constructor 1 (5 * second)) [OpSet 1 10 (500 * millisecond)]
      = Some w ∧
    passes w (ticks_between (500 * millisecond) (6500 * millisecond))
      = Some w1 ∧
    exec w1 (OpSet 2 20 (6500 * millisecond)) = Some (w2, None) ∧
    cache (heap w2) !! 2%Z = Some p2 ∧
    size (cache (heap w2)) = 1 ∧
    capacity (engine w2) = 1%Z ∧
    tail (engine w2) = Some p1 ∧
    entries (heap w2) !! p1 = Some e1 ∧
    key e1 = 1%Z ∧
    cache (heap w2) !! 1%Z = None ∧
    cache (heap w2) !! 3%Z = None ∧
    exec w2 (OpSet 3 30 (6600 * millisecond)) = Some (w3, None) ∧
    cache (heap w3) !! 2%Z = Some p2 ∧
    cache (heap w3) !! 3%Z = Some p3 ∧
    size (cache (heap w3)) = 2.
Proof. eexists _, _, _, _, _, _, _, _. evaluate_all. Qed.


(** C6: after a sweep pass the walk from the [head] of the engine no longer
    yields the live keys.  Key 1 is swept at time 10 s and key 2 is set at
    time 11 s: the index holds key 2 only, the walk yields 2 and then 1.
    ([LinkedCacheFacts.recency_of_handler_calls]: without sweep passes the
    walk does yield the live keys in the order of their last touch.) *)
Theorem sweep_leaves_dead_key_in_order :
  ∃ w p,
    run (Constructor 2 (5 * second))
      [OpSet 1 10 0; OpSweep [(1, 10 * second)%Z]; OpSet 2 20 (11 * second)]
      = Some w ∧
    order_keys (engine w) (heap w) = [2; 1]%Z ∧
    cache (heap w) !! 1%Z = None ∧
    cache (heap w) !! 2%Z = Some p.
Proof. eexists _, _. evaluate_all. Qed.

(** C7: after a sweep pass an entry whose age exceeds [expiration] is still
    in the structure of the engine.  Keys 1 and 2 are set at times 0 and
    1 s; the pass at time 10 s deletes both from the map, but the [head] of
    the engine still names the entry of key 2, of age 9 s. *)
Theorem sweep_pass_leaves_expired_entry :
  ∃ w' p e,
    ranges_over [(1, 10 * second); (2, 10 * second)]%Z (heap two_entries) ∧
    exec two_entries (OpSweep [(1, 10 * second); (2, 10 * second)]%Z)
      = Some (w', None) ∧
    cache (heap w') = ∅ ∧
    head (engine w') = Some p ∧
    order (engine w') (heap w') = [p] ∧
    entries (heap w') !! p = Some e ∧
    key e = 2%Z ∧
    (Since (10 * second) (timestamp e) > expiration (engine w'))%Z.
Proof.
  eexists _, _, _. split.
  { split; [|evaluate]. apply NoDup_cons. split; [|apply NoDup_singleton].
    by intros ?%list_elem_of_singleton. }
  evaluate_all.
Qed.

(** C8: [evict] of a key that is not in the index returns the struct and
    the store as they are, and a second [evict] of the same key changes
    nothing that the first one left; both on the linked and on the list
    edition. *)
Theorem evict_idempotent this s k (c : ListCache.LRUCache) :
  (cache s !! k = None → evict this s k = Some (this, s)) ∧
  (∀ this' s', evict this s k = Some (this', s') →
               evict this' s' k = Some (this', s')) ∧
  (ListCache.cache c !! k = None → ListCache.evict c k = c) ∧
  ListCache.evict (ListCache.evict c k) k = ListCache.evict c k.
Proof.
  split; [apply LinkedCacheFacts.evict_absent|]. split.
  - intros this' s' He. apply LinkedCacheFacts.evict_absent.
    unfold evict in He. destruct (cache s !! k) as [p|] eqn:Hk.
    + apply LinkedCacheFacts.remove_cache in He. rewrite He. simpl.
      apply lookup_delete_eq.
    + by injection He as <- <-.
  - split; [apply ListCacheFacts.evict_missing|].
    apply ListCacheFacts.evict_missing. unfold ListCache.evict.
    destruct (ListCache.cache c !! k) eqn:Hk; [|done]. simpl.
    apply lookup_delete_eq.
Qed.

Lemma evict_idempotent_witness :
  evict (engine two_entries) (heap two_entries) 9
    = Some (engine two_entries, heap two_entries) ∧
  ∃ this' s',
    evict (engine two_entries) (heap two_entries) 1 = Some (this', s') ∧
    evict this' s' 1 = Some (this', s').
Proof.
  split.
  - apply (proj1 (evict_idempotent (engine two_entries) (heap two_entries) 9
                    (ListCache.Constructor 2 5))).
    evaluate.
  - eexists _, _. split; [evaluate|].
    apply (proj1 (proj2 (evict_idempotent (engine two_entries)
                           (heap two_entries) 1 (ListCache.Constructor 2 5)))).
    evaluate.
Defined.

(** C9: the value -1 of a miss is also the value of a hit.  After
    [Set(1, -1)] at time 0, [Get(1)] one second later finds the key, the
    entry is not expired and stays in the index, and the call returns -1, as
    [Get(7)] does for a key that was never set; on both editions. *)
Theorem Get_sentinel_ambiguous :
  (∃ w p e w',
     run (Constructor 2 (5 * second)) [OpSet 1 (-1) 0] = Some w ∧
     cache (heap w) !! 1%Z = Some p ∧
     entries (heap w) !! p = Some e ∧
     (Since second (timestamp e) ≤ expiration (engine w))%Z ∧
     exec w (OpGet 1 second (second + 50)) = Some (w', Some miss) ∧
     cache (heap w') !! 1%Z = Some p ∧
     exec w (OpGet 7 second (second + 50)) = Some (w, Some miss)) ∧
  (∃ c el e c',
     ListCache.run (ListCache.Constructor 2 (5 * second))
       [ListCache.OpSet 1 (-1) 0] = Some c ∧
     ListCache.cache c !! 1%Z = Some el ∧
     ListCache.elements c !! el = Some e ∧
     (Since second (ListCache.timestamp e) ≤ ListCache.expiration c)%Z ∧
     ListCache.Get c 1 second = Some (c', miss) ∧
     ListCache.cache c' !! 1%Z = Some el ∧
     ListCache.Get c 7 second = Some (c, miss)).
Proof.
  split.
  - eexists _, _, _, _. evaluate_all.
  - eexists _, _, _, _. evaluate_all.
Qed.

(** In a well-formed engine of capacity at least 1, a full cache has a
    tail, so the dereference of line 204 does not fault and [Set] returns;
    with capacity 0 the constructed cache is full and empty, its [tail] is
    nil and [Set] panics. *)
Theorem Set_total_with_room this s k v now ex :
  wf this s → (1 ≤ capacity this)%Z →
  ((capacity this ≤ Z.of_nat (size (cache s)))%Z → is_Some (tail this)) ∧
  is_Some (Set_ this s k v now) ∧
  tail (engine (Constructor 0 ex)) = None ∧
  Set_ (engine (Constructor 0 ex)) (heap (Constructor 0 ex)) k v now = None.
Proof.
  intros Hwf Hcap. split; [|split; [|split]].
  - intros Hsz. destruct Hwf as [l Hrep].
    destruct (LinkedCacheFacts.full_tail this s l Hrep Hcap Hsz)
      as (? & t & ? & _ & -> & _). eauto.
  - by apply LinkedCacheFacts.Set_total.
  - done.
  - evaluate.
Qed.

Lemma Set_total_with_room_witness :
  (1 ≤ capacity (engine two_entries))%Z ∧
  ((capacity (engine two_entries)
      ≤ Z.of_nat (size (cache (heap two_entries))))%Z →
     is_Some (tail (engine two_entries))) ∧
  is_Some (Set_ (engine two_entries) (heap two_entries) 3 30 (2 * second)) ∧
  tail (engine (Constructor 0 (5 * second))) = None ∧
  Set_ (engine (Constructor 0 (5 * second)))
    (heap (Constructor 0 (5 * second))) 3 30 (2 * second) = None.
Proof.
  split; [evaluate|].
  apply (Set_total_with_room (engine two_entries) (heap two_entries)
           3 30 (2 * second) (5 * second)).
  - apply two_entries_wf.
  - evaluate.
Defined.

(** C10, on the linked edition: a capacity of at least 1 does not keep
    [Set] from dereferencing a nil [tail].  [Constructor(3, 1 µs)] runs at
    time 0; keys 1, 2 and 3 are set 300, 200 and 100 ns before the tick of
    1 s.  The pass of that tick reaches key 2 at 1 s + 700 ns, of age
    900 ns, and leaves it; it reaches keys 3 and 1 at 1 s + 1000 ns and
    1 s + 1100 ns, older than 1 µs, and takes them out, on the struct of
    the routine: the entry of key 2 is now linked to nothing, the [head]
    and the [tail] of the engine name the entries that are gone.  Keys 4, 5
    and 6 are set; the third [Set] evicts nothing (as in C4), the map holds
    four keys.  A [Get] of key 2 whose clock readings are 1100 ns apart
    evicts the entry of key 2, which sets [head] and [tail] to nil (lines
    241 and 246) with three keys in the map.  The cache is full, of
    capacity 3, and [Set] of the new key 7 dereferences the nil [tail] on
    line 204.  Same defect as C3.  (In a well-formed engine of capacity at
    least 1 [Set] returns: [Set_total_with_room].) *)
Theorem Set_with_room_dereferences_nil :
  ∃ w w1 w2,
    run (Constructor 3 microsecond)
      [OpSet 1 10 (second - 300); OpSet 2 20 (second - 200);
       OpSet 3 30 (second - 100)] = Some w ∧
    ranges_over
      [(2, second + 700); (3, second + 1000); (1, second + 1100)]%Z
      (heap w) ∧
    exec w (OpSweep
              [(2, second + 700); (3, second + 1000); (1, second + 1100)]%Z)
      = Some (w1, None) ∧
    run w1
      [OpSet 4 40 (second + 2000); OpSet 5 50 (second + 3000);
       OpSet 6 60 (second + 4000);
       OpGet 2 (second + 5000) (second + 6100)] = Some w2 ∧
    (1 ≤ capacity (engine w2))%Z ∧
    (capacity (engine w2) ≤ Z.of_nat (size (cache (heap w2))))%Z ∧
    cache (heap w2) !! 7%Z = None ∧
    tail (engine w2) = None ∧
    exec w2 (OpSet 7 70 (second + 7000)) = None.
Proof.
  eexists _, _, _. split; [evaluate|]. split.
  { split; [|evaluate]. simpl. apply NoDup_cons.
    split; [|apply NoDup_cons; split].
    - rewrite !elem_of_cons, elem_of_nil. intros [?|[?|[]]]; discriminate.
    - by intros ?%list_elem_of_singleton.
    - apply NoDup_singleton. }
  evaluate_all.
Qed.

(** * Further properties of the linked edition

    What follows holds of the code beyond the claims of the
    specification. *)

(** ** Whatever ran before: what the map holds *)

Lemma update_inv f p s s' :
  update f p s = Some s' →
  ∃ e, entries s !! p = Some e ∧
       s' = set_entries (<[p := f e]> (entries s)) s.
Proof.
  unfold update. intros (e & He & [= <-])%bind_Some. eauto.
Qed.

Lemma update_links_same_data f p s s' :
  update f p s = Some s' → (∀ e, data (f e) = data e) →
  same_data s s' ∧ cache s' = cache s.
Proof.
  intros (e & He & ->)%update_inv Hf. split; [|done].
  by apply LinkedCacheFacts.same_data_update.
Qed.

Lemma remove_same_data this s p c s' :
  remove this s p = Some (c, s') →
  same_data s s' ∧ cache s' = cache s ∧
  capacity c = capacity this ∧ expiration c = expiration this.
Proof.
  unfold remove. intros (e & He & H)%bind_Some.
  apply bind_Some in H as ([this1 s1] & H1 & H).
  apply bind_Some in H as (e1 & He1 & H).
  assert (same_data s s1 ∧ cache s1 = cache s ∧
          capacity this1 = capacity this ∧ expiration this1 = expiration this)
    as (Hs1 & Hc1 & Hcap1 & Hex1).
  { destruct (prev e) as [q|].
    - apply bind_Some in H1 as (s2 & Hu & [= <- <-]).
      by destruct (update_links_same_data _ _ _ _ Hu (λ _, eq_refl)).
    - by injection H1 as <- <-. }
  destruct (next e1) as [q|].
  - apply bind_Some in H as (s2 & Hu & [= <- <-]).
    destruct (update_links_same_data _ _ _ _ Hu (λ _, eq_refl)) as [Hs2 Hc2].
    split; [by eapply LinkedCacheFacts.same_data_trans|]. split; [congruence|done].
  - injection H as <- <-. done.
Qed.

Lemma addToFront_same_data this s p c s' :
  addToFront this s p = Some (c, s') →
  same_data s s' ∧ cache s' = cache s ∧
  capacity c = capacity this ∧ expiration c = expiration this ∧
  is_Some (tail c).
Proof.
  unfold addToFront. intros (s1 & Hu1 & H)%bind_Some.
  apply bind_Some in H as (s2 & Hu2 & H).
  apply bind_Some in H as (s3 & Hu3 & [= <- <-]).
  destruct (update_links_same_data _ _ _ _ Hu1 (λ _, eq_refl)) as [Hs1 Hc1].
  destruct (update_links_same_data _ _ _ _ Hu2 (λ _, eq_refl)) as [Hs2 Hc2].
  assert (same_data s2 s3 ∧ cache s3 = cache s2) as [Hs3 Hc3].
  { destruct (head this) as [q|].
    - by apply (update_links_same_data _ _ _ _ Hu3 (λ _, eq_refl)).
    - by injection Hu3 as <-. }
  split.
  { eapply LinkedCacheFacts.same_data_trans; [|done].
    by eapply LinkedCacheFacts.same_data_trans. }
  split; [congruence|]. simpl.
  destruct (tail this) eqn:Ht; simpl; rewrite ?Ht; split_and!; eauto.
Qed.

Lemma moveToFront_same_data this s p c s' :
  moveToFront this s p = Some (c, s') →
  same_data s s' ∧ cache s' = cache s ∧
  capacity c = capacity this ∧ expiration c = expiration this ∧
  is_Some (tail c).
Proof.
  unfold moveToFront. intros ([this1 s1] & Hr & Ha)%bind_Some.
  destruct (remove_same_data _ _ _ _ _ Hr) as (Hs1 & Hc1 & Hcap1 & Hex1).
  destruct (addToFront_same_data _ _ _ _ _ Ha) as (Hs2 & Hc2 & Hcap2 & Hex2 & Ht).
  split; [by eapply LinkedCacheFacts.same_data_trans|].
  split; [congruence|]. split; [congruence|]. split; [congruence|done].
Qed.

Lemma evict_same_data this s k c s' :
  evict this s k = Some (c, s') →
  same_data s s' ∧ cache s' = delete k (cache s) ∧
  capacity c = capacity this ∧ expiration c = expiration this.
Proof.
  unfold evict. destruct (cache s !! k) as [p|] eqn:Hk.
  - intros Hr. destruct (remove_same_data _ _ _ _ _ Hr) as (Hs & Hc & ? & ?).
    split; [done|]. by split.
  - intros [= <- <-]. split; [done|]. split; [|done].
    by rewrite delete_id.
Qed.

(** ** The map tells the truth, sweeps or not *)

Lemma coherent_same_data s s' m :
  coherent s m → same_data s s' →
  (∀ k p, cache s' !! k = Some p → cache s !! k = Some p) →
  coherent s' m.
Proof.
  intros Hco Hs Hc k p Hp%Hc. destruct (Hco k p Hp) as (e & He & Hk & Hv).
  specialize (Hs p). unfold data_at in Hs. rewrite He in Hs.
  destruct (entries s' !! p) as [e'|]; [|done]. simpl in Hs.
  injection Hs as Hk' Hv' _. exists e'. split; [done|]. by rewrite Hk', Hv'.
Qed.

Lemma coherent_pointer_inj s m k k' p :
  coherent s m → cache s !! k = Some p → cache s !! k' = Some p → k = k'.
Proof.
  intros Hco (e & He & <- & _)%Hco (e' & He' & <- & _)%Hco. congruence.
Qed.

Lemma coherent_update f p s s' m :
  coherent s m → update f p s = Some s' →
  (∀ e, key (f e) = key e ∧ value (f e) = value e) → coherent s' m.
Proof.
  intros Hco (e & He & ->)%update_inv Hf k q Hq. simpl in *.
  destruct (Hco k q Hq) as (e0 & He0 & Hk & Hv).
  destruct (decide (p = q)) as [->|].
  - exists (f e). rewrite lookup_insert_eq. destruct (Hf e) as [-> ->].
    by simplify_eq.
  - exists e0. by rewrite lookup_insert_ne.
Qed.

Lemma delete_sub (m : gmap Z ptr) k k' p :
  delete k m !! k' = Some p → m !! k' = Some p.
Proof. by intros [_ ?]%lookup_delete_Some. Qed.

Lemma Get_coherent this s k now1 now2 c s' r m :
  coherent s m → Get this s k now1 now2 = Some (c, s', r) →
  coherent s' m ∧
  ((r = miss ∧ stored s' k = None) ∨
   (m k = Some r ∧ stored s' k = Some (k, r, now1))).
Proof.
  intros Hco. unfold Get. destruct (cache s !! k) as [p|] eqn:Hk.
  - intros (s1 & Hu & H)%bind_Some.
    assert (Hco1 : coherent s1 m) by (by eapply coherent_update).
    pose proof Hu as (e0 & He0 & Hs1)%update_inv.
    apply bind_Some in H as (e & He & H).
    assert (e = set_timestamp now1 e0) as ->.
    { rewrite Hs1 in He. simpl in He. rewrite lookup_insert_eq in He. congruence. }
    assert (Hc1 : cache s1 = cache s) by (by rewrite Hs1).
    destruct (Since now2 (timestamp (set_timestamp now1 e0)) >? expiration this)%Z.
    + apply bind_Some in H as ([c1 s2] & Hev & [= <- <- <-]).
      destruct (evict_same_data _ _ _ _ _ Hev) as (Hs & Hc & _).
      split.
      * eapply coherent_same_data; [done|done|].
        intros k' q. rewrite Hc. apply delete_sub.
      * left. split; [done|]. unfold stored. by rewrite Hc, lookup_delete_eq.
    + apply bind_Some in H as ([c1 s2] & Hmv & H).
      apply bind_Some in H as (e' & He' & [= <- <- <-]).
      destruct (moveToFront_same_data _ _ _ _ _ Hmv) as (Hs & Hc & _).
      assert (Hco2 : coherent s2 m).
      { eapply coherent_same_data; [done|done|]. intros k' q. by rewrite Hc. }
      split; [done|]. right.
      destruct (Hco2 k p) as (e2 & He2 & Hk2 & Hv2); [by rewrite Hc, Hc1|].
      assert (e2 = e') as -> by congruence. split; [done|].
      unfold stored. rewrite Hc, Hc1, Hk. simpl. unfold data_at. rewrite He'.
      simpl. unfold data. rewrite Hk2. repeat f_equal.
      specialize (Hs p). unfold data_at in Hs. rewrite He', He in Hs.
      simpl in Hs. by injection Hs.
  - intros [= <- <- <-]. split; [done|]. left. split; [done|].
    unfold stored. by rewrite Hk.
Qed.

Lemma evict_coherent this s k c s' m :
  coherent s m → evict this s k = Some (c, s') → coherent s' m.
Proof.
  intros Hco Hev. destruct (evict_same_data _ _ _ _ _ Hev) as (Hs & Hc & _).
  eapply coherent_same_data; [done|done|].
  intros k' q. rewrite Hc. apply delete_sub.
Qed.

Lemma Set_coherent this s k v now c s' m :
  coherent s m → Set_ this s k v now = Some (c, s') →
  coherent s' (λ x, if decide (k = x) then Some v else m x) ∧
  stored s' k = Some (k, v, now).
Proof.
  intros Hco. unfold Set_. destruct (cache s !! k) as [p|] eqn:Hk.
  - intros (s1 & Hu1 & H)%bind_Some. apply bind_Some in H as (s2 & Hu2 & Hmv).
    pose proof Hu1 as (e0 & He0 & Hs1)%update_inv.
    pose proof Hu2 as (e1 & He1 & Hs2)%update_inv.
    assert (e1 = set_value v e0) as ->.
    { rewrite Hs1 in He1. simpl in He1. rewrite lookup_insert_eq in He1. congruence. }
    destruct (moveToFront_same_data _ _ _ _ _ Hmv) as (Hs & Hc & _).
    assert (Hc2 : cache s2 = cache s) by (by rewrite Hs2, Hs1).
    destruct (Hco k p Hk) as (e & He & Hke & _).
    assert (e = e0) as -> by congruence.
    assert (Hd2 : data_at s2 p = Some (k, v, now)).
    { unfold data_at. rewrite Hs2. simpl. rewrite lookup_insert_eq. simpl.
      unfold data. simpl. by rewrite Hke. }
    split.
    + intros k' q Hq. rewrite Hc, Hc2 in Hq.
      destruct (Hco k' q Hq) as (e' & He' & Hk' & Hv').
      destruct (decide (q = p)) as [->|Hqp].
      * assert (k' = k) as -> by (by eapply coherent_pointer_inj).
        rewrite decide_True by done.
        pose proof (Hs p) as Hsp. rewrite Hd2 in Hsp. unfold data_at in Hsp.
        destruct (entries s' !! p) as [e2|]; [|done]. simpl in Hsp.
        injection Hsp as ? ? ?. exists e2. split; [done|]. split; congruence.
      * assert (k ≠ k') by (intros <-; congruence).
        rewrite decide_False by done.
        pose proof (Hs q) as Hsq. unfold data_at in Hsq.
        rewrite Hs2 in Hsq. simpl in Hsq.
        rewrite lookup_insert_ne in Hsq by done. rewrite Hs1 in Hsq.
        simpl in Hsq. rewrite lookup_insert_ne, He' in Hsq by done.
        destruct (entries s' !! q) as [e2|]; [|done]. simpl in Hsq.
        injection Hsq as ? ? ?. exists e2. split; [done|]. split; congruence.
    + unfold stored. rewrite Hc, Hc2, Hk. simpl. by rewrite (Hs p).
  - intros ([this1 s1] & H1 & Ha)%bind_Some.
    assert (coherent s1 m ∧ cache s1 !! k = None) as [Hco1 Hk1].
    { destruct (Z.of_nat (size (cache s)) >=? capacity this)%Z.
      - apply bind_Some in H1 as (t & _ & H1).
        apply bind_Some in H1 as (et & _ & Hev).
        split; [by eapply evict_coherent|].
        destruct (evict_same_data _ _ _ _ _ Hev) as (_ & -> & _).
        destruct (decide (key et = k)) as [->|].
        + apply lookup_delete_eq.
        + by rewrite lookup_delete_ne.
      - by injection H1 as <- <-. }
    simpl in Ha. destruct (addToFront_same_data _ _ _ _ _ Ha) as (Hs & Hc & _).
    simpl in Hc. pose proof (LinkedCacheFacts.alloc_fresh s1) as Hfr.
    assert (Hd : data_at s' (alloc s1) = Some (k, v, now)).
    { rewrite (Hs (alloc s1)). unfold data_at. simpl. by rewrite lookup_insert_eq. }
    split.
    + intros k' q Hq. rewrite Hc in Hq.
      destruct (decide (k = k')) as [<-|Hne].
      * rewrite lookup_insert_eq in Hq. injection Hq as <-.
        unfold data_at in Hd. destruct (entries s' !! alloc s1) as [e2|]; [|done].
        simpl in Hd. injection Hd as ? ? ?. exists e2.
        rewrite ?decide_True by done. split; [done|]. split; congruence.
      * rewrite lookup_insert_ne in Hq by done.
        destruct (Hco1 k' q Hq) as (e' & He' & Hk' & Hv').
        assert (q ≠ alloc s1) by (intros ->; congruence).
        pose proof (Hs q) as Hsq. unfold data_at in Hsq. simpl in Hsq.
        rewrite lookup_insert_ne, He' in Hsq by done.
        destruct (entries s' !! q) as [e2|]; [|done]. simpl in Hsq.
        injection Hsq as ? ? ?. exists e2. split; [done|]. split; congruence.
    + unfold stored. rewrite Hc, lookup_insert_eq. simpl. done.
Qed.

Lemma sweep_pass_coherent this s visits c s' m :
  coherent s m → sweep_pass this s visits = Some (c, s') → coherent s' m.
Proof.
  revert this s. induction visits as [|[k now] vs IH]; intros this s Hco; simpl.
  - by intros [= <- <-].
  - intros ([this1 s1] & Hv & Hrest)%bind_Some. apply (IH this1 s1); [|done].
    unfold sweep_visit in Hv. destruct (cache s !! k) as [p|]; [|by injection Hv as <- <-].
    apply bind_Some in Hv as (e & He & Hv).
    destruct (Since now (timestamp e) >? expiration this)%Z.
    + by eapply evict_coherent.
    + by injection Hv as <- <-.
Qed.

(** What the calls have set so far: [m], then the calls of [ops]. *)
Lemma run_coherent ops w w' m :
  coherent (heap w) m → run w ops = Some w' →
  coherent (heap w')
    (λ k, match last_Set ops k with Some v => Some v | None => m k end).
Proof.
  revert w m. induction ops as [|o ops IH]; intros w m Hco; simpl.
  - by intros [= <-].
  - intros ([w1 r] & Hex & Hrun)%bind_Some.
    assert (Hco1 : coherent (heap w1)
              (λ k, match o with
                    | OpSet k' v _ => if decide (k' = k) then Some v else m k
                    | _ => m k
                    end)).
    { destruct o as [k n1 n2|k v now|visits]; simpl in Hex.
      - apply bind_Some in Hex as ([[c s] r'] & HG & [= <- <-]).
        by destruct (Get_coherent _ _ _ _ _ _ _ _ _ Hco HG).
      - apply bind_Some in Hex as ([c s] & HS & [= <- <-]).
        by destruct (Set_coherent _ _ _ _ _ _ _ _ Hco HS).
      - apply bind_Some in Hex as ([c s] & HS & [= <- <-]).
        by eapply sweep_pass_coherent. }
    pose proof (IH w1 _ Hco1 Hrun) as Hfin.
    intros k p Hp. destruct (Hfin k p Hp) as (e & He & Hk & Hv).
    exists e. split; [done|]. split; [done|]. rewrite <-Hv.
    destruct (last_Set ops k); [done|]. destruct o; try done.
    by case_decide.
Qed.

Lemma coherent_Constructor cap ex :
  coherent (heap (Constructor cap ex)) (λ _, None).
Proof. intros k p Hp. simpl in Hp. by rewrite lookup_empty in Hp. Qed.

(** X1: whatever operations ran on a constructed cache, sweeps included,
    what the map holds under a key is an entry of that key, and its value
    is the value of the latest [Set] of that key. *)
Theorem stored_value_is_latest_Set cap ex ops w k k0 v t :
  run (Constructor cap ex) ops = Some w →
  stored (heap w) k = Some (k0, v, t) →
  k0 = k ∧ last_Set ops k = Some v.
Proof.
  intros Hrun Hst.
  pose proof (run_coherent ops _ w _ (coherent_Constructor cap ex) Hrun) as Hco.
  unfold stored in Hst. destruct (cache (heap w) !! k) as [p|] eqn:Hp; [|done].
  simpl in Hst. destruct (Hco k p Hp) as (e & He & Hk & Hv).
  unfold data_at in Hst. rewrite He in Hst. simpl in Hst.
  injection Hst as <- <- <-. split; [done|].
  by destruct (last_Set ops k).
Qed.

Lemma stored_value_is_latest_Set_witness :
  ∃ w,
    run (Constructor 2 (5 * second))
      [OpSet 1 10 0; OpSet 1 11 second; OpSweep [(1, 2 * second)]%Z;
       OpGet 1 (3 * second) (3 * second)] = Some w ∧
    stored (heap w) 1 = Some (1, 11, 3 * second)%Z ∧
    (1 = 1)%Z ∧
    last_Set
      [OpSet 1 10 0; OpSet 1 11 second; OpSweep [(1, 2 * second)]%Z;
       OpGet 1 (3 * second) (3 * second)] 1 = Some 11%Z.
Proof.
  eexists. split; [evaluate|]. split; [evaluate|].
  eapply (stored_value_is_latest_Set 2 (5 * second)
            [OpSet 1 10 0; OpSet 1 11 second; OpSweep [(1, 2 * second)]%Z;
             OpGet 1 (3 * second) (3 * second)] _ 1 1 11 (3 * second)).
  - evaluate.
  - evaluate.
Defined.

(** X2: whatever operations ran on a constructed cache, sweeps included,
    a [Get] that returns gives -1 and leaves nothing under the key, or
    gives the value of the latest [Set] of the key and leaves it stored
    with the first clock reading as timestamp. *)
Theorem Get_returns_latest_Set_or_miss cap ex ops w k now1 now2 w' r :
  run (Constructor cap ex) ops = Some w →
  exec w (OpGet k now1 now2) = Some (w', Some r) →
  (r = miss ∧ stored (heap w') k = None) ∨
  (last_Set ops k = Some r ∧ stored (heap w') k = Some (k, r, now1)).
Proof.
  intros Hrun Hex.
  pose proof (run_coherent ops _ w _ (coherent_Constructor cap ex) Hrun) as Hco.
  simpl in Hex. apply bind_Some in Hex as ([[c s] r'] & HG & [= <- <-]).
  destruct (Get_coherent _ _ _ _ _ _ _ _ _ Hco HG) as [_ [?|[Hm ?]]];
    [by left|right].
  split; [|done]. simpl. by destruct (last_Set ops k).
Qed.

Lemma Get_returns_latest_Set_or_miss_witness :
  ∃ w w' r,
    run (Constructor 2 (5 * second))
      [OpSet 1 10 0; OpSet 1 11 second; OpSweep [(1, 2 * second)]%Z]
      = Some w ∧
    exec w (OpGet 1 (3 * second) (3 * second)) = Some (w', Some r) ∧
    ((r = miss ∧ stored (heap w') 1 = None) ∨
     (last_Set
        [OpSet 1 10 0; OpSet 1 11 second; OpSweep [(1, 2 * second)]%Z] 1
        = Some r ∧
      stored (heap w') 1 = Some (1%Z, r, (3 * second)%Z))).
Proof.
  eexists _, _, _. split; [evaluate|]. split; [evaluate|].
  eapply (Get_returns_latest_Set_or_miss 2 (5 * second)
            [OpSet 1 10 0; OpSet 1 11 second; OpSweep [(1, 2 * second)]%Z]
            _ 1 (3 * second) (3 * second)).
  - evaluate.
  - evaluate.
Defined.

(** ** No panic, sweeps or not *)

Lemma update_total f p s :
  is_Some (entries s !! p) → is_Some (update f p s).
Proof. intros [e He]. unfold update. rewrite He. by eexists. Qed.

Lemma update_grows f p s s' : update f p s = Some s' → grows s s'.
Proof.
  intros (e & He & ->)%update_inv q Hq. simpl.
  destruct (decide (p = q)) as [->|].
  - rewrite lookup_insert_eq. eauto.
  - by rewrite lookup_insert_ne.
Qed.

Lemma grows_refl s : grows s s.
Proof. by intros q. Qed.

Lemma grows_trans s1 s2 s3 : grows s1 s2 → grows s2 s3 → grows s1 s3.
Proof. intros H1 H2 q ?. by apply H2, H1. Qed.

Lemma ptr_ok_grows s s' o : grows s s' → ptr_ok s o → ptr_ok s' o.
Proof. intros Hg Ho q Hq. by apply Hg, Ho. Qed.

Lemma struct_ok_grows s s' this :
  grows s s' → struct_ok s this → struct_ok s' this.
Proof. intros Hg [??]. split; by eapply ptr_ok_grows. Qed.

Lemma ptr_ok_None s : ptr_ok s None.
Proof. by intros q. Qed.

Lemma ptr_ok_Some s p : is_Some (entries s !! p) → ptr_ok s (Some p).
Proof. by intros ? q [= <-]. Qed.

Lemma update_closed f p s s' :
  update f p s = Some s' → closed s →
  (∀ e, entries s !! p = Some e →
        ptr_ok s (prev (f e)) ∧ ptr_ok s (next (f e))) →
  closed s'.
Proof.
  intros Hu [Hc He] Hf. pose proof (update_grows _ _ _ _ Hu) as Hg.
  apply update_inv in Hu as (e & Hpe & ->). split; simpl.
  - intros k q Hq. apply Hg. by eapply Hc.
  - intros q e0. destruct (decide (p = q)) as [->|].
    + rewrite lookup_insert_eq. intros [= <-].
      destruct (Hf e Hpe). split; by eapply ptr_ok_grows.
    + rewrite lookup_insert_ne by done. intros H0.
      destruct (He q e0 H0). split; by eapply ptr_ok_grows.
Qed.

Lemma closed_links s p e :
  closed s → entries s !! p = Some e →
  ptr_ok s (prev e) ∧ ptr_ok s (next e).
Proof. intros [_ H]. apply H. Qed.

Lemma remove_closed this s p :
  closed s → struct_ok s this → is_Some (entries s !! p) →
  ∃ c s', remove this s p = Some (c, s') ∧
          closed s' ∧ struct_ok s' c ∧ grows s s' ∧ cache s' = cache s ∧
          capacity c = capacity this ∧ expiration c = expiration this.
Proof.
  intros Hcl [Hh Ht] [e He]. unfold remove. rewrite He; simpl.
  destruct (closed_links _ _ _ Hcl He) as [Hpv Hnx].
  assert (∃ this1 s1,
            match prev e with
            | Some q => update (set_next (next e)) q s ≫= λ s', Some (this, s')
            | None => Some (set_head (next e) this, s)
            end = Some (this1, s1) ∧
            closed s1 ∧ struct_ok s1 this1 ∧ grows s s1 ∧ cache s1 = cache s ∧
            entries s1 !! p = Some e ∧
            capacity this1 = capacity this ∧ expiration this1 = expiration this)
    as (this1 & s1 & -> & Hcl1 & [Hh1 Ht1] & Hg1 & Hc1 & He1 & Hcap1 & Hex1).
  { destruct (prev e) as [q|] eqn:Hq.
    - destruct (update_total (set_next (next e)) q s) as [s1 Hu]; [by apply Hpv|].
      rewrite Hu. simpl. exists this, s1. split; [done|].
      pose proof (update_grows _ _ _ _ Hu) as Hg.
      split.
      { eapply update_closed; [done|done|]. intros eq Heq. simpl.
        split; [|done]. by apply (closed_links _ _ _ Hcl Heq). }
      split; [split; by eapply ptr_ok_grows|]. split; [done|].
      split; [by apply update_links_same_data in Hu as [_ ?]|].
      split; [|done].
      apply update_inv in Hu as (eq & Heq & ->). simpl.
      destruct (decide (q = p)) as [->|].
      + rewrite lookup_insert_eq. assert (eq = e) as -> by congruence.
        by destruct e; simpl in *; subst.
      + by rewrite lookup_insert_ne.
    - exists (set_head (next e) this), s. split; [done|]. split; [done|].
      split; [by split|]. split; [apply grows_refl|]. done. }
  simpl. rewrite He1; simpl.
  destruct (closed_links _ _ _ Hcl1 He1) as [Hpv1 Hnx1].
  destruct (next e) as [q|] eqn:Hq.
  - destruct (update_total (set_prev (prev e)) q s1) as [s2 Hu]; [by apply Hnx1|].
    rewrite Hu. simpl. exists this1, s2. split; [done|].
    pose proof (update_grows _ _ _ _ Hu) as Hg.
    split.
    { eapply update_closed; [done|done|]. intros eq Heq. simpl.
      split; [done|]. by apply (closed_links _ _ _ Hcl1 Heq). }
    split; [split; by eapply ptr_ok_grows|].
    split; [by eapply grows_trans|].
    split; [|done]. apply update_links_same_data in Hu as [_ ?]; [|done].
    congruence.
  - exists (set_tail (prev e) this1), s1. split; [done|]. split; [done|].
    split; [by split|]. by split.
Qed.

Lemma addToFront_closed this s p :
  closed s → struct_ok s this → is_Some (entries s !! p) →
  ∃ c s', addToFront this s p = Some (c, s') ∧
          closed s' ∧ struct_ok s' c ∧ grows s s' ∧ cache s' = cache s ∧
          capacity c = capacity this ∧ expiration c = expiration this ∧
          is_Some (tail c).
Proof.
  intros Hcl [Hh Ht] Hp. unfold addToFront.
  destruct (update_total (set_prev None) p s Hp) as [s1 Hu1]. rewrite Hu1; simpl.
  pose proof (update_grows _ _ _ _ Hu1) as Hg1.
  assert (Hcl1 : closed s1).
  { eapply update_closed; [done|done|]. intros e He. simpl.
    split; [apply ptr_ok_None|]. by apply (closed_links _ _ _ Hcl He). }
  destruct (update_total (set_next (head this)) p s1) as [s2 Hu2]; [by apply Hg1|].
  rewrite Hu2; simpl. pose proof (update_grows _ _ _ _ Hu2) as Hg2.
  assert (Hcl2 : closed s2).
  { eapply update_closed; [done|done|]. intros e He. simpl.
    split; [by apply (closed_links _ _ _ Hcl1 He)|]. by eapply ptr_ok_grows. }
  assert (Hp2 : is_Some (entries s2 !! p)) by (by apply Hg2, Hg1).
  assert (∃ s3, match head this with
                | Some q => update (set_prev (Some p)) q s2
                | None => Some s2
                end = Some s3 ∧ closed s3 ∧ grows s2 s3 ∧ cache s3 = cache s2)
    as (s3 & -> & Hcl3 & Hg3 & Hc3).
  { destruct (head this) as [q|] eqn:Hq.
    - destruct (update_total (set_prev (Some p)) q s2) as [s3 Hu3].
      { apply Hg2, Hg1. by apply Hh. }
      exists s3. split; [done|]. split.
      { eapply update_closed; [done|done|]. intros e He. simpl.
        split; [by apply ptr_ok_Some|]. by apply (closed_links _ _ _ Hcl2 He). }
      split; [by eapply update_grows|].
      by apply update_links_same_data in Hu3 as [_ ?].
    - exists s2. split; [done|]. split; [done|]. split; [apply grows_refl|done]. }
  simpl. eexists _, s3. split; [done|]. split; [done|].
  assert (Hg : grows s s3) by (eapply grows_trans; [|done]; by eapply grows_trans).
  apply update_links_same_data in Hu1 as [_ Hc1]; [|done].
  apply update_links_same_data in Hu2 as [_ Hc2]; [|done].
  assert (Hp3 : ptr_ok s3 (Some p)) by (by apply ptr_ok_Some, Hg).
  assert (Ht3 : ptr_ok s3 (tail this)) by (by eapply ptr_ok_grows).
  destruct (tail this) as [t|] eqn:Htl; simpl.
  - split; [split; [exact Hp3|simpl; by rewrite Htl]|].
    split_and!; [done|congruence|done|done|]. rewrite Htl. eauto.
  - split; [split; exact Hp3|].
    split_and!; [done|congruence|done|done|]. eauto.
Qed.

Lemma moveToFront_closed this s p :
  closed s → struct_ok s this → is_Some (entries s !! p) →
  ∃ c s', moveToFront this s p = Some (c, s') ∧
          closed s' ∧ struct_ok s' c ∧ grows s s' ∧ cache s' = cache s ∧
          capacity c = capacity this ∧ expiration c = expiration this ∧
          is_Some (tail c).
Proof.
  intros Hcl Hok Hp. unfold moveToFront.
  destruct (remove_closed this s p Hcl Hok Hp)
    as (c1 & s1 & -> & Hcl1 & Hok1 & Hg1 & Hc1 & Hcap1 & Hex1). simpl.
  destruct (addToFront_closed c1 s1 p Hcl1 Hok1 (Hg1 _ Hp))
    as (c2 & s2 & -> & Hcl2 & Hok2 & Hg2 & Hc2 & Hcap2 & Hex2 & Ht).
  exists c2, s2. split; [done|]. split; [done|]. split; [done|].
  split; [by eapply grows_trans|]. split; [congruence|].
  split; [congruence|]. split; [congruence|done].
Qed.

Lemma evict_closed this s k :
  closed s → struct_ok s this →
  ∃ c s', evict this s k = Some (c, s') ∧
          closed s' ∧ struct_ok s' c ∧ grows s s' ∧
          cache s' = delete k (cache s) ∧
          capacity c = capacity this ∧ expiration c = expiration this.
Proof.
  intros Hcl Hok. unfold evict. destruct (cache s !! k) as [p|] eqn:Hk.
  - assert (Hcl0 : closed (set_cache (delete k (cache s)) s)).
    { destruct Hcl as [Hc He]. split; [|done].
      intros k' q Hq. simpl in Hq. apply lookup_delete_Some in Hq as [_ Hq].
      by eapply Hc. }
    destruct (remove_closed this (set_cache (delete k (cache s)) s) p Hcl0 Hok)
      as (c & s' & -> & ? & ? & ? & ? & ? & ?).
    { destruct Hcl as [Hc _]. by eapply Hc. }
    by exists c, s'.
  - exists this, s. split; [done|]. split; [done|]. split; [done|].
    split; [apply grows_refl|]. split; [|done]. by rewrite delete_id.
Qed.

Lemma Get_closed this s k now1 now2 :
  closed s → struct_ok s this →
  ∃ c s' r, Get this s k now1 now2 = Some (c, s', r) ∧
    closed s' ∧ struct_ok s' c ∧ grows s s' ∧
    capacity c = capacity this ∧ expiration c = expiration this ∧
    ((Since now2 now1 ≤ expiration this)%Z →
     (tail this = None → cache s = ∅) → tail c = None → cache s' = ∅).
Proof.
  intros Hcl Hok. unfold Get. destruct (cache s !! k) as [p|] eqn:Hk.
  - assert (Hp : is_Some (entries s !! p)) by (destruct Hcl as [Hc _]; by eapply Hc).
    destruct (update_total (set_timestamp now1) p s Hp) as [s1 Hu].
    rewrite Hu; simpl. pose proof (update_grows _ _ _ _ Hu) as Hg1.
    assert (Hcl1 : closed s1).
    { eapply update_closed; [done|done|]. intros e He. simpl.
      by apply (closed_links _ _ _ Hcl He). }
    assert (Hok1 : struct_ok s1 this) by (by eapply struct_ok_grows).
    pose proof Hu as (e0 & He0 & Hs1)%update_inv.
    assert (He1 : entries s1 !! p = Some (set_timestamp now1 e0)).
    { rewrite Hs1. simpl. by rewrite lookup_insert_eq. }
    rewrite He1; simpl.
    destruct (Z.gtb_spec (Since now2 now1) (expiration this)) as [Hex|Hex].
    + destruct (evict_closed this s1 k Hcl1 Hok1)
        as (c & s' & -> & Hcl' & Hok' & Hg' & Hc' & Hcap & Hexp). simpl.
      exists c, s', miss. split; [done|]. split; [done|]. split; [done|].
      split; [by eapply grows_trans|]. split; [done|]. split; [done|]. lia.
    + destruct (moveToFront_closed this s1 p Hcl1 Hok1 (Hg1 _ Hp))
        as (c & s' & -> & Hcl' & Hok' & Hg' & Hc' & Hcap & Hexp & [t Ht]). simpl.
      destruct (Hg' p (Hg1 _ Hp)) as [e' He']. rewrite He'. simpl.
      exists c, s', (value e'). split; [done|]. split; [done|]. split; [done|].
      split; [by eapply grows_trans|]. split; [done|]. split; [done|].
      intros _ _. by rewrite Ht.
  - exists this, s, miss. split; [done|]. split; [done|]. split; [done|].
    split; [apply grows_refl|]. split; [done|]. split; [done|]. auto.
Qed.

Lemma Set_closed this s k v now :
  closed s → struct_ok s this → (tail this = None → cache s = ∅) →
  (1 ≤ capacity this)%Z →
  ∃ c s', Set_ this s k v now = Some (c, s') ∧
    closed s' ∧ struct_ok s' c ∧ grows s s' ∧
    capacity c = capacity this ∧ expiration c = expiration this ∧
    is_Some (tail c).
Proof.
  intros Hcl Hok Htl Hcap. unfold Set_. destruct (cache s !! k) as [p|] eqn:Hk.
  - assert (Hp : is_Some (entries s !! p)) by (destruct Hcl as [Hc _]; by eapply Hc).
    destruct (update_total (set_value v) p s Hp) as [s1 Hu1].
    rewrite Hu1; simpl. pose proof (update_grows _ _ _ _ Hu1) as Hg1.
    assert (Hcl1 : closed s1).
    { eapply update_closed; [done|done|]. intros e He. simpl.
      by apply (closed_links _ _ _ Hcl He). }
    destruct (update_total (set_timestamp now) p s1 (Hg1 _ Hp)) as [s2 Hu2].
    rewrite Hu2; simpl. pose proof (update_grows _ _ _ _ Hu2) as Hg2.
    assert (Hcl2 : closed s2).
    { eapply update_closed; [done|done|]. intros e He. simpl.
      by apply (closed_links _ _ _ Hcl1 He). }
    assert (Hok2 : struct_ok s2 this).
    { eapply struct_ok_grows; [|done]. by eapply grows_trans. }
    destruct (moveToFront_closed this s2 p Hcl2 Hok2 (Hg2 _ (Hg1 _ Hp)))
      as (c & s' & -> & Hcl' & Hok' & Hg' & Hc' & Hcap' & Hexp & Ht).
    exists c, s'. split; [done|]. split; [done|]. split; [done|].
    split; [|done]. eapply grows_trans; [|done]. by eapply grows_trans.
  - assert (∃ this1 s1,
              (if (Z.of_nat (size (cache s)) >=? capacity this)%Z
               then t ← tail this; et ← entries s !! t; evict this s (key et)
               else Some (this, s)) = Some (this1, s1) ∧
              closed s1 ∧ struct_ok s1 this1 ∧ grows s s1 ∧
              capacity this1 = capacity this ∧
              expiration this1 = expiration this)
      as (this1 & s1 & -> & Hcl1 & Hok1 & Hg1 & Hcap1 & Hex1).
    { destruct (Z.geb_spec (Z.of_nat (size (cache s))) (capacity this)) as [Hge|Hlt].
      - destruct (tail this) as [t|] eqn:Ht.
        + simpl. pose proof Hok as [Hokh Hokt].
          destruct (Hokt t) as [et Het]; [done|].
          rewrite Het. simpl.
          destruct (evict_closed this s (key et) Hcl)
            as (c & s1 & -> & ? & ? & ? & ? & ? & ?); [by split|].
          by exists c, s1.
        + rewrite (Htl eq_refl), map_size_empty in Hge. simpl in Hge. lia.
      - exists this, s. split; [done|]. split; [done|]. split; [done|].
        split; [apply grows_refl|done]. }
    simpl. pose proof (LinkedCacheFacts.alloc_fresh s1) as Hfr.
    set (p := alloc s1) in *.
    set (s3 := set_cache (<[k:=p]> (cache s1))
                 (set_entries (<[p:=Entry k v now None None]> (entries s1)) s1)).
    assert (Hg3 : grows s1 s3).
    { intros q Hq. simpl. destruct (decide (p = q)) as [->|].
      - rewrite lookup_insert_eq. eauto.
      - by rewrite lookup_insert_ne. }
    assert (Hcl3 : closed s3).
    { destruct Hcl1 as [Hc He]. split; simpl.
      - intros k' q. destruct (decide (k = k')) as [->|].
        + rewrite lookup_insert_eq. intros [= <-]. rewrite lookup_insert_eq. eauto.
        + rewrite lookup_insert_ne by done. intros Hq. apply Hg3. by eapply Hc.
      - intros q e. destruct (decide (p = q)) as [->|].
        + rewrite lookup_insert_eq. intros [= <-]. simpl.
          split; apply ptr_ok_None.
        + rewrite lookup_insert_ne by done. intros Hq.
          destruct (He q e Hq). split; by eapply ptr_ok_grows. }
    destruct (addToFront_closed this1 s3 p Hcl3)
      as (c & s' & -> & Hcl' & Hok' & Hg' & Hc' & Hcap' & Hexp & Ht).
    { by eapply struct_ok_grows. }
    { simpl. rewrite lookup_insert_eq. eauto. }
    exists c, s'. split; [done|]. split; [done|]. split; [done|].
    split; [|split; [congruence|split; [congruence|done]]].
    eapply grows_trans; [done|]. by eapply grows_trans.
Qed.

Lemma sweep_pass_closed this s visits :
  closed s → struct_ok s this →
  ∃ c s', sweep_pass this s visits = Some (c, s') ∧
    closed s' ∧ struct_ok s' c ∧ grows s s' ∧
    (cache s = ∅ → cache s' = ∅).
Proof.
  revert this s. induction visits as [|[k now] vs IH]; intros this s Hcl Hok; simpl.
  - exists this, s. split; [done|]. split; [done|]. split; [done|].
    split; [apply grows_refl|done].
  - assert (∃ this1 s1, sweep_visit this s k now = Some (this1, s1) ∧
              closed s1 ∧ struct_ok s1 this1 ∧ grows s s1 ∧
              (cache s = ∅ → cache s1 = ∅))
      as (this1 & s1 & -> & Hcl1 & Hok1 & Hg1 & He1).
    { unfold sweep_visit. destruct (cache s !! k) as [p|] eqn:Hk.
      - destruct Hcl as [Hc Hl]. destruct (Hc k p Hk) as [e He]. rewrite He. simpl.
        destruct (Since now (timestamp e) >? expiration this)%Z.
        + destruct (evict_closed this s k (conj Hc Hl) Hok)
            as (c & s1 & -> & ? & ? & ? & Hc1 & _).
          exists c, s1. split; [done|]. split; [done|]. split; [done|].
          split; [done|]. intros Hem. rewrite Hc1, Hem. apply delete_empty.
        + exists this, s. split; [done|]. split; [done|]. split; [done|].
          split; [apply grows_refl|done].
      - exists this, s. split; [done|]. split; [done|]. split; [done|].
        split; [apply grows_refl|done]. }
    simpl. destruct (IH this1 s1 Hcl1 Hok1) as (c & s' & -> & ? & ? & ? & ?).
    exists c, s'. split; [done|]. split; [done|]. split; [done|].
    split; [by eapply grows_trans|]. auto.
Qed.

Lemma sound_Constructor cap ex : sound (Constructor cap ex).
Proof.
  split; [|split; [|split]].
  - split.
    + intros k p Hp. simpl in Hp. by rewrite lookup_empty in Hp.
    + intros p e He. simpl in He. by rewrite lookup_empty in He.
  - split; apply ptr_ok_None.
  - split; apply ptr_ok_None.
  - by intros _.
Qed.

Lemma run_sound ex ops w :
  sound w → (1 ≤ capacity (engine w))%Z → expiration (engine w) = ex →
  Forall (calm ex) ops →
  ∃ w', run w ops = Some w' ∧ sound w'.
Proof.
  intros Hs Hcap Hex Hops. revert w Hs Hcap Hex.
  induction Hops as [|o ops Ho Hops IH];
    intros w (Hcl & Hoke & Hoks & Htl) Hcap Hex.
  - by exists w.
  - simpl. destruct o as [k now1 now2|k v now|visits]; simpl.
    + destruct (Get_closed (engine w) (heap w) k now1 now2 Hcl Hoke)
        as (c & s' & r & -> & Hcl' & Hok' & Hg & Hc & He & Ht). simpl.
      apply IH; simpl; [|lia|congruence].
      split; [done|]. split; [done|]. split; [by eapply struct_ok_grows|].
      unfold tailed. simpl. apply Ht; [|done]. simpl in Ho. by rewrite Hex.
    + destruct (Set_closed (engine w) (heap w) k v now Hcl Hoke Htl Hcap)
        as (c & s' & -> & Hcl' & Hok' & Hg & Hc & He & [t Ht]). simpl.
      apply IH; simpl; [|lia|congruence].
      split; [done|]. split; [done|]. split; [by eapply struct_ok_grows|].
      unfold tailed. simpl. by rewrite Ht.
    + destruct (sweep_pass_closed (sweeper w) (heap w) visits Hcl Hoks)
        as (c & s' & -> & Hcl' & Hok' & Hg & Hem). simpl.
      apply IH; simpl; [|done|done].
      split; [done|]. split; [by eapply struct_ok_grows|]. split; [done|].
      unfold tailed. simpl. intros Ht. by apply Hem, Htl.
Qed.

(** X3: with a capacity of at least 1, no schedule of [Get] and [Set] calls
    and of turns of the sweep loop dereferences nil, provided that each
    call and each run of turns goes from its start to its end on its own (a
    call that works on the map at the same moment as the sweep is a data
    race and outside the model) and that the two clock readings of every
    [Get] (lines 182 and 183) are no more than [expiration] apart. *)
Theorem calls_and_sweeps_never_panic cap ex ops :
  (1 ≤ cap)%Z → Forall (calm ex) ops →
  is_Some (run (Constructor cap ex) ops).
Proof.
  intros Hcap Hops.
  destruct (run_sound ex ops (Constructor cap ex) (sound_Constructor cap ex))
    as (w' & -> & _); [done|done|done|]. eauto.
Qed.

Lemma calls_and_sweeps_never_panic_witness :
  is_Some (run (Constructor 2 (5 * second))
             [OpSet 1 10 (500 * millisecond);
              OpSweep [(1, 1 * second)]%Z;
              OpSet 2 20 (1500 * millisecond);
              OpSweep [(1, 2 * second); (2, 2 * second)]%Z;
              OpGet 2 (2500 * millisecond) (2500 * millisecond + 50);
              OpSet 3 30 (2600 * millisecond)]).
Proof.
  apply (calls_and_sweeps_never_panic 2 (5 * second)
           [OpSet 1 10 (500 * millisecond);
            OpSweep [(1, 1 * second)]%Z;
            OpSet 2 20 (1500 * millisecond);
            OpSweep [(1, 2 * second); (2, 2 * second)]%Z;
            OpGet 2 (2500 * millisecond) (2500 * millisecond + 50);
            OpSet 3 30 (2600 * millisecond)]).
  - lia.
  - evaluate_each.
Defined.

(** ** The engine on its own *)

Lemma NoDup_omap_inj {A B} (f : A → option B) (l : list A) :
  NoDup l →
  (∀ x y b, x ∈ l → y ∈ l → f x = Some b → f y = Some b → x = y) →
  NoDup (omap f l).
Proof.
  induction l as [|x l IH]; intros Hnd Hinj; csimpl; [apply NoDup_nil_2|].
  apply NoDup_cons in Hnd as [Hx Hnd].
  assert (Hl : NoDup (omap f l)).
  { apply IH; [done|]. intros y z b ??. apply Hinj; by right. }
  destruct (f x) as [b|] eqn:Hfx; [|done].
  apply NoDup_cons. split; [|done].
  intros (y & Hy & Hfy)%list_elem_of_omap.
  apply Hx. rewrite (Hinj x y b); [done|by left|by right|done|done].
Qed.

(** In a well-formed engine the walk from [head] meets every live key once
    and no other key. *)
Lemma wf_order_keys this s :
  wf this s →
  NoDup (order_keys this s) ∧ ∀ k, k ∈ order_keys this s ↔ live s k.
Proof.
  intros [l Hrep]. rewrite (LinkedCacheFacts.order_keys_rep _ _ _ Hrep).
  pose proof Hrep as [((Hnd & Hd) & _) Hi]. split.
  - apply NoDup_omap_inj; [done|]. intros p q k Hp Hq Hkp Hkq.
    assert (cache s !! k = Some p) by (by apply Hi).
    assert (cache s !! k = Some q) by (by apply Hi). congruence.
  - intros k. rewrite list_elem_of_omap. unfold live. split.
    + intros (p & Hp & Hk). exists p. by apply Hi.
    + intros [p Hp]. exists p. by apply Hi.
Qed.

(** X4: after any sequence of [Get] and [Set] calls on a constructed cache
    (no sweep in between) the engine is well formed: the map and the walk
    from [head] have the same size, the walk holds no key twice, a key is on
    the walk exactly when it is in the map, and [capacity] and [expiration]
    are the ones given to [Constructor]. *)
Theorem handler_calls_keep_bijection cap ex ops w :
  Forall handler_op ops → run (Constructor cap ex) ops = Some w →
  wf (engine w) (heap w) ∧
  size (cache (heap w)) = length (order (engine w) (heap w)) ∧
  NoDup (order_keys (engine w) (heap w)) ∧
  (∀ k, k ∈ order_keys (engine w) (heap w) ↔ live (heap w) k) ∧
  capacity (engine w) = cap ∧ expiration (engine w) = ex.
Proof.
  intros Hops Hrun.
  destruct (LinkedCacheFacts.run_handlers ops _ w Hops
              (LinkedCacheFacts.wf_Constructor cap ex) Hrun)
    as (Hwf & Hc & He & _).
  destruct (wf_order_keys _ _ Hwf) as [Hnd Hk].
  split; [done|]. split; [by apply LinkedCacheFacts.wf_order_size|].
  split; [done|]. split; [done|]. split; [exact Hc|exact He].
Qed.

Lemma handler_calls_keep_bijection_witness :
  wf (engine two_entries) (heap two_entries) ∧
  size (cache (heap two_entries))
    = length (order (engine two_entries) (heap two_entries)) ∧
  NoDup (order_keys (engine two_entries) (heap two_entries)) ∧
  (∀ k, k ∈ order_keys (engine two_entries) (heap two_entries)
        ↔ live (heap two_entries) k) ∧
  capacity (engine two_entries) = 2%Z ∧
  expiration (engine two_entries) = (5 * second)%Z.
Proof.
  apply (handler_calls_keep_bijection 2 (5 * second)
           [OpSet 1 10 0; OpSet 2 20 second] two_entries).
  - evaluate_each.
  - evaluate.
Defined.

Lemma run_handlers_total w ops :
  Forall handler_op ops → wf (engine w) (heap w) →
  (1 ≤ capacity (engine w))%Z → is_Some (run w ops).
Proof.
  intros Hops. revert w. induction Hops as [|o ops Ho Hops IH]; intros w Hwf Hcap.
  - by eexists.
  - destruct o as [k now1 now2|k v now|]; [| |done]; simpl.
    + destruct (LinkedCacheFacts.Get_total (engine w) (heap w) k now1 now2 Hwf)
        as [[[c s] r] HG].
      rewrite HG. simpl.
      destruct (LinkedCacheFacts.Get_wf _ _ _ _ _ _ _ _ Hwf HG) as (Hwf' & Hc & _).
      apply (IH (Process s c (sweeper w))); [done|]. simpl. lia.
    + destruct (LinkedCacheFacts.Set_total (engine w) (heap w) k v now Hwf Hcap)
        as [[c s] HS].
      rewrite HS. simpl.
      destruct (LinkedCacheFacts.Set_wf _ _ _ _ _ _ _ Hwf HS) as (Hwf' & Hc & _).
      apply (IH (Process s c (sweeper w))); [done|]. simpl. lia.
Qed.

(** X5: with a capacity of at least 1, a sequence of [Get] and [Set] calls
    on a constructed cache between which no turn of the sweep runs never
    dereferences nil, whatever the keys, the values and the clock readings
    of the calls. *)
Theorem handler_calls_never_panic cap ex ops :
  (1 ≤ cap)%Z → Forall handler_op ops →
  is_Some (run (Constructor cap ex) ops).
Proof.
  intros Hcap Hops. apply run_handlers_total; [done| |done].
  apply LinkedCacheFacts.wf_Constructor.
Qed.

Lemma handler_calls_never_panic_witness :
  is_Some (run (Constructor 1 (5 * second))
             [OpSet 1 10 (100 * millisecond);
              OpSet 2 20 (200 * millisecond);
              OpGet 1 (300 * millisecond) (300 * millisecond + 50);
              OpGet 2 (400 * millisecond) (400 * millisecond + 50)]).
Proof.
  apply (handler_calls_never_panic 1 (5 * second)
           [OpSet 1 10 (100 * millisecond);
            OpSet 2 20 (200 * millisecond);
            OpGet 1 (300 * millisecond) (300 * millisecond + 50);
            OpGet 2 (400 * millisecond) (400 * millisecond + 50)]).
  - lia.
  - evaluate_each.
Defined.

(** X6: with a capacity of 0 or less the cache never admits anything: a
    sequence of calls that runs to its end without a panic holds no [Set]
    (line 204 dereferences the nil [tail] of the empty cache) and leaves
    the cache as [Constructor] made it. *)
Theorem no_capacity_no_Set cap ex ops w :
  (cap ≤ 0)%Z → Forall handler_op ops →
  run (Constructor cap ex) ops = Some w →
  w = Constructor cap ex ∧ Forall is_Get ops.
Proof.
  intros Hcap Hops. revert w.
  induction Hops as [|o ops Ho Hops IH]; intros w; simpl.
  - by intros [= <-].
  - destruct o as [k now1 now2|k v now|]; [| |done]; simpl.
    + intros Hrun. destruct (IH w Hrun) as [-> ?]. split; [done|].
      by constructor.
    + rewrite LinkedCacheFacts.Set_new_full_empty; [done|done|done|].
      simpl. rewrite map_size_empty. lia.
Qed.

Lemma no_capacity_no_Set_witness :
  Constructor 0 (5 * second) = Constructor 0 (5 * second) ∧
  Forall is_Get [OpGet 1 0 0; OpGet 2 second second].
Proof.
  apply (no_capacity_no_Set 0 (5 * second)
           [OpGet 1 0 0; OpGet 2 second second] (Constructor 0 (5 * second))).
  - lia.
  - evaluate_each.
  - evaluate.
Defined.

Lemma stored_Some s k d :
  stored s k = Some d ↔ ∃ p, cache s !! k = Some p ∧ data_at s p = Some d.
Proof.
  unfold stored. destruct (cache s !! k) as [p|]; simpl.
  - split; [eauto|]. by intros (? & [= <-] & ?).
  - split; [done|]. by intros (? & ? & ?).
Qed.

Lemma stored_None s k : cache s !! k = None → stored s k = None.
Proof. unfold stored. by intros ->. Qed.

Lemma key_at_data s p : key_at s p = (λ d, d.1.1) <$> data_at s p.
Proof. unfold key_at, data_at, data. by destruct (entries s !! p). Qed.

(** In a well-formed engine an entry is indexed under its own key. *)
Lemma wf_stored_key this s k k0 v t :
  wf this s → stored s k = Some (k0, v, t) → k0 = k.
Proof.
  intros [l [_ Hi]] (p & Hp & Hd)%stored_Some.
  apply Hi in Hp as [_ Hk]. rewrite key_at_data, Hd in Hk. simpl in Hk.
  congruence.
Qed.

Lemma rep_pointer_inj this s l k k' p :
  rep this s l → cache s !! k = Some p → cache s !! k' = Some p → k = k'.
Proof.
  intros [_ Hi] [_ H1]%Hi [_ H2]%Hi. congruence.
Qed.

(** Keys other than the one whose entry [p] was written or made keep what
    they hold, as long as they keep their place in the map. *)
Lemma stored_other s s' p k' :
  same_data_except p s s' → cache s' !! k' = cache s !! k' →
  cache s !! k' ≠ Some p → stored s' k' = stored s k'.
Proof.
  intros Hs Hc Hp. unfold stored. rewrite Hc.
  destruct (cache s !! k') as [q|]; simpl; [|done].
  apply Hs. congruence.
Qed.

(** Moving the entry of [k] to the front of the walk. *)
Lemma order_keys_touch this s l1 p l2 k c s' :
  rep this s (l1 ++ p :: l2) → cache s !! k = Some p →
  rep c s' (p :: l1 ++ l2) → key_at s' p = Some k →
  same_data_except p s s' →
  order_keys c s' = touch k (order_keys this s).
Proof.
  intros Hrep Hk Hrep' Hkp Hs.
  rewrite (LinkedCacheFacts.order_keys_rep _ _ _ Hrep').
  rewrite (LinkedCacheFacts.order_keys_rep _ _ _ Hrep).
  pose proof Hrep as [((Hnd & _) & _) Hi].
  assert (Hkp0 : key_at s p = Some k) by (by apply Hi in Hk as [_ ?]).
  csimpl. rewrite Hkp. unfold touch. f_equal.
  rewrite <-(LinkedCacheFacts.keys_drop _ _ _ _ _ _ Hrep Hkp0).
  apply LinkedCacheFacts.omap_key_at_ext.
  intros q [_ Hq]%(LinkedCacheFacts.NoDup_app_cons_drop _ _ _ _ Hnd).
  by apply (LinkedCacheFacts.key_at_same_data_except p).
Qed.

(** X7: in a well-formed engine a [Get] of a key that is in the map is a
    hit whatever the age of the entry, provided its two clock readings are
    no more than [expiration] apart: it returns the stored value, sets the
    timestamp to the first reading, leaves the map alone and moves the key
    to the front of the walk. *)
Theorem Get_hits_whatever_the_age this s k k0 v t now1 now2 :
  wf this s → stored s k = Some (k0, v, t) →
  (Since now2 now1 ≤ expiration this)%Z →
  ∃ c s',
    Get this s k now1 now2 = Some (c, s', v) ∧
    stored s' k = Some (k, v, now1) ∧
    cache s' = cache s ∧
    order_keys c s' = touch k (order_keys this s) ∧
    wf c s'.
Proof.
  intros [l Hrep] (p & Hp & Hd)%stored_Some Hage.
  destruct (LinkedCacheFacts.Get_present this s l k p now1 now2 Hrep Hp)
    as (l1 & l2 & e & -> & He & Hke & HG).
  destruct (Z.gtb_spec (Since now2 now1) (expiration this)); [lia|].
  destruct HG as (s' & HG & Hrep' & Hc & Hd' & Hs).
  assert (value e = v) as <-.
  { unfold data_at in Hd. rewrite He in Hd. simpl in Hd. by injection Hd. }
  eexists _, s'. split; [done|]. split.
  { apply stored_Some. exists p. by rewrite Hc. }
  split; [done|]. split; [|by eexists].
  eapply order_keys_touch; try done.
  by eapply LinkedCacheFacts.key_at_data_at.
Qed.

Lemma Get_hits_whatever_the_age_witness :
  ∃ c s',
    Get (engine two_entries) (heap two_entries) 1
      (100 * second) (100 * second) = Some (c, s', 10%Z) ∧
    stored s' 1 = Some (1, 10, 100 * second)%Z ∧
    cache s' = cache (heap two_entries) ∧
    order_keys c s'
      = touch 1 (order_keys (engine two_entries) (heap two_entries)) ∧
    wf c s'.
Proof.
  apply (Get_hits_whatever_the_age (engine two_entries) (heap two_entries)
           1 1 10 0 (100 * second) (100 * second)).
  - apply two_entries_wf.
  - evaluate.
  - evaluate.
Defined.

(** X8: in a well-formed engine [Get] of [k] changes nothing of what is
    stored under any other key; under [k] itself there is afterwards either
    nothing, and the call returned -1, or the value it returned with the
    first clock reading as timestamp. *)
Theorem Get_leaves_other_keys this s k now1 now2 c s' r :
  wf this s → Get this s k now1 now2 = Some (c, s', r) →
  (∀ k', k' ≠ k → stored s' k' = stored s k') ∧
  ((stored s' k = None ∧ r = miss) ∨ stored s' k = Some (k, r, now1)).
Proof.
  intros [l Hrep] HG. destruct (cache s !! k) as [p|] eqn:Hk.
  - destruct (LinkedCacheFacts.Get_present this s l k p now1 now2 Hrep Hk)
      as (l1 & l2 & e & -> & He & Hke & HG').
    assert (Hother : ∀ k', k' ≠ k → cache s !! k' ≠ Some p).
    { intros k' Hne Hk'. apply Hne. by eapply rep_pointer_inj. }
    destruct (Since now2 now1 >? expiration this)%Z.
    + destruct HG' as (s1 & HG' & Hrep' & Hc & Hs).
      rewrite HG' in HG. injection HG as <- <- <-. split.
      * intros k' Hne. apply (stored_other _ _ p); [done| |by apply Hother].
        by rewrite Hc, lookup_delete_ne.
      * left. split; [|done]. apply stored_None. by rewrite Hc, lookup_delete_eq.
    + destruct HG' as (s1 & HG' & Hrep' & Hc & Hd & Hs).
      rewrite HG' in HG. injection HG as <- <- <-. split.
      * intros k' Hne. apply (stored_other _ _ p); [done| |by apply Hother].
        by rewrite Hc.
      * right. apply stored_Some. exists p. by rewrite Hc.
  - rewrite (LinkedCacheFacts.Get_absent _ _ _ _ _ Hk) in HG.
    injection HG as <- <- <-. split; [done|]. left. split; [|done].
    by apply stored_None.
Qed.

Lemma Get_leaves_other_keys_witness :
  ∃ c s' r,
    Get (engine two_entries) (heap two_entries) 1
      (100 * second) (100 * second) = Some (c, s', r) ∧
    (∀ k', k' ≠ 1%Z → stored s' k' = stored (heap two_entries) k') ∧
    ((stored s' 1 = None ∧ r = miss) ∨
     stored s' 1 = Some (1%Z, r, (100 * second)%Z)).
Proof.
  eexists _, _, _. split; [evaluate|].
  eapply (Get_leaves_other_keys (engine two_entries) (heap two_entries)
           1 (100 * second) (100 * second)).
  - apply two_entries_wf.
  - evaluate.
Defined.

(** The three ways of [Set]: overwrite, admit, evict and admit. *)
Lemma Set_cases this s l k v now c s' :
  rep this s l → Set_ this s k v now = Some (c, s') →
  ∃ p, data_at s' p = Some (k, v, now) ∧ same_data_except p s s' ∧
       cache s' !! k = Some p ∧
       ((cache s !! k = Some p ∧ cache s' = cache s) ∨
        (cache s !! k = None ∧ (p ∉ l) ∧
         (Z.of_nat (size (cache s)) < capacity this)%Z ∧
         cache s' = <[k := p]> (cache s)) ∨
        (cache s !! k = None ∧ (p ∉ l) ∧
         (capacity this ≤ Z.of_nat (size (cache s)))%Z ∧
         ∃ l' t et, l = l' ++ [t] ∧ entries s !! t = Some et ∧
                    cache s !! key et = Some t ∧
                    cache s' = <[k := p]> (delete (key et) (cache s)))).
Proof.
  intros Hrep HS. destruct (cache s !! k) as [p|] eqn:Hk.
  - destruct (LinkedCacheFacts.Set_present this s l k v now p Hrep Hk)
      as (l1 & l2 & s1 & -> & HS' & Hrep' & Hc & Hd & Hs).
    rewrite HS' in HS. injection HS as <- <-.
    exists p. split; [done|]. split; [done|]. split; [by rewrite Hc|].
    by left.
  - destruct (Z.lt_ge_cases (Z.of_nat (size (cache s))) (capacity this))
      as [Hlt|Hge].
    + destruct (LinkedCacheFacts.Set_new_room this s l k v now Hrep Hk Hlt)
        as (p & s1 & HS' & Hrep' & Hc & Hd & Hp & Hs).
      rewrite HS' in HS. injection HS as <- <-.
      exists p. split; [done|]. split; [done|].
      split; [by rewrite Hc, lookup_insert_eq|]. right. left. done.
    + destruct l as [|t l' _] using rev_ind.
      * destruct Hrep as [(_ & _ & Ht) _].
        rewrite (LinkedCacheFacts.Set_new_full_empty this s k v now Ht Hk Hge) in HS.
        done.
      * destruct (LinkedCacheFacts.rep_key _ _ _ t Hrep) as (et & Het & Hkt).
        { apply elem_of_app. right. by left. }
        destruct (LinkedCacheFacts.Set_new_full this s l' t et k v now Hrep Hk Hge Het)
          as (p & s1 & HS' & Hrep' & Hc & Hd & Hp & Hs).
        rewrite HS' in HS. injection HS as <- <-.
        exists p. split; [done|]. split; [done|].
        split; [by rewrite Hc, lookup_insert_eq|]. right. right.
        split; [done|]. split; [done|]. split; [done|]. by exists l', t, et.
Qed.

Lemma filter_all {A} (P : A → Prop) `{!∀ x, Decision (P x)} (l : list A) :
  (∀ x, x ∈ l → P x) → filter P l = l.
Proof.
  induction l as [|x l IH]; intros HP; [done|].
  rewrite filter_cons_True by (apply HP; by left). f_equal.
  apply IH. intros y ?. apply HP. by right.
Qed.

Lemma wf_in_recency_order this s :
  wf this s → in_recency_order this s (order_keys this s).
Proof.
  intros Hwf. destruct (wf_order_keys _ _ Hwf) as [_ Hk].
  unfold in_recency_order. symmetry. apply filter_all. intros x. apply Hk.
Qed.

(** X9: in a well-formed engine a [Set] that returns has stored the key
    with the given value and the clock reading, the walk from [head] is the
    old one with the key moved or put in front, less a key that was
    evicted, and the engine is well formed again. *)
Theorem Set_stores_in_front this s k v now c s' :
  wf this s → Set_ this s k v now = Some (c, s') →
  stored s' k = Some (k, v, now) ∧
  order_keys c s' = filter (live s') (touch k (order_keys this s)) ∧
  order_keys c s' !! 0%nat = Some k ∧
  wf c s'.
Proof.
  intros Hwf HS.
  pose proof (LinkedCacheFacts.Set_recency _ _ _ _ _ _ _ _ Hwf
                (wf_in_recency_order _ _ Hwf) HS) as Hord.
  destruct (LinkedCacheFacts.Set_wf _ _ _ _ _ _ _ Hwf HS) as (Hwf' & _).
  destruct Hwf as [l Hrep].
  destruct (Set_cases _ _ _ _ _ _ _ _ Hrep HS) as (p & Hd & _ & Hp & _).
  assert (Hst : stored s' k = Some (k, v, now)).
  { apply stored_Some. by exists p. }
  split; [done|]. split; [done|]. split; [|done].
  rewrite Hord. unfold touch. rewrite filter_cons_True; [done|].
  unfold live. rewrite Hp. eauto.
Qed.

Lemma Set_stores_in_front_witness :
  ∃ c s',
    Set_ (engine two_entries) (heap two_entries) 3 30 (2 * second)
      = Some (c, s') ∧
    stored s' 3 = Some (3, 30, 2 * second)%Z ∧
    order_keys c s'
      = filter (live s')
          (touch 3 (order_keys (engine two_entries) (heap two_entries))) ∧
    order_keys c s' !! 0%nat = Some 3%Z ∧
    wf c s'.
Proof.
  eexists _, _. split; [evaluate|].
  apply (Set_stores_in_front (engine two_entries) (heap two_entries)
           3 30 (2 * second)).
  - apply two_entries_wf.
  - evaluate.
Defined.

(** X10: in a well-formed engine [Set] of [k] keeps what is stored under
    every other key, with one exception: when [k] is new and the cache is
    full, the key at the end of the walk is lost. *)
Theorem Set_loses_at_most_the_tail this s k v now c s' k' :
  wf this s → Set_ this s k v now = Some (c, s') → k' ≠ k →
  stored s' k' = stored s k' ∨
  (stored s' k' = None ∧ cache s !! k = None ∧
   (capacity this ≤ Z.of_nat (size (cache s)))%Z ∧
   last (order_keys this s) = Some k').
Proof.
  intros [l Hrep] HS Hne.
  destruct (Set_cases _ _ _ _ _ _ _ _ Hrep HS)
    as (p & Hd & Hs & Hp & [[Hk Hc]|[(Hk & Hpl & Hlt & Hc)|(Hk & Hpl & Hge & H)]]).
  - left. apply (stored_other _ _ p); [done|by rewrite Hc|].
    intros Hk'. apply Hne. by eapply rep_pointer_inj.
  - left. apply (stored_other _ _ p); [done|by rewrite Hc, lookup_insert_ne|].
    intros Hk'. apply Hpl. destruct Hrep as [_ Hi]. by apply Hi in Hk' as [? _].
  - destruct H as (l' & t & et & -> & Het & Hkt & Hc).
    destruct (decide (k' = key et)) as [->|Hne'].
    + right. split.
      { apply stored_None. rewrite Hc, lookup_insert_ne by done.
        apply lookup_delete_eq. }
      split; [done|]. split; [done|].
      rewrite (LinkedCacheFacts.order_keys_rep _ _ _ Hrep), omap_app. csimpl.
      unfold key_at at 2. rewrite Het. simpl. apply last_snoc.
    + left. apply (stored_other _ _ p); [done| |].
      * by rewrite Hc, lookup_insert_ne, lookup_delete_ne.
      * intros Hk'. apply Hpl. destruct Hrep as [_ Hi].
        by apply Hi in Hk' as [? _].
Qed.

Lemma Set_loses_at_most_the_tail_witness :
  ∃ c s',
    Set_ (engine two_entries) (heap two_entries) 3 30 (2 * second)
      = Some (c, s') ∧
    (stored s' 1 = stored (heap two_entries) 1 ∨
     (stored s' 1 = None ∧ cache (heap two_entries) !! 3%Z = None ∧
      (capacity (engine two_entries)
         ≤ Z.of_nat (size (cache (heap two_entries))))%Z ∧
      last (order_keys (engine two_entries) (heap two_entries))
        = Some 1%Z)).
Proof.
  eexists _, _. split; [evaluate|].
  eapply (Set_loses_at_most_the_tail (engine two_entries) (heap two_entries)
           3 30 (2 * second)).
  - apply two_entries_wf.
  - evaluate.
  - evaluate.
Defined.

(** X11: in a well-formed engine [Set] of a key that is in the map always
    returns, whatever the capacity, evicts nothing (the map is the same)
    and stores the new value with the clock reading. *)
Theorem Set_overwrite_keeps_every_key this s k v now :
  wf this s → is_Some (cache s !! k) →
  ∃ c s', Set_ this s k v now = Some (c, s') ∧
          cache s' = cache s ∧ stored s' k = Some (k, v, now) ∧ wf c s'.
Proof.
  intros [l Hrep] [p Hk].
  destruct (LinkedCacheFacts.Set_present this s l k v now p Hrep Hk)
    as (l1 & l2 & s1 & -> & HS' & Hrep' & Hc & Hd & Hs).
  eexists _, s1. split; [done|]. split; [done|]. split; [|by eexists].
  apply stored_Some. exists p. by rewrite Hc.
Qed.

Lemma Set_overwrite_keeps_every_key_witness :
  ∃ c s',
    Set_ (engine two_entries) (heap two_entries) 1 11 (2 * second)
      = Some (c, s') ∧
    cache s' = cache (heap two_entries) ∧
    stored s' 1 = Some (1, 11, 2 * second)%Z ∧
    wf c s'.
Proof.
  apply (Set_overwrite_keeps_every_key (engine two_entries)
           (heap two_entries) 1 11 (2 * second)).
  - apply two_entries_wf.
  - exists 1%positive. evaluate.
Defined.

(** X12: in a well-formed engine of capacity at least 1, a [Set] of a key
    directly followed by a [Get] of the same key, with no other call and no
    turn of the sweep in between, returns the value that was set and
    leaves it stored, provided the two clock readings of the [Get] are no
    more than [expiration] apart. *)
Theorem Set_then_Get_returns_the_value this s k v now now1 now2 :
  wf this s → (1 ≤ capacity this)%Z →
  (Since now2 now1 ≤ expiration this)%Z →
  ∃ c s' c' s'',
    Set_ this s k v now = Some (c, s') ∧
    Get c s' k now1 now2 = Some (c', s'', v) ∧
    stored s'' k = Some (k, v, now1).
Proof.
  intros Hwf Hcap Hage.
  destruct (LinkedCacheFacts.Set_total this s k v now Hwf Hcap) as [[c s'] HS].
  destruct (LinkedCacheFacts.Set_wf _ _ _ _ _ _ _ Hwf HS)
    as ([l' Hrep'] & _ & He & _).
  destruct Hwf as [l Hrep].
  destruct (Set_cases _ _ _ _ _ _ _ _ Hrep HS) as (p & Hd & _ & Hp & _).
  destruct (LinkedCacheFacts.Get_hit_whatever_age c s' l' k p now1 now2 Hrep' Hp)
    as (e & c' & s'' & He' & HG & Hp' & Hd'); [by rewrite He|].
  assert (value e = v) as <-.
  { unfold data_at in Hd. rewrite He' in Hd. simpl in Hd. by injection Hd. }
  exists c, s', c', s''. split; [done|]. split; [done|].
  apply stored_Some. by exists p.
Qed.

Lemma Set_then_Get_returns_the_value_witness :
  ∃ c s' c' s'',
    Set_ (engine two_entries) (heap two_entries) 3 30 (2100 * millisecond)
      = Some (c, s') ∧
    Get c s' 3 (2200 * millisecond) (2200 * millisecond + 50)
      = Some (c', s'', 30%Z) ∧
    stored s'' 3 = Some (3, 30, 2200 * millisecond)%Z.
Proof.
  apply (Set_then_Get_returns_the_value (engine two_entries)
           (heap two_entries) 3 30 (2100 * millisecond)
           (2200 * millisecond) (2200 * millisecond + 50)).
  - apply two_entries_wf.
  - evaluate.
  - evaluate.
Defined.

Lemma wf_well_linked this s : wf this s → well_linked s.
Proof. intros [l [[Hc _] Hi]]. by exists l. Qed.

(** X13: on a store whose entries form one chain, a pass of the sweep
    routine returns and leaves the struct of the handlers as it is; it
    adds and changes nothing in the map; a key that it visited and that is
    still in the map was within [expiration] when visited; and a key that
    was within [expiration] at every visit is kept. *)
Theorem sweep_pass_purges_the_map w visits :
  well_linked (heap w) →
  ∃ w',
    exec w (OpSweep visits) = Some (w', None) ∧
    engine w' = engine w ∧
    well_linked (heap w') ∧
    (∀ k d, stored (heap w') k = Some d → stored (heap w) k = Some d) ∧
    (∀ k now k0 v t, (k, now) ∈ visits →
       stored (heap w') k = Some (k0, v, t) →
       (Since now t ≤ expiration (sweeper w))%Z) ∧
    (∀ k k0 v t, stored (heap w) k = Some (k0, v, t) →
       (∀ now, (k, now) ∈ visits →
               (Since now t ≤ expiration (sweeper w))%Z) →
       stored (heap w') k = Some (k0, v, t)).
Proof.
  intros (l & Hc & Hi).
  destruct (LinkedCacheFacts.sweep_pass_live (sweeper w) (heap w) l visits Hc Hi)
    as (c & s' & l' & Hsw & Hc' & Hi' & Hs & _ & Hsub & Hsurv & Hkeep).
  exists (Process s' (engine w) c). simpl. rewrite Hsw. simpl.
  split; [done|]. split; [done|]. split; [by exists l'|].
  assert (Hts : ∀ p k0 v t, data_at (heap w) p = Some (k0, v, t) →
                 ∃ e, entries (heap w) !! p = Some e ∧ timestamp e = t).
  { intros p k0 v t Hd. unfold data_at in Hd.
    destruct (entries (heap w) !! p) as [e|]; [|done]. simpl in Hd.
    injection Hd as _ _ Ht. eauto. }
  split; [|split].
  - intros k d (p & Hp & Hd)%stored_Some. apply stored_Some. exists p.
    split; [by apply Hsub|]. by rewrite <-(Hs p).
  - intros k now k0 v t Hin (p & Hp & Hd)%stored_Some.
    pose proof Hd as Hd0. rewrite (Hs p) in Hd0.
    unfold data_at in Hd. destruct (entries s' !! p) as [e|] eqn:He; [|done].
    simpl in Hd. injection Hd as _ _ <-. by eapply Hsurv.
  - intros k k0 v t (p & Hp & Hd)%stored_Some Hok. apply stored_Some.
    exists p. split; [|by rewrite (Hs p)].
    apply Hkeep; [done|]. intros now e Hin He.
    destruct (Hts _ _ _ _ Hd) as (e' & He' & <-).
    assert (e' = e) as -> by congruence. by apply Hok.
Qed.

Lemma sweep_pass_purges_the_map_witness :
  ∃ w',
    exec two_entries (OpSweep [(1, 6 * second); (2, 6 * second)]%Z)
      = Some (w', None) ∧
    engine w' = engine two_entries ∧
    well_linked (heap w') ∧
    (∀ k d, stored (heap w') k = Some d →
            stored (heap two_entries) k = Some d) ∧
    (∀ k now k0 v t,
       (k, now) ∈ [(1, 6 * second); (2, 6 * second)]%Z →
       stored (heap w') k = Some (k0, v, t) →
       (Since now t ≤ expiration (sweeper two_entries))%Z) ∧
    (∀ k k0 v t, stored (heap two_entries) k = Some (k0, v, t) →
       (∀ now, (k, now) ∈ [(1, 6 * second); (2, 6 * second)]%Z →
               (Since now t ≤ expiration (sweeper two_entries))%Z) →
       stored (heap w') k = Some (k0, v, t)).
Proof.
  apply (sweep_pass_purges_the_map two_entries
           [(1, 6 * second); (2, 6 * second)]%Z).
  apply (wf_well_linked (engine two_entries)). apply two_entries_wf.
Defined.

(** X14: after any sequence of [Get] and [Set] calls on a constructed
    cache of capacity at least 1, between which no turn of the sweep runs,
    if the cache is full, a [Set] of a new key that follows directly evicts
    the key in the map whose latest touch (a [Set], or a [Get] that hit)
    is the oldest, and nothing else. *)
Theorem full_Set_evicts_least_recently_touched cap ex ops w k v now :
  Forall handler_op ops → run (Constructor cap ex) ops = Some w →
  (1 ≤ cap)%Z → cache (heap w) !! k = None →
  (cap ≤ Z.of_nat (size (cache (heap w))))%Z →
  ∃ kt w' p,
    last (filter (live (heap w)) (touched (Constructor cap ex) ops []))
      = Some kt ∧
    exec w (OpSet k v now) = Some (w', None) ∧
    cache (heap w') = <[k := p]> (delete kt (cache (heap w))).
Proof.
  intros Hops Hrun Hcap Hk Hsz.
  destruct (LinkedCacheFacts.run_handlers ops _ w Hops
              (LinkedCacheFacts.wf_Constructor cap ex) Hrun)
    as ([l Hrep] & Hc & _).
  pose proof (LinkedCacheFacts.handlers_keep_recency_order ops
                (Constructor cap ex) w [] Hops
                (LinkedCacheFacts.wf_Constructor cap ex) eq_refl Hrun) as Hord.
  unfold in_recency_order in Hord. simpl in Hc.
  destruct (LinkedCacheFacts.full_tail (engine w) (heap w) l Hrep)
    as (l' & t & et & -> & Ht & Het); [lia|lia|].
  destruct (LinkedCacheFacts.Set_new_full (engine w) (heap w) l' t et k v now
              Hrep Hk) as (p & s' & HS & _ & Hcache & _); [lia|done|].
  exists (key et). eexists _, p. split; [|split].
  - rewrite <-Hord, (LinkedCacheFacts.order_keys_rep _ _ _ Hrep), omap_app.
    csimpl. unfold key_at at 2. rewrite Het. simpl. apply last_snoc.
  - simpl. rewrite HS. simpl. done.
  - done.
Qed.

Lemma full_Set_evicts_least_recently_touched_witness :
  ∃ w,
    run (Constructor 2 (5 * second))
      [OpSet 1 10 (100 * millisecond); OpSet 2 20 (200 * millisecond);
       OpGet 1 (300 * millisecond) (300 * millisecond + 50)]
      = Some w ∧
    ∃ kt w' p,
      last (filter (live (heap w))
              (touched (Constructor 2 (5 * second))
                 [OpSet 1 10 (100 * millisecond);
                  OpSet 2 20 (200 * millisecond);
                  OpGet 1 (300 * millisecond) (300 * millisecond + 50)] []))
        = Some kt ∧
      exec w (OpSet 3 30 (400 * millisecond)) = Some (w', None) ∧
      cache (heap w') = <[3%Z := p]> (delete kt (cache (heap w))).
Proof.
  eexists. split; [evaluate|].
  apply (full_Set_evicts_least_recently_touched 2 (5 * second)
           [OpSet 1 10 (100 * millisecond); OpSet 2 20 (200 * millisecond);
            OpGet 1 (300 * millisecond) (300 * millisecond + 50)]
           _ 3 30 (400 * millisecond)).
  - evaluate_each.
  - evaluate.
  - lia.
  - evaluate.
  - evaluate.
Defined.

(** X15: after any sequence of [Get] and [Set] calls on a constructed
    cache (no sweep in between), the keys on the walk from [head] are the
    keys of the map in the order of their latest touch, the most recent
    first, where a touch is a [Set] or a [Get] that hit. *)
Theorem walk_follows_the_history cap ex ops w :
  Forall handler_op ops → run (Constructor cap ex) ops = Some w →
  order_keys (engine w) (heap w)
  = filter (live (heap w)) (touched (Constructor cap ex) ops []).
Proof.
  intros Hops Hrun.
  apply (LinkedCacheFacts.handlers_keep_recency_order ops
           (Constructor cap ex) w [] Hops);
    [apply LinkedCacheFacts.wf_Constructor|done|done].
Qed.

Lemma walk_follows_the_history_witness :
  order_keys (engine two_entries) (heap two_entries)
  = filter (live (heap two_entries))
      (touched (Constructor 2 (5 * second))
         [OpSet 1 10 0; OpSet 2 20 second] []).
Proof.
  apply (walk_follows_the_history 2 (5 * second)
           [OpSet 1 10 0; OpSet 2 20 second] two_entries).
  - evaluate_each.
  - evaluate.
Defined.

(** * Further properties of the list edition *)

Section ListEdition.
Import ListCache.

Lemma two_elements_consistent : consistent two_elements.
Proof.
  refine (proj1 (ListCacheFacts.run_consistent
                   [OpSet 1 10 0; OpSet 2 20 second]
                   (Constructor 2 (5 * second)) two_elements
                   (ListCacheFacts.consistent_Constructor 2 (5 * second)) _)).
  evaluate.
Defined.

Lemma list_stored_Some this k e :
  stored this k = Some e ↔
  ∃ el, cache this !! k = Some el ∧ elements this !! el = Some e.
Proof.
  unfold stored. destruct (cache this !! k) as [el|]; simpl.
  - split; [eauto|]. by intros (? & [= <-] & ?).
  - split; [done|]. by intros (? & ? & ?).
Qed.

Lemma list_stored_evict this k k' :
  stored (evict this k) k' = if decide (k' = k) then None else stored this k'.
Proof.
  unfold evict. destruct (cache this !! k) as [el|] eqn:Hk.
  - unfold stored. simpl. destruct (decide (k' = k)) as [->|].
    + by rewrite lookup_delete_eq.
    + by rewrite lookup_delete_ne.
  - destruct (decide (k' = k)) as [->|]; [|done]. unfold stored. by rewrite Hk.
Qed.

(** What [Get] does to the data: nothing, but for the expired entry it
    takes out. *)
Lemma list_Get_stored this k now c r :
  Get this k now = Some (c, r) →
  (∀ k', k' ≠ k → stored c k' = stored this k') ∧
  ((r = miss ∧ stored c k = None ∧
    (cache this !! k = None ∨
     ∃ e, stored this k = Some e ∧
          (Since now (timestamp e) > expiration this)%Z)) ∨
   (∃ e, stored this k = Some e ∧ stored c k = Some e ∧ r = value e ∧
         (Since now (timestamp e) ≤ expiration this)%Z)).
Proof.
  unfold Get. destruct (cache this !! k) as [el|] eqn:Hk.
  - destruct (elements this !! el) as [e|] eqn:He; [|done]. simpl.
    assert (Hst : stored this k = Some e).
    { apply list_stored_Some. by exists el. }
    destruct (Z.gtb_spec (Since now (timestamp e)) (expiration this));
      intros [= <- <-].
    + split.
      * intros k' Hne. rewrite list_stored_evict. by destruct (decide (k' = k)).
      * left. split; [done|]. split.
        { rewrite list_stored_evict. by destruct (decide (k = k)). }
        right. exists e. split; [done|lia].
    + split; [done|]. right. exists e. done.
  - intros [= <- <-]. split; [done|]. left. split; [done|].
    split; [|by left]. unfold stored. by rewrite Hk.
Qed.

Lemma list_Get_total this k now :
  consistent this → ∃ c r, Get this k now = Some (c, r).
Proof.
  intros (_ & Hel & Hc). unfold Get.
  destruct (cache this !! k) as [el|] eqn:Hk; [|by eexists _, _].
  apply Hc in Hk as [[e He]%Hel _]. rewrite He. simpl.
  destruct (Since now (timestamp e) >? expiration this)%Z; by eexists _, _.
Qed.

Lemma list_Set_total this k v now :
  consistent this → ∃ c, Set_ this k v now = Some c.
Proof.
  intros Hcons. destruct (cache this !! k) as [el|] eqn:Hk.
  - destruct (ListCacheFacts.Set_existing this k v now el Hcons Hk)
      as (e & _ & HS & _). eauto.
  - destruct (Z.lt_ge_cases (Z.of_nat (size (cache this))) (capacity this))
      as [Hlt|Hge].
    + rewrite (ListCacheFacts.Set_fresh_room this k v now Hcons Hk Hlt). eauto.
    + destruct (eviction this) as [|x l _] eqn:Hl using rev_ind.
      * rewrite (ListCacheFacts.Set_fresh_empty this k v now Hl Hk Hge). eauto.
      * pose proof Hcons as (_ & Hel & _). destruct (Hel x) as [eb Heb].
        { rewrite Hl. apply elem_of_app. right. by left. }
        destruct (ListCacheFacts.Set_fresh_full this l x eb k v now)
          as [HS' _]; try done.
        rewrite HS'. eauto.
Qed.

Lemma list_run_total ops this :
  consistent this → ∃ c, run this ops = Some c.
Proof.
  revert this. induction ops as [|o ops IH]; intros this Hcons; simpl.
  - eauto.
  - destruct o as [k now|k v now]; simpl.
    + destruct (list_Get_total this k now Hcons) as (c & r & HG).
      rewrite HG. simpl. apply IH.
      by destruct (ListCacheFacts.Get_consistent _ _ _ _ _ Hcons HG).
    + destruct (list_Set_total this k v now Hcons) as (c & HS).
      rewrite HS. simpl. apply IH.
      by destruct (ListCacheFacts.Set_consistent _ _ _ _ _ Hcons HS).
Qed.

Lemma list_run_expiration ops this c :
  run this ops = Some c → expiration c = expiration this.
Proof.
  revert this. induction ops as [|o ops IH]; intros this; simpl.
  - by intros [= <-].
  - destruct o as [k now|k v now]; simpl.
    + destruct (Get this k now) as [[c1 r]|] eqn:HG; [|done]. simpl.
      intros ->%IH. unfold Get in HG.
      destruct (cache this !! k) as [el|] eqn:Hk.
      * destruct (elements this !! el) as [e|]; [|done]. simpl in HG.
        destruct (Since now (timestamp e) >? expiration this)%Z;
          injection HG as <- _; [|done].
        unfold evict. by rewrite Hk.
      * by injection HG as <- _.
    + destruct (Set_ this k v now) as [c1|] eqn:HS; [|done]. simpl.
      intros ->%IH. unfold Set_ in HS.
      destruct (cache this !! k) as [el|] eqn:Hk.
      * destruct (elements this !! el) as [e|]; [|done]. by injection HS as <-.
      * destruct (Z.of_nat (size (cache this)) >=? capacity this)%Z.
        -- destruct (Back (eviction this)) as [back|].
           ++ destruct (elements this !! back) as [eb|]; [|done]. simpl in HS.
              injection HS as <-. simpl. unfold evict.
              by destruct (cache this !! key eb).
           ++ by injection HS as <-.
        -- by injection HS as <-.
Qed.

(** X16: on the list edition every sequence of [Get] and [Set] calls on a
    constructed cache runs to its end, whatever the capacity; the index and
    the list stay consistent and of the same size, the index holds at most
    [capacity] keys (at most one when the capacity is less than 1), and
    [capacity] and [expiration] are the ones given to [Constructor]. *)
Theorem list_calls_complete_within_bounds cap ex ops :
  ∃ c, run (Constructor cap ex) ops = Some c ∧
       consistent c ∧
       size (cache c) = length (eviction c) ∧
       (Z.of_nat (size (cache c)) ≤ Z.max 1 cap)%Z ∧
       capacity c = cap ∧ expiration c = ex.
Proof.
  destruct (list_run_total ops _ (ListCacheFacts.consistent_Constructor cap ex))
    as [c Hrun].
  destruct (ListCacheFacts.run_consistent ops _ c
              (ListCacheFacts.consistent_Constructor cap ex) Hrun)
    as (Hcons & Hcap & Hsz).
  exists c. split; [done|]. split; [done|].
  split; [by apply ListCacheFacts.consistent_size|].
  split; [simpl in Hsz; rewrite map_size_empty in Hsz; lia|].
  split; [done|]. by rewrite (list_run_expiration _ _ _ Hrun).
Qed.

(** X17: on the list edition [Get] of [k] changes nothing of what is
    stored under any other key.  It returns -1 and leaves nothing under [k]
    when [k] is not in the index or its entry is older than [expiration];
    otherwise it returns the value of the entry, which is no older than
    [expiration], and leaves the entry as it is, timestamp included. *)
Theorem list_Get_honours_expiration this k now c r :
  Get this k now = Some (c, r) →
  (∀ k', k' ≠ k → stored c k' = stored this k') ∧
  ((r = miss ∧ stored c k = None ∧
    (cache this !! k = None ∨
     ∃ e, stored this k = Some e ∧
          (Since now (timestamp e) > expiration this)%Z)) ∨
   (∃ e, stored this k = Some e ∧ stored c k = Some e ∧ r = value e ∧
         (Since now (timestamp e) ≤ expiration this)%Z)).
Proof. apply list_Get_stored. Qed.

Lemma list_Get_honours_expiration_witness :
  ∃ c r,
    Get two_elements 1 (3 * second) = Some (c, r) ∧
    (∀ k', k' ≠ 1%Z → stored c k' = stored two_elements k') ∧
    ((r = miss ∧ stored c 1 = None ∧
      (cache two_elements !! 1%Z = None ∨
       ∃ e, stored two_elements 1 = Some e ∧
            (Since (3 * second) (timestamp e) > expiration two_elements)%Z)) ∨
     (∃ e, stored two_elements 1 = Some e ∧ stored c 1 = Some e ∧
           r = value e ∧
           (Since (3 * second) (timestamp e) ≤ expiration two_elements)%Z)).
Proof.
  eexists _, _. split; [evaluate|].
  apply (list_Get_honours_expiration two_elements 1 (3 * second)).
  evaluate.
Defined.

Lemma list_consistent_key this k e :
  consistent this → stored this k = Some e → key e = k.
Proof.
  intros (_ & _ & Hc) (el & Hk & He)%list_stored_Some.
  apply Hc in Hk as [_ Hk]. unfold key_of in Hk. rewrite He in Hk.
  simpl in Hk. congruence.
Qed.

Lemma list_consistent_inj this k k' el :
  consistent this → cache this !! k = Some el → cache this !! k' = Some el →
  k = k'.
Proof. intros (_ & _ & Hc) [_ H1]%Hc [_ H2]%Hc. congruence. Qed.

(** Keys other than [k] keep their entry when the element [el] of [k] is
    written or made. *)
Lemma list_stored_other this c k' el :
  (∀ x, x ≠ el → elements c !! x = elements this !! x) →
  cache c !! k' = cache this !! k' → cache this !! k' ≠ Some el →
  stored c k' = stored this k'.
Proof.
  intros He Hc Hne. unfold stored. rewrite Hc.
  destruct (cache this !! k') as [x|]; simpl; [|done].
  apply He. congruence.
Qed.

Lemma list_order_keys_snoc this l back eb :
  eviction this = l ++ [back] → elements this !! back = Some eb →
  last (order_keys this) = Some (key eb).
Proof.
  intros Hl Heb. unfold order_keys. rewrite Hl, omap_app. csimpl.
  unfold key_of at 2. rewrite Heb. simpl. apply last_snoc.
Qed.

(** The three ways of [Set]: overwrite, admit, evict the back and admit. *)
Lemma list_Set_effect this k v now c :
  consistent this → Set_ this k v now = Some c →
  stored c k = Some (Entry k v now) ∧
  order_keys c !! 0%nat = Some k ∧
  ∀ k', k' ≠ k →
    stored c k' = stored this k' ∨
    (stored c k' = None ∧ cache this !! k = None ∧
     (capacity this ≤ Z.of_nat (size (cache this)))%Z ∧
     last (order_keys this) = Some k').
Proof.
  intros Hcons HS. destruct (cache this !! k) as [el|] eqn:Hk.
  - destruct (ListCacheFacts.Set_existing this k v now el Hcons Hk)
      as (e & He & HS' & _).
    rewrite HS' in HS. injection HS as <-.
    assert (key e = k) as Hke.
    { apply (list_consistent_key this); [done|].
      apply list_stored_Some. by exists el. }
    split; [|split].
    + apply list_stored_Some. exists el. simpl.
      by rewrite lookup_insert_eq, Hke.
    + unfold order_keys, MoveToFront. simpl.
      destruct Hcons as (_ & _ & Hc). pose proof Hk as [Hin _]%Hc.
      destruct (decide (el ∈ eviction this)); [|done]. csimpl.
      unfold key_of at 1. simpl. rewrite lookup_insert_eq. simpl.
      by rewrite Hke.
    + intros k' Hne. left. apply (list_stored_other _ _ _ el); simpl.
      * intros x Hx. by rewrite lookup_insert_ne.
      * done.
      * intros Hk'. apply Hne. by eapply list_consistent_inj.
  - assert (Hfresh : ∀ k' x, cache this !! k' = Some x →
                     x ≠ fresh (dom (elements this))).
    { intros k' x Hx ->. destruct Hcons as (_ & Hel & Hc).
      apply Hc in Hx as [[e He]%Hel _].
      assert (Hf : elements this !! fresh (dom (elements this)) = None).
      { apply not_elem_of_dom. apply is_fresh. }
      congruence. }
    destruct (Z.lt_ge_cases (Z.of_nat (size (cache this))) (capacity this))
      as [Hlt|Hge].
    + rewrite (ListCacheFacts.Set_fresh_room this k v now Hcons Hk Hlt) in HS.
      injection HS as <-. split; [|split].
      * apply list_stored_Some. eexists. simpl.
        by rewrite !lookup_insert_eq.
      * unfold order_keys. csimpl. unfold key_of at 1. simpl.
        by rewrite lookup_insert_eq.
      * intros k' Hne. left.
        apply (list_stored_other _ _ _ (fresh (dom (elements this)))); simpl.
        -- intros x Hx. by rewrite lookup_insert_ne.
        -- by rewrite lookup_insert_ne.
        -- intros Hk'. by eapply Hfresh.
    + destruct (eviction this) as [|x l _] eqn:Hl using rev_ind.
      * rewrite (ListCacheFacts.Set_fresh_empty this k v now Hl Hk Hge) in HS.
        injection HS as <-. split; [|split].
        -- apply list_stored_Some. eexists. simpl.
           by rewrite !lookup_insert_eq.
        -- unfold order_keys. csimpl. unfold key_of at 1. simpl.
           by rewrite lookup_insert_eq.
        -- intros k' Hne. left.
           apply (list_stored_other _ _ _ (fresh (dom (elements this)))); simpl.
           ++ intros y Hy. by rewrite lookup_insert_ne.
           ++ by rewrite lookup_insert_ne.
           ++ intros Hk'. by eapply Hfresh.
      * pose proof Hcons as (_ & Hel & _). destruct (Hel x) as [eb Heb].
        { rewrite Hl. apply elem_of_app. right. by left. }
        destruct (ListCacheFacts.Set_fresh_full this l x eb k v now)
          as [HS' Hkb]; try done.
        rewrite HS' in HS. injection HS as <-. split; [|split].
        -- apply list_stored_Some. eexists. simpl.
           by rewrite !lookup_insert_eq.
        -- unfold order_keys. csimpl. unfold key_of at 1. simpl.
           by rewrite lookup_insert_eq.
        -- intros k' Hne. destruct (decide (k' = key eb)) as [->|Hne'].
           ++ right. split.
              { unfold stored. simpl.
                by rewrite lookup_insert_ne, lookup_delete_eq. }
              split; [done|]. split; [done|].
              by eapply list_order_keys_snoc.
           ++ left.
              apply (list_stored_other _ _ _ (fresh (dom (elements this))));
                simpl.
              ** intros y Hy. by rewrite lookup_insert_ne.
              ** by rewrite lookup_insert_ne, lookup_delete_ne.
              ** intros Hk'. by eapply Hfresh.
Qed.

Lemma list_Get_of_stored this k e now :
  stored this k = Some e →
  ∃ c, Get this k now =
         Some (c, if (Since now (timestamp e) >? expiration this)%Z
                  then miss else value e).
Proof.
  intros (el & Hk & He)%list_stored_Some. unfold Get. rewrite Hk, He. simpl.
  destruct (Since now (timestamp e) >? expiration this)%Z; eauto.
Qed.

(** X18: on the list edition, in a consistent cache, a [Set] that returns
    has stored the key with the value and the clock reading and put it in
    front of the list; every other key keeps what is stored under it, with
    one exception: when the key is new and the cache is full, the key at
    the back of the list is lost. *)
Theorem list_Set_loses_at_most_the_back this k v now c :
  consistent this → Set_ this k v now = Some c →
  stored c k = Some (Entry k v now) ∧
  order_keys c !! 0%nat = Some k ∧
  ∀ k', k' ≠ k →
    stored c k' = stored this k' ∨
    (stored c k' = None ∧ cache this !! k = None ∧
     (capacity this ≤ Z.of_nat (size (cache this)))%Z ∧
     last (order_keys this) = Some k').
Proof. apply list_Set_effect. Qed.

Lemma list_Set_loses_at_most_the_back_witness :
  ∃ c, Set_ two_elements 3 30 (2 * second) = Some c ∧
    stored c 3 = Some (Entry 3 30 (2 * second)) ∧
    order_keys c !! 0%nat = Some 3%Z ∧
    ∀ k', k' ≠ 3%Z →
      stored c k' = stored two_elements k' ∨
      (stored c k' = None ∧ cache two_elements !! 3%Z = None ∧
       (capacity two_elements ≤ Z.of_nat (size (cache two_elements)))%Z ∧
       last (order_keys two_elements) = Some k').
Proof.
  eexists. split; [evaluate|].
  apply (list_Set_loses_at_most_the_back two_elements 3 30 (2 * second)).
  - apply two_elements_consistent.
  - evaluate.
Defined.

(** X19: on the list edition, in a consistent cache of any capacity, [Set]
    returns and stores the key with the value and the clock reading, and a
    [Get] of the key that follows returns the value when no more than
    [expiration] has passed since the [Set], and -1 when more has. *)
Theorem list_Set_then_Get this k v now :
  consistent this →
  ∃ c, Set_ this k v now = Some c ∧
       stored c k = Some (Entry k v now) ∧
       ∀ now', ∃ c',
         Get c k now' =
           Some (c', if (Since now' now >? expiration this)%Z
                     then miss else v).
Proof.
  intros Hcons. destruct (list_Set_total this k v now Hcons) as [c HS].
  destruct (list_Set_effect _ _ _ _ _ Hcons HS) as (Hst & _).
  destruct (ListCacheFacts.Set_consistent _ _ _ _ _ Hcons HS)
    as (_ & _ & Hex & _).
  exists c. split; [done|]. split; [done|]. intros now'.
  destruct (list_Get_of_stored c k _ now' Hst) as [c' HG].
  exists c'. rewrite HG, Hex. done.
Qed.

Lemma list_Set_then_Get_witness :
  ∃ c, Set_ two_elements 3 30 (2 * second) = Some c ∧
       stored c 3 = Some (Entry 3 30 (2 * second)) ∧
       ∀ now', ∃ c',
         Get c 3 now' =
           Some (c', if (Since now' (2 * second)
                           >? expiration two_elements)%Z
                     then miss else 30%Z).
Proof.
  apply (list_Set_then_Get two_elements 3 30 (2 * second)).
  apply two_elements_consistent.
Defined.

Lemma list_run_latest ops this c (m : Z → option (Z * Z)) :
  consistent this →
  (∀ k e, stored this k = Some e → m k = Some (value e, timestamp e)) →
  run this ops = Some c →
  ∀ k e, stored c k = Some e →
    match last_Set ops k with Some vt => Some vt | None => m k end
      = Some (value e, timestamp e).
Proof.
  revert this m. induction ops as [|o ops IH]; intros this m Hcons Hm; simpl.
  - intros [= <-]. done.
  - destruct o as [k0 now|k0 v now]; simpl.
    + destruct (Get this k0 now) as [[c1 r]|] eqn:HG; [|done]. simpl.
      intros Hrun k e Hst.
      destruct (ListCacheFacts.Get_consistent _ _ _ _ _ Hcons HG) as (Hc1 & _).
      pose proof (IH c1 m Hc1) as IH'.
      assert (Hm1 : ∀ k e, stored c1 k = Some e →
                     m k = Some (value e, timestamp e)).
      { intros k' e' Hst'. apply Hm.
        destruct (list_Get_stored _ _ _ _ _ HG) as [Ho Hk].
        destruct (decide (k' = k0)) as [->|Hne]; [|by rewrite <-Ho].
        destruct Hk as [(_ & Hn & _)|(e0 & H0 & H1 & _)]; congruence. }
      specialize (IH' Hm1 Hrun k e Hst).
      by destruct (last_Set ops k).
    + destruct (Set_ this k0 v now) as [c1|] eqn:HS; [|done]. simpl.
      intros Hrun k e Hst.
      destruct (ListCacheFacts.Set_consistent _ _ _ _ _ Hcons HS) as (Hc1 & _).
      destruct (list_Set_effect _ _ _ _ _ Hcons HS) as (Hk0 & _ & Ho).
      pose proof (IH c1 (λ k', if decide (k0 = k') then Some (v, now) else m k')
                    Hc1) as IH'.
      simpl in IH'. apply IH' in Hst; [|clear IH'|done].
      * destruct (last_Set ops k); [done|].
        by destruct (decide (k0 = k)).
      * intros k' e' Hst'. destruct (decide (k0 = k')) as [<-|Hne].
        -- rewrite Hk0 in Hst'. by injection Hst' as <-.
        -- apply Hm. destruct (Ho k') as [<-|[Hn _]]; [done|done|congruence].
Qed.

Lemma list_stored_latest cap ex ops c k e :
  run (Constructor cap ex) ops = Some c → stored c k = Some e →
  key e = k ∧ last_Set ops k = Some (value e, timestamp e).
Proof.
  intros Hrun Hst.
  destruct (ListCacheFacts.run_consistent ops _ c
              (ListCacheFacts.consistent_Constructor cap ex) Hrun)
    as (Hcons & _).
  split; [by eapply list_consistent_key|].
  pose proof (list_run_latest ops _ c (λ _, None)
                (ListCacheFacts.consistent_Constructor cap ex)) as H.
  simpl in H.
  assert (H0 : ∀ k e, stored (Constructor cap ex) k = Some e →
                      @None (Z * Z) = Some (value e, timestamp e)).
  { intros k' e'. unfold stored. simpl. by rewrite lookup_empty. }
  specialize (H H0 Hrun k e Hst). by destruct (last_Set ops k).
Qed.

(** X20: on the list edition, after any sequence of calls on a constructed
    cache, what the index holds under a key is an entry of that key, and
    its value and timestamp are those of the latest [Set] of the key: no
    [Get] has touched them. *)
Theorem list_stored_is_latest_Set cap ex ops c k e :
  run (Constructor cap ex) ops = Some c → stored c k = Some e →
  key e = k ∧ last_Set ops k = Some (value e, timestamp e).
Proof. apply list_stored_latest. Qed.

Lemma list_stored_is_latest_Set_witness :
  key (Entry 1 10 0) = 1%Z ∧
  last_Set [OpSet 1 10 0; OpSet 2 20 second; OpGet 1 (2 * second)] 1
    = Some (value (Entry 1 10 0), timestamp (Entry 1 10 0)).
Proof.
  eapply (list_stored_is_latest_Set 2 (5 * second)
            [OpSet 1 10 0; OpSet 2 20 second; OpGet 1 (2 * second)]
            _ 1 (Entry 1 10 0)).
  - evaluate.
  - evaluate.
Defined.

(** X21: on the list edition, after any sequence of calls on a constructed
    cache, [Get] returns -1 or the value of the latest [Set] of the key,
    and in that case no more than [expiration] has passed since that
    [Set]. *)
Theorem list_Get_never_serves_expired cap ex ops c k now c' r :
  run (Constructor cap ex) ops = Some c → Get c k now = Some (c', r) →
  r = miss ∨
  ∃ t, last_Set ops k = Some (r, t) ∧ (Since now t ≤ ex)%Z.
Proof.
  intros Hrun HG.
  destruct (list_Get_stored _ _ _ _ _ HG)
    as [_ [(? & _)|(e & Hst & _ & -> & Hage)]]; [by left|].
  right. exists (timestamp e).
  destruct (list_stored_latest _ _ _ _ _ _ Hrun Hst) as [_ ->].
  split; [done|]. by rewrite (list_run_expiration _ _ _ Hrun) in Hage.
Qed.

Lemma list_Get_never_serves_expired_witness :
  ∃ c' r,
    Get two_elements 1 (3 * second) = Some (c', r) ∧
    (r = miss ∨
     ∃ t, last_Set [OpSet 1 10 0; OpSet 2 20 second] 1 = Some (r, t) ∧
          (Since (3 * second) t ≤ 5 * second)%Z).
Proof.
  eexists _, _. split; [evaluate|].
  eapply (list_Get_never_serves_expired 2 (5 * second)
           [OpSet 1 10 0; OpSet 2 20 second] two_elements 1 (3 * second)).
  - evaluate.
  - evaluate.
Defined.

End ListEdition.

(** * The servers *)

Section Server.
Variable Decode : string → option (Z * Z).
Variable Atoi : string → option Z.

Lemma handle_call w ev :
  fst <$> handle Decode Atoi w ev =
    match call Decode Atoi ev with
    | Some o => fst <$> exec w o
    | None => Some w
    end.
Proof.
  destruct ev as [r now|r now1 now2 now3|visits]; simpl.
  - unfold SetHandler. destruct (decide (Method r = "OPTIONS")); [done|].
    destruct (Decode (Body r)) as [[k v]|]; [|done]. simpl.
    by destruct (Set_ (engine w) (heap w) k v now) as [[c s]|].
  - unfold GetHandler. destruct (Atoi (query_key r)) as [k|]; [|done]. simpl.
    by destruct (Get (engine w) (heap w) k now1 now2) as [[[c s] v]|].
  - by destruct (sweep_pass (sweeper w) (heap w) visits) as [[c s]|].
Qed.

Lemma serve_run w evs :
  fst <$> serve Decode Atoi w evs = run w (omap (call Decode Atoi) evs).
Proof.
  revert w. induction evs as [|ev evs IH]; intros w; [done|].
  simpl. pose proof (handle_call w ev) as Hh.
  destruct (call Decode Atoi ev) as [o|]; simpl.
  - destruct (handle Decode Atoi w ev) as [[w1 out]|];
      destruct (exec w o) as [[w1' r]|]; simpl in *; try done.
    injection Hh as ->. rewrite <-IH.
    by destruct (serve Decode Atoi w1' evs) as [[w2 outs]|].
  - destruct (handle Decode Atoi w ev) as [[w1 out]|]; simpl in *; [|done].
    injection Hh as ->. rewrite <-IH.
    by destruct (serve Decode Atoi w evs) as [[w2 outs]|].
Qed.

Lemma serve_length w evs w' outs :
  serve Decode Atoi w evs = Some (w', outs) → length outs = length evs.
Proof.
  revert w w' outs. induction evs as [|ev evs IH]; intros w w' outs; simpl.
  - by intros [= _ <-].
  - destruct (handle Decode Atoi w ev) as [[w1 out]|]; [|done]. simpl.
    destruct (serve Decode Atoi w1 evs) as [[w2 outs']|] eqn:Hs; [|done].
    simpl. intros [= _ <-]. simpl. f_equal. by eapply IH.
Qed.

Lemma serve_of_run w evs w' :
  run w (omap (call Decode Atoi) evs) = Some w' →
  ∃ outs, serve Decode Atoi w evs = Some (w', outs) ∧
          length outs = length evs.
Proof.
  intros Hrun. pose proof (serve_run w evs) as Hs. rewrite Hrun in Hs.
  destruct (serve Decode Atoi w evs) as [[w2 outs]|] eqn:Hsv; [|done].
  simpl in Hs. injection Hs as ->. exists outs. split; [done|].
  by eapply serve_length.
Qed.

Lemma call_handler_op evs :
  Forall is_request evs → Forall handler_op (omap (call Decode Atoi) evs).
Proof.
  induction 1 as [|ev evs Hev _ IH]; csimpl; [constructor|].
  destruct ev as [r now|r now1 now2 now3|visits]; [| |done]; simpl.
  - destruct (decide (Method r = "OPTIONS")); [done|].
    destruct (Decode (Body r)) as [[k v]|]; simpl; [|done]. by constructor.
  - destruct (Atoi (query_key r)) as [k|]; simpl; [|done]. by constructor.
Qed.

Lemma call_calm ex evs :
  Forall (prompt ex) evs → Forall (calm ex) (omap (call Decode Atoi) evs).
Proof.
  induction 1 as [|ev evs Hev _ IH]; csimpl; [constructor|].
  destruct ev as [r now|r now1 now2 now3|visits]; simpl.
  - destruct (decide (Method r = "OPTIONS")); [done|].
    destruct (Decode (Body r)) as [[k v]|]; simpl; [|done]. by constructor.
  - destruct (Atoi (query_key r)) as [k|]; simpl; [|done]. by constructor.
  - by constructor.
Qed.

(** X22: the handlers add nothing of their own to the cache: the process
    that a sequence of requests and sweep ticks leaves is the one that the
    calls of the accepted requests and the ticks leave, in the same order;
    an [OPTIONS] request to [/cache/set], a body that does not decode and a
    key that is not a number lead to no call at all. *)
Theorem serve_runs_the_calls w evs :
  fst <$> serve Decode Atoi w evs = run w (omap (call Decode Atoi) evs).
Proof. apply serve_run. Qed.

(** X23: the server that [main] starts (capacity 1024, [expiration] 5 s)
    answers every request, however the turns of the sweep loop fall
    between the requests, provided that no request is served at the same
    moment as a turn of the sweep (a data race, outside the model) and
    that the two clock readings of every [Get] are no more than 5 s
    apart. *)
Theorem server_never_panics evs :
  Forall (prompt (5 * second)) evs →
  ∃ w outs, serve Decode Atoi main evs = Some (w, outs) ∧
            length outs = length evs.
Proof.
  intros Hev.
  destruct (run_sound (5 * second) (omap (call Decode Atoi) evs) main)
    as (w & Hrun & _).
  - apply sound_Constructor.
  - simpl. lia.
  - done.
  - by apply call_calm.
  - destruct (serve_of_run _ _ _ Hrun) as (outs & ? & ?). by exists w, outs.
Qed.

(** X24: without the sweep, the server that [main] starts answers every
    sequence of requests, and the engine stays well formed with at most
    1024 keys. *)
Theorem server_requests_keep_the_bound evs :
  Forall is_request evs →
  ∃ w outs, serve Decode Atoi main evs = Some (w, outs) ∧
            length outs = length evs ∧
            wf (engine w) (heap w) ∧
            size (cache (heap w)) ≤ 1024.
Proof.
  intros Hev. pose proof (call_handler_op evs Hev) as Hops.
  destruct (run_handlers_total main (omap (call Decode Atoi) evs) Hops)
    as [w Hrun].
  { apply LinkedCacheFacts.wf_Constructor. }
  { simpl. lia. }
  destruct (LinkedCacheFacts.run_handlers _ _ w Hops
              (LinkedCacheFacts.wf_Constructor _ _) Hrun)
    as (Hwf & Hc & He & Hsz).
  destruct (serve_of_run _ _ _ Hrun) as (outs & Hs & Hl).
  exists w, outs. split; [done|]. split; [done|]. split; [done|].
  simpl in Hsz. rewrite map_size_empty in Hsz. lia.
Qed.

(** X25: on a well-formed engine of capacity at least 1, a request to
    [/cache/set] that is not [OPTIONS] and whose body decodes to a key and a
    value is answered with status 200, and a request to [/cache/get] for
    that key that follows directly, with no other request and no turn of
    the sweep in between, is answered with that value and with
    [expiration] seconds after its own clock reading as the expiry,
    provided the two clock readings of its [Get] are no more than
    [expiration] apart. *)
Theorem handlers_round_trip w r r' k v now now1 now2 now3 :
  wf (engine w) (heap w) → (1 ≤ capacity (engine w))%Z →
  Method r ≠ "OPTIONS" → Decode (Body r) = Some (k, v) →
  Atoi (query_key r') = Some k →
  (Since now2 now1 ≤ expiration (engine w))%Z →
  ∃ w1 w2,
    SetHandler Decode w r now =
      Some (w1, [Header_Set "Access-Control-Allow-Origin" "*";
                 Header_Set "Access-Control-Allow-Methods" "POST, OPTIONS";
                 Header_Set "Access-Control-Allow-Headers" "Content-Type";
                 WriteHeader StatusOK]) ∧
    GetHandler Atoi w1 r' now1 now2 now3 =
      Some (w2, [Header_Set "Access-Control-Allow-Origin" "*";
                 Encode v (Unix (now3 + expiration (engine w)))]).
Proof.
  intros Hwf Hcap Hm Hd Ha Hage.
  destruct (LinkedCacheFacts.Set_total (engine w) (heap w) k v now Hwf Hcap)
    as [[c s'] HS].
  destruct (LinkedCacheFacts.Set_wf _ _ _ _ _ _ _ Hwf HS)
    as ([l' Hrep'] & _ & He & _).
  destruct Hwf as [l Hrep].
  destruct (Set_cases _ _ _ _ _ _ _ _ Hrep HS) as (p & Hda & _ & Hp & _).
  destruct (LinkedCacheFacts.Get_hit_whatever_age c s' l' k p now1 now2 Hrep' Hp)
    as (e & c' & s'' & He' & HG & Hp' & Hd'); [by rewrite He|].
  assert (value e = v) as <-.
  { unfold data_at in Hda. rewrite He' in Hda. simpl in Hda. by injection Hda. }
  assert (Hex : expiration c' = expiration (engine w)).
  { destruct (LinkedCacheFacts.Get_wf _ _ _ _ _ _ _ _ (ex_intro _ l' Hrep') HG)
      as (_ & _ & Hex & _). congruence. }
  exists (Process s' c (sweeper w)), (Process s'' c' (sweeper w)). split.
  - unfold SetHandler. destruct (decide (Method r = "OPTIONS")); [done|].
    rewrite Hd. simpl. rewrite HS. simpl. done.
  - unfold GetHandler. rewrite Ha. simpl. rewrite HG. simpl.
    by rewrite Hex.
Qed.

End Server.

Lemma server_never_panics_witness :
  ∃ w outs,
    serve (λ _, Some (1, 10)%Z) (λ _, Some 1%Z) main
      [ToSet (Request "POST" "" "") (500 * millisecond);
       Tick [(1, 1 * second)]%Z;
       ToGet (Request "GET" "" "1") (1500 * millisecond)
         (1500 * millisecond + 50) (1500 * millisecond + 100)]
      = Some (w, outs) ∧
    length outs = 3.
Proof.
  apply (server_never_panics (λ _, Some (1, 10)%Z) (λ _, Some 1%Z)
           [ToSet (Request "POST" "" "") (500 * millisecond);
            Tick [(1, 1 * second)]%Z;
            ToGet (Request "GET" "" "1") (1500 * millisecond)
              (1500 * millisecond + 50) (1500 * millisecond + 100)]).
  evaluate_each.
Defined.

Lemma server_requests_keep_the_bound_witness :
  ∃ w outs,
    serve (λ _, Some (1, 10)%Z) (λ _, Some 1%Z) main
      [ToSet (Request "POST" "" "") 0;
       ToSet (Request "OPTIONS" "" "") second;
       ToGet (Request "GET" "" "1") (7 * second) (7 * second) (7 * second)]
      = Some (w, outs) ∧
    length outs = 3 ∧
    wf (engine w) (heap w) ∧
    size (cache (heap w)) ≤ 1024.
Proof.
  apply (server_requests_keep_the_bound (λ _, Some (1, 10)%Z) (λ _, Some 1%Z)
           [ToSet (Request "POST" "" "") 0;
            ToSet (Request "OPTIONS" "" "") second;
            ToGet (Request "GET" "" "1")
              (7 * second) (7 * second) (7 * second)]).
  evaluate_each.
Defined.

Lemma handlers_round_trip_witness :
  ∃ w1 w2,
    SetHandler (λ _, Some (3, 30)%Z) two_entries
      (Request "POST" "" "") (2100 * millisecond) =
      Some (w1, [Header_Set "Access-Control-Allow-Origin" "*";
                 Header_Set "Access-Control-Allow-Methods" "POST, OPTIONS";
                 Header_Set "Access-Control-Allow-Headers" "Content-Type";
                 WriteHeader StatusOK]) ∧
    GetHandler (λ _, Some 3%Z) w1 (Request "GET" "" "3")
      (2200 * millisecond) (2200 * millisecond + 50)
      (2200 * millisecond + 100) =
      Some (w2, [Header_Set "Access-Control-Allow-Origin" "*";
                 Encode 30
                   (Unix (2200 * millisecond + 100
                          + expiration (engine two_entries)))]).
Proof.
  apply (handlers_round_trip (λ _, Some (3, 30)%Z) (λ _, Some 3%Z)
           two_entries (Request "POST" "" "") (Request "GET" "" "3")
           3 30 (2100 * millisecond) (2200 * millisecond)
           (2200 * millisecond + 50) (2200 * millisecond + 100)).
  - apply two_entries_wf.
  - evaluate.
  - evaluate.
  - evaluate.
  - evaluate.
  - evaluate.
Defined.

Section ListServer.
Import ListCache.
Variable Decode : string → option (Z * Z).
Variable Atoi : string → option Z.

Lemma list_handle_call this ev :
  fst <$> handle Decode Atoi this ev =
    match call Decode Atoi ev with
    | Some o => fst <$> exec this o
    | None => Some this
    end.
Proof.
  destruct ev as [r now|r now now']; simpl.
  - unfold SetHandler. destruct (decide (Method r = "OPTIONS")); [done|].
    destruct (Decode (Body r)) as [[k v]|]; [|done]. simpl.
    by destruct (Set_ this k v now) as [c|].
  - unfold GetHandler. destruct (Atoi (query_key r)) as [k|]; [|done]. simpl.
    by destruct (Get this k now) as [[c v]|].
Qed.

Lemma list_serve_run this evs :
  fst <$> serve Decode Atoi this evs = run this (omap (call Decode Atoi) evs).
Proof.
  revert this. induction evs as [|ev evs IH]; intros this; [done|].
  simpl. pose proof (list_handle_call this ev) as Hh.
  destruct (call Decode Atoi ev) as [o|]; simpl.
  - destruct (handle Decode Atoi this ev) as [[c1 out]|];
      destruct (exec this o) as [[c1' r]|]; simpl in *; try done.
    injection Hh as ->. rewrite <-IH.
    by destruct (serve Decode Atoi c1' evs) as [[c2 outs]|].
  - destruct (handle Decode Atoi this ev) as [[c1 out]|]; simpl in *; [|done].
    injection Hh as ->. rewrite <-IH.
    by destruct (serve Decode Atoi this evs) as [[c2 outs]|].
Qed.

Lemma list_serve_length this evs c outs :
  serve Decode Atoi this evs = Some (c, outs) → length outs = length evs.
Proof.
  revert this c outs. induction evs as [|ev evs IH]; intros this c outs; simpl.
  - by intros [= _ <-].
  - destruct (handle Decode Atoi this ev) as [[c1 out]|]; [|done]. simpl.
    destruct (serve Decode Atoi c1 evs) as [[c2 outs']|] eqn:Hs; [|done].
    simpl. intros [= _ <-]. simpl. f_equal. by eapply IH.
Qed.

(** X26: the server that [main] of the list edition starts answers every
    sequence of requests, and the cache stays consistent with at most 1024
    keys. *)
Theorem list_server_never_panics evs :
  ∃ c outs, serve Decode Atoi main evs = Some (c, outs) ∧
            length outs = length evs ∧
            consistent c ∧
            size (cache c) ≤ 1024.
Proof.
  destruct (list_run_total (omap (call Decode Atoi) evs) main
              (ListCacheFacts.consistent_Constructor _ _)) as [c Hrun].
  destruct (ListCacheFacts.run_consistent _ _ c
              (ListCacheFacts.consistent_Constructor _ _) Hrun)
    as (Hcons & _ & Hsz).
  pose proof (list_serve_run main evs) as Hs. rewrite Hrun in Hs.
  destruct (serve Decode Atoi main evs) as [[c2 outs]|] eqn:Hsv; [|done].
  simpl in Hs. injection Hs as ->. exists c, outs.
  split; [done|]. split; [by eapply list_serve_length|]. split; [done|].
  simpl in Hsz. rewrite map_size_empty in Hsz. lia.
Qed.

(** X27: on the list edition, in a consistent cache, a request to
    [/cache/set] that is not [OPTIONS] and whose body decodes to a key and a
    value is answered with status 200; a request to [/cache/get] for that
    key that follows is answered with the value when no more than
    [expiration] has passed since the [Set], with -1 when more has, and in
    both cases with [expiration] seconds after its own clock reading as
    the expiry. *)
Theorem list_handlers_round_trip this r r' k v now now' now'' :
  consistent this →
  Method r ≠ "OPTIONS" → Decode (Body r) = Some (k, v) →
  Atoi (query_key r') = Some k →
  ∃ c c',
    SetHandler Decode this r now =
      Some (c, [Header_Set "Access-Control-Allow-Origin" "*";
                Header_Set "Access-Control-Allow-Methods" "POST, OPTIONS";
                Header_Set "Access-Control-Allow-Headers" "Content-Type";
                WriteHeader StatusOK]) ∧
    GetHandler Atoi c r' now' now'' =
      Some (c', [Header_Set "Access-Control-Allow-Origin" "*";
                 Encode (if (Since now' now >? expiration this)%Z
                         then miss else v)
                        (Unix (now'' + expiration this))]).
Proof.
  intros Hcons Hm Hd Ha.
  destruct (list_Set_total this k v now Hcons) as [c HS].
  destruct (list_Set_effect _ _ _ _ _ Hcons HS) as (Hst & _).
  destruct (ListCacheFacts.Set_consistent _ _ _ _ _ Hcons HS)
    as (Hc & _ & Hex & _).
  destruct (list_Get_of_stored c k _ now' Hst) as [c' HG].
  destruct (ListCacheFacts.Get_consistent _ _ _ _ _ Hc HG)
    as (_ & _ & Hex' & _).
  exists c, c'. split.
  - unfold SetHandler. destruct (decide (Method r = "OPTIONS")); [done|].
    rewrite Hd. simpl. rewrite HS. simpl. done.
  - unfold GetHandler. rewrite Ha. simpl. rewrite HG. simpl.
    by rewrite Hex', Hex.
Qed.

End ListServer.

Lemma list_handlers_round_trip_witness :
  ∃ c c',
    ListCache.SetHandler (λ _, Some (3, 30)%Z) ListCache.two_elements
      (Request "POST" "" "") (2 * second) =
      Some (c, [Header_Set "Access-Control-Allow-Origin" "*";
                Header_Set "Access-Control-Allow-Methods" "POST, OPTIONS";
                Header_Set "Access-Control-Allow-Headers" "Content-Type";
                WriteHeader StatusOK]) ∧
    ListCache.GetHandler (λ _, Some 3%Z) c (Request "GET" "" "3")
      (60 * second) (61 * second) =
      Some (c', [Header_Set "Access-Control-Allow-Origin" "*";
                 Encode (if (Since (60 * second) (2 * second)
                               >? ListCache.expiration ListCache.two_elements)%Z
                         then miss else 30%Z)
                        (Unix (61 * second
                               + ListCache.expiration ListCache.two_elements))]).
Proof.
  apply (list_handlers_round_trip (λ _, Some (3, 30)%Z) (λ _, Some 3%Z)
           ListCache.two_elements (Request "POST" "" "") (Request "GET" "" "3")
           3 30 (2 * second) (60 * second) (61 * second)).
  - apply two_elements_consistent.
  - evaluate.
  - evaluate.
  - evaluate.
Defined.
